(** * SpinPAK contour engine: airfoil map, transforms, fillet joint,
      replication and export bounds of [spinpak_interactive_app.py]

    The program computes on numpy [float64] values.  Rounding and overflow are
    idealised: a finite double is a real number and the arithmetic on finite
    doubles is the arithmetic of [R].  What is kept of IEEE 754 is the part the
    program can reach without rounding: division by zero and the arithmetic of
    the infinities and of NaN, because numpy's default error state turns these
    into values (with a warning), not into exceptions.  Signed zeros are not
    distinguished.  The one overflow that is kept is the one Python turns into
    an exception, the power [a**2] of a Python float in [plot_joukowsky]: it
    is part of [call_plot_joukowsky]; the canvases and the export are stated
    for parameters of ordinary size (the sliders give R between 0.5 and 1.2),
    where [R**2] is a double.

    Where the idealisation and the doubles part ways in kind, not in the last
    digits, it is said at the definition, and the statements keep clear of
    it: the last airfoil sample of a circle through the origin
    ([plot_joukowsky]), corners close to a straight line ([rounded_joint]),
    and bounds that are not finite ([export_to_svg]). *)

From Stdlib Require Import Reals Lra Lia Psatz List Bool Arith.
From Stdlib Require Ascii.
Import ListNotations.

Local Open Scope R_scope.

(** ** Doubles *)

Module F64.

Inductive float64 : Type :=
| Fin (r : R)
| Inf (negative : bool)
| NaN.

Definition is_finite (x : float64) : Prop :=
  match x with Fin _ => True | _ => False end.

(** The sign of a real, as the three-way case the special values need. *)
Inductive sign : Type := Neg | Zero | Pos.

Definition sign_of (r : R) : sign :=
  match total_order_T r 0 with
  | inleft (left _) => Neg
  | inleft (right _) => Zero
  | inright _ => Pos
  end.

Definition fopp (x : float64) : float64 :=
  match x with
  | Fin r => Fin (- r)
  | Inf b => Inf (negb b)
  | NaN => NaN
  end.

Definition fabs (x : float64) : float64 :=
  match x with
  | Fin r => Fin (Rabs r)
  | Inf _ => Inf false
  | NaN => NaN
  end.

Definition fadd (x y : float64) : float64 :=
  match x, y with
  | Fin a, Fin b => Fin (a + b)
  | Fin _, Inf b => Inf b
  | Inf a, Fin _ => Inf a
  | Inf a, Inf b => if Bool.eqb a b then Inf a else NaN
  | _, _ => NaN
  end.

Definition fsub (x y : float64) : float64 := fadd x (fopp y).

Definition fmul (x y : float64) : float64 :=
  match x, y with
  | Fin a, Fin b => Fin (a * b)
  | Fin a, Inf b =>
      match sign_of a with Neg => Inf (negb b) | Zero => NaN | Pos => Inf b end
  | Inf a, Fin b =>
      match sign_of b with Neg => Inf (negb a) | Zero => NaN | Pos => Inf a end
  | Inf a, Inf b => Inf (xorb a b)
  | _, _ => NaN
  end.

(** [x / 0] is an infinity of the sign of [x], and [0 / 0] is NaN: numpy warns
    and goes on. *)
Definition fdiv (x y : float64) : float64 :=
  match x, y with
  | Fin a, Fin b =>
      match sign_of b with
      | Zero =>
          match sign_of a with Neg => Inf true | Zero => NaN | Pos => Inf false end
      | _ => Fin (a / b)
      end
  | Fin _, Inf _ => Fin 0
  | Inf a, Fin b =>
      match sign_of b with Neg => Inf (negb a) | _ => Inf a end
  | _, _ => NaN
  end.

Definition fsqrt (x : float64) : float64 :=
  match x with
  | Fin r => if Rlt_dec r 0 then NaN else Fin (sqrt r)
  | Inf false => Inf false
  | _ => NaN
  end.

Definition fcos (x : float64) : float64 :=
  match x with Fin r => Fin (cos r) | _ => NaN end.

Definition fsin (x : float64) : float64 :=
  match x with Fin r => Fin (sin r) | _ => NaN end.

Definition farccos (x : float64) : float64 :=
  match x with
  | Fin r => if Rlt_dec r (-1) then NaN else if Rlt_dec 1 r then NaN else Fin (acos r)
  | _ => NaN
  end.

(** [x < y]; every comparison with NaN is false. *)
Definition flt (x y : float64) : bool :=
  match x, y with
  | Fin a, Fin b => if Rlt_dec a b then true else false
  | Fin _, Inf b => negb b
  | Inf a, Fin _ => a
  | Inf a, Inf b => a && negb b
  | _, _ => false
  end.

Definition fgt (x y : float64) : bool := flt y x.

Definition feq (x y : float64) : bool :=
  match x, y with
  | Fin a, Fin b => if Req_dec_T a b then true else false
  | Inf a, Inf b => Bool.eqb a b
  | _, _ => false
  end.

Definition fge (x y : float64) : bool := flt y x || feq x y.

(** [np.minimum] and [np.maximum]: a NaN operand gives NaN. *)
Definition fminimum (x y : float64) : float64 :=
  match x, y with
  | NaN, _ | _, NaN => NaN
  | _, _ => if flt y x then y else x
  end.

Definition fmaximum (x y : float64) : float64 :=
  match x, y with
  | NaN, _ | _, NaN => NaN
  | _, _ => if flt x y then y else x
  end.

(** [np.clip(x, lo, hi)] is [minimum(maximum(x, lo), hi)]. *)
Definition clip (x lo hi : float64) : float64 := fminimum (fmaximum x lo) hi.

(** [np.radians]. *)
Definition radians (deg : float64) : float64 := fmul deg (Fin (PI / 180)).

End F64.
Import F64.

Declare Scope f64_scope.
Delimit Scope f64_scope with f64.
Infix "+" := fadd : f64_scope.
Infix "-" := fsub : f64_scope.
Infix "*" := fmul : f64_scope.
Infix "/" := fdiv : f64_scope.
Notation "- x" := (fopp x) : f64_scope.

(** ** complex128 *)

Module C128.

Definition complex128 : Type := (float64 * float64)%type.

Definition re (z : complex128) : float64 := fst z.
Definition im (z : complex128) : float64 := snd z.

Definition of_real (x : float64) : complex128 := (x, Fin 0).

(** The imaginary unit [1j]. *)
Definition j : complex128 := (Fin 0, Fin 1).

Definition cadd (a b : complex128) : complex128 :=
  (re a + re b, im a + im b)%f64.

Definition cmul (a b : complex128) : complex128 :=
  (re a * re b - im a * im b, re a * im b + im a * re b)%f64.

(** numpy's complex division loop: the ratio form, with the zero divisor
    handled first ("divide by zero should yield a complex inf or nan"). *)
Definition cdiv (a b : complex128) : complex128 :=
  let in1r := re a in
  let in1i := im a in
  let in2r := re b in
  let in2i := im b in
  let in2r_abs := fabs in2r in
  let in2i_abs := fabs in2i in
  if fge in2r_abs in2i_abs then
    if feq in2r_abs (Fin 0) && feq in2i_abs (Fin 0) then
      (in1r / in2r_abs, in1i / in2r_abs)%f64
    else
      let rat := (in2i / in2r)%f64 in
      let scl := (Fin 1 / (in2r + in2i * rat))%f64 in
      ((in1r + in1i * rat) * scl, (in1i - in1r * rat) * scl)%f64
  else
    let rat := (in2r / in2i)%f64 in
    let scl := (Fin 1 / (in2i + in2r * rat))%f64 in
    ((in1r * rat + in1i) * scl, (in1i * rat - in1r) * scl)%f64.

End C128.
Import C128.

(** ** What a call does: it returns, or it raises *)

Inductive exn : Type :=
| DomainError
| ValueError
| ZeroDivisionError
| OverflowError.

Inductive outcome (A : Type) : Type :=
| Returns (a : A)
| Raises (e : exn).
Arguments Returns {A} a.
Arguments Raises {A} e.

(** ** Arrays *)

(** [np.linspace(start, stop, num)]: [num] samples, both ends included. *)
Definition linspace (start stop : float64) (num : nat) : list float64 :=
  let step := ((stop - start) / Fin (INR (num - 1)))%f64 in
  map (fun k => (start + Fin (INR k) * step)%f64) (seq 0 num).

(** ** AirfoilGenerator: [plot_joukowsky] *)

Definition n_points : nat := 400.

Definition theta_samples : list float64 :=
  linspace (Fin 0) (Fin (2 * PI)) n_points.

(** [w = (x_center + R cos theta) + 1j (y_center + R sin theta)]. *)
Definition joukowsky_w (R x_center y_center theta : float64) : complex128 :=
  cadd (of_real (x_center + R * fcos theta)%f64)
       (cmul j (of_real (y_center + R * fsin theta)%f64)).

(** [z = w + a**2 / w] with [a = R]. *)
Definition joukowsky_z (R : float64) (w : complex128) : complex128 :=
  let a := R in
  cadd w (cdiv (of_real (a * a)%f64) w).

(** The two returned arrays, [z.real * scale] and [z.imag * scale].

    The last angle is [2 pi] itself, where the sine is 0, so for a circle
    through the origin at angle 0 the last sample here is the first one
    again, not finite.  On doubles [np.sin(2 * np.pi)] is about [-2.4e-16],
    [w] is not zero there, and the code's last sample is finite and very
    large.  The first sample has [cos 0 = 1] and [sin 0 = 0] on doubles as
    well. *)
Definition plot_joukowsky (R x_center y_center scale : float64)
  : list float64 * list float64 :=
  let w := map (joukowsky_w R x_center y_center) theta_samples in
  let z := map (joukowsky_z R) w in
  (map (fun zk => (re zk * scale)%f64) z, map (fun zk => (im zk * scale)%f64) z).

(** The least real that rounds to infinity as a double, [2^1024 - 2^970]. *)
Definition float64_overflow : R := (2 - / 2 ^ 53) * 2 ^ 1023.

(** [a**2] on a Python float, which is what every caller passes for [R]: the
    square of a finite float that is too large for a double raises
    OverflowError; an infinite or NaN base gives a value. *)
Definition float_square (a : float64) : outcome float64 :=
  match a with
  | Fin r =>
      if Rlt_dec (r * r) float64_overflow then Returns (Fin (r * r))
      else Raises OverflowError
  | Inf _ => Returns (Inf false)
  | NaN => Returns NaN
  end.

(** A call of [plot_joukowsky], statement by statement.  The function has no
    [raise] of its own and numpy only warns on a zero divisor; the one
    expression that can raise is the power [a**2]. *)
Definition call_plot_joukowsky (R x_center y_center scale : float64)
  : outcome (list float64 * list float64) :=
  let w := map (joukowsky_w R x_center y_center) theta_samples in
  let a := R in
  match float_square a with
  | Raises e => Raises e
  | Returns a2 =>
      let z := map (fun wk => cadd wk (cdiv (of_real a2) wk)) w in
      Returns (map (fun zk => (re zk * scale)%f64) z,
               map (fun zk => (im zk * scale)%f64) z)
  end.

(** ** Points and 2x2 matrices *)

Definition point : Type := (float64 * float64)%type.
Definition curve : Type := list point.
Definition matrix2 : Type := (point * point)%type.

Definition origin : point := (Fin 0, Fin 0).

Definition vadd (p q : point) : point := (fst p + fst q, snd p + snd q)%f64.
Definition vsub (p q : point) : point := (fst p - fst q, snd p - snd q)%f64.
Definition vopp (p : point) : point := (- fst p, - snd p)%f64.

(** A scalar times a vector, and a vector divided by a scalar. *)
Definition vscale (k : float64) (p : point) : point := (k * fst p, k * snd p)%f64.
Definition vdiv (p : point) (k : float64) : point := (fst p / k, snd p / k)%f64.

(** [np.dot(u, v)] and [np.linalg.norm(v)] on vectors of two entries. *)
Definition dot (u v : point) : float64 := (fst u * fst v + snd u * snd v)%f64.
Definition norm (v : point) : float64 := fsqrt (dot v v).

Definition transpose (m : matrix2) : matrix2 :=
  ((fst (fst m), fst (snd m)), (snd (fst m), snd (snd m))).

(** [m @ p]: matrix times column vector. *)
Definition matvec (m : matrix2) (p : point) : point := (dot (fst m) p, dot (snd m) p).

(** [p @ m]: row vector times matrix. *)
Definition vecmat (p : point) (m : matrix2) : point :=
  (dot p (fst (transpose m)), dot p (snd (transpose m))).

(** ** GeometricTransform: [reflect] and [rotate] *)

Definition reflect (points : curve) (angle_deg : float64) : curve :=
  let theta := radians angle_deg in
  let cos_theta := fcos (- theta)%f64 in
  let sin_theta := fsin (- theta)%f64 in
  let rotation_matrix : matrix2 :=
    ((cos_theta, (- sin_theta)%f64), (sin_theta, cos_theta)) in
  let cos_theta_inv := fcos theta in
  let sin_theta_inv := fsin theta in
  let rotation_matrix_inv : matrix2 :=
    ((cos_theta_inv, (- sin_theta_inv)%f64), (sin_theta_inv, cos_theta_inv)) in
  fold_left
    (fun reflected_points p =>
       let p_rotated := matvec rotation_matrix p in
       let p_reflected_rotated := (fst p_rotated, (- snd p_rotated)%f64) in
       let p_reflected := matvec rotation_matrix_inv p_reflected_rotated in
       reflected_points ++ [p_reflected])
    points [].

Definition rotate (points : curve) (angle_deg : float64) (center : point) : curve :=
  let angle_rad := radians angle_deg in
  let Rm : matrix2 :=
    ((fcos angle_rad, (- fsin angle_rad)%f64), (fsin angle_rad, fcos angle_rad)) in
  map (fun p => vadd (vecmat (vsub p center) (transpose Rm)) center) points.

(** ** SymmetryReplicator *)

(** The closing loops of [generate_revolution_shape]: for each angle, for each
    base path, append the rotated path. *)
Definition replicate (base_paths : list curve) (angles : list float64) : list curve :=
  fold_left
    (fun paths_to_plot angle =>
       fold_left
         (fun paths_to_plot path =>
            let rotated_path := rotate path angle origin in
            paths_to_plot ++ [rotated_path])
         base_paths paths_to_plot)
    angles [].

(** What [generate_revolution_shape] returns, given its three base paths (they
    come out of the scipy optimiser and of the contour assembly). *)
Definition revolution_paths (full_contour finale1 full_contour_reflected : curve)
  : list curve :=
  let base_paths := [full_contour; finale1; full_contour_reflected] in
  replicate base_paths [Fin 0; Fin 120; Fin 240].

(** [np.column_stack([x, y + y_offset])] of the airfoil arrays. *)
Definition airfoil_points (R x_center y_center scale y_offset : float64) : curve :=
  let '(x, y) := plot_joukowsky R x_center y_center scale in
  let y_adjusted := map (fun yk => (yk + y_offset)%f64) y in
  combine x y_adjusted.

(** The rotated copies of the [else] branch: [angle = i * angle_step] for [i] in
    [range(n_revolutions)]; [360.0 / 0] raises in Python. *)
Definition rotated_airfoils (n_revolutions : nat) (airfoil : curve)
  : outcome (list curve) :=
  if (n_revolutions =? 0)%nat then Raises ZeroDivisionError
  else
    let angle_step := (Fin 360 / Fin (INR n_revolutions))%f64 in
    Returns
      (fold_left
         (fun drawn i =>
            let angle := (Fin (INR i) * angle_step)%f64 in
            drawn ++ [rotate airfoil angle origin])
         (seq 0 n_revolutions) []).

(** The red curves of [plot_combined] and of [export_to_svg], in drawing
    order. *)
Definition overlay_curves (n_revolutions : nat) (airfoil : curve)
  : outcome (list curve) :=
  if (n_revolutions =? 1)%nat then Returns [airfoil]
  else rotated_airfoils n_revolutions airfoil.

Definition bind {A B : Type} (m : outcome A) (f : A -> outcome B) : outcome B :=
  match m with
  | Returns a => f a
  | Raises e => Raises e
  end.

(** [all_points] of [export_to_svg]: the emblem's points, then the overlay's. *)
Definition export_all_points (revolution : list curve) (n_revolutions : nat)
  (airfoil : curve) : outcome (list point) :=
  let all_points := concat revolution in
  if (n_revolutions =? 1)%nat then Returns (all_points ++ airfoil)
  else bind (rotated_airfoils n_revolutions airfoil)
         (fun rotated => Returns (all_points ++ concat rotated)).

(** ** VectorPathSerializer: bounds and viewBox *)

(** [min] and [max] of a numpy array: an empty array raises ValueError, and a
    NaN entry wins. *)
Definition amin (l : list float64) : outcome float64 :=
  match l with
  | [] => Raises ValueError
  | x :: t => Returns (fold_left fminimum t x)
  end.

Definition amax (l : list float64) : outcome float64 :=
  match l with
  | [] => Raises ValueError
  | x :: t => Returns (fold_left fmaximum t x)
  end.

Record svg_frame : Type := {
  size_px : float64 * float64;
  viewBox : float64 * float64 * float64 * float64;
  background_insert : point;
  background_size : float64 * float64;
  label_insert : point
}.

Definition padding : float64 := Fin 0.2.

(** Pixels per unit, the local [scale] of [export_to_svg]. *)
Definition pixels_per_unit : float64 := Fin 300.

Definition export_frame (all_points : list point) : outcome svg_frame :=
  bind (amin (map fst all_points)) (fun min_x =>
  bind (amin (map snd all_points)) (fun min_y =>
  bind (amax (map fst all_points)) (fun max_x =>
  bind (amax (map snd all_points)) (fun max_y =>
    let width := (max_x - min_x + Fin 2 * padding)%f64 in
    let height := (max_y - min_y + Fin 2 * padding)%f64 in
    let svg_width := (width * pixels_per_unit)%f64 in
    let svg_height := (height * pixels_per_unit)%f64 in
    Returns
      {| size_px := (svg_width, svg_height);
         viewBox := ((min_x - padding)%f64, (min_y - padding)%f64, width, height);
         background_insert := ((min_x - padding)%f64, (min_y - padding)%f64);
         background_size := (width, height);
         label_insert :=
           ((min_x - padding + Fin 0.05)%f64, (min_y - padding + Fin 0.15)%f64) |})))).

(** ** TangentCircleSolver: the two objectives of [generate_revolution_shape] *)

(** Python's [x**2] and [sum(list)]. *)
Definition fsquare (x : float64) : float64 := (x * x)%f64.
Definition py_sum (l : list float64) : float64 := fold_left fadd l (Fin 0).

(** shapely's [Point(p).distance(LineString([a, b]))], the distance from [p] to
    the nearest point of the segment: the foot of the perpendicular when it
    falls between the ends, the nearer end otherwise. *)
Definition point_segment_distance (p a b : point) : float64 :=
  let ab := vsub b a in
  let len2 := dot ab ab in
  if feq len2 (Fin 0) then norm (vsub p a)
  else
    let t := clip (dot (vsub p a) ab / len2)%f64 (Fin 0) (Fin 1) in
    norm (vsub p (vadd a (vscale t ab))).

(** [np.min(np.linalg.norm(pts - center, axis=1))]. *)
Definition min_sample_distance (pts : curve) (center : point) : outcome float64 :=
  amin (map (fun q => norm (vsub q center)) pts).

Module Emblem.

Definition r1 : float64 := Fin 1.
Definition r2 : float64 := Fin 1.2.
(** The rounding radius, [R] in the source. *)
Definition R_corner : float64 := Fin 0.05.
Definition R_joint : float64 := Fin 0.3.

Definition p1 : point := (Fin (-0.7), fsqrt (fsquare r1 - fsquare (Fin 0.7))%f64).
Definition p2 : point := (Fin (-0.7), fsqrt (fsquare r2 - fsquare (Fin 0.7))%f64).
Definition p3 : point := (Fin (-0.1), fsqrt (fsquare r1 - fsquare (Fin 0.1))%f64).
Definition p4 : point := (Fin (-0.1), Fin 0).

Definition theta_outer : list float64 :=
  linspace (Fin (PI / 2)) (farccos (Fin (-0.7) / r2)%f64) 100.
Definition arc1_pts : curve :=
  map (fun t => (r2 * fcos t, r2 * fsin t)%f64) theta_outer.
Definition seg2_pts : point * point := (p2, p1).
Definition theta_inner : list float64 :=
  linspace (farccos (Fin (-0.7) / r1)%f64) (farccos (Fin (-0.1) / r1)%f64) 100.
Definition arc3_pts : curve :=
  map (fun t => (r1 * fcos t, r1 * fsin t)%f64) theta_inner.
Definition seg4_pts : point * point := (p3, p4).

Definition objective_inner (center : point) : outcome float64 :=
  let dists := [] in
  let dist_seg := point_segment_distance center (fst seg2_pts) (snd seg2_pts) in
  let dists := dists ++ [fsquare (dist_seg - R_corner)%f64] in
  bind (min_sample_distance arc1_pts center) (fun d_arc =>
  let dists := dists ++ [fsquare (d_arc - R_corner)%f64] in
  let origin_dist := norm center in
  let dists :=
    if fgt origin_dist (r2 - R_corner)%f64
    then dists ++ [(Fin 10 * fsquare (origin_dist - (r2 - R_corner)))%f64]
    else dists in
  Returns (py_sum dists)).

Definition objective_outer (center : point) : outcome float64 :=
  let dists := [] in
  let dist_seg := point_segment_distance center (fst seg2_pts) (snd seg2_pts) in
  let dists := dists ++ [fsquare (dist_seg - R_corner)%f64] in
  bind (min_sample_distance arc3_pts center) (fun d_arc =>
  let dists := dists ++ [fsquare (d_arc - R_corner)%f64] in
  let origin_dist := norm center in
  let dists :=
    if flt origin_dist (r1 + R_corner)%f64
    then dists ++ [(Fin 1000 * fsquare (r1 + R_corner - origin_dist))%f64]
    else dists in
  Returns (py_sum dists)).

End Emblem.

(** ** LineJointSolver: the rounded joint of [generate_revolution_shape] *)

Record line_joint : Type := {
  joint_u : point;
  joint_v : point;
  joint_theta : float64;
  joint_bisector : point;
  joint_d : float64;
  circle_center : point;
  contact_AB : point;
  contact_BC : point
}.

(** The joint between the segments [B A] and [B C], as a function of the three
    points and of the radius; the source has it inline and runs it once, with
    [A] and [B] the two points of [seg4] and [C] the mirror image of [A]
    ([emblem_joint] below).

    Close to a straight line the doubles leave this arithmetic in kind: when
    [u . v] rounds to 1 the code has [theta = 0] and an infinite [d] where the
    exact half-angle is small and positive, and on a straight line that is not
    along an axis the rounded [u . v] or [u + v] is off zero where the exact one
    is zero.  The statements below are therefore made for corners that are
    away from a straight line ([Fillet.open_corner]) or that the doubles
    compute without rounding (segments along an axis, segments of length
    zero). *)
Definition rounded_joint (A B C : point) (R_joint : float64) : line_joint :=
  let u := vdiv (vsub A B) (norm (vsub A B)) in
  let v := vdiv (vsub C B) (norm (vsub C B)) in
  let theta := (farccos (clip (dot u v) (Fin (-1)) (Fin 1)) / Fin 2)%f64 in
  let bisector := vadd u v in
  let bisector := vdiv bisector (norm bisector) in
  let d := (R_joint / fsin theta)%f64 in
  let circle_center := vadd B (vscale d bisector) in
  let normal_to_AB := ((- snd u)%f64, fst u) in
  let normal_to_BC := (snd v, (- fst v)%f64) in
  let contact_AB := vadd circle_center (vscale R_joint (vopp normal_to_AB)) in
  let contact_BC := vadd circle_center (vscale R_joint (vopp normal_to_BC)) in
  {| joint_u := u; joint_v := v; joint_theta := theta; joint_bisector := bisector;
     joint_d := d; circle_center := circle_center;
     contact_AB := contact_AB; contact_BC := contact_BC |}.

(** There is no [raise] on this path either. *)
Definition call_rounded_joint (A B C : point) (R_joint : float64) : outcome line_joint :=
  Returns (rounded_joint A B C R_joint).

(** The joint as the source instantiates it: [A] is the contact point on
    [seg4], [B] the end of [seg4], [C] the mirror image of [A]. *)
Definition emblem_joint (closest_seg_low : point) : line_joint :=
  let seg4 := [closest_seg_low; snd Emblem.seg4_pts] in
  let seg4_r := reflect seg4 (Fin 150) in
  let A := nth 0 seg4 (NaN, NaN) in
  let B := nth 1 seg4 (NaN, NaN) in
  let C := nth 0 seg4_r (NaN, NaN) in
  rounded_joint A B C Emblem.R_joint.

(** ** Reference formulas over the reals, to state the results against *)

(** A point with finite coordinates. *)
Definition Fp (p : R * R) : point := (Fin (fst p), Fin (snd p)).

(** Two doubles within [eps] of each other (both finite). *)
Definition within (eps : R) (x y : float64) : Prop :=
  match x, y with
  | Fin a, Fin b => Rabs (a - b) <= eps
  | _, _ => False
  end.

Module Plane.

(** Complex numbers as pairs of reals, with the textbook quotient. *)
Definition Cadd (a b : R * R) : R * R := (fst a + fst b, snd a + snd b).
Definition Cdiv (a b : R * R) : R * R :=
  let m := fst b * fst b + snd b * snd b in
  ((fst a * fst b + snd a * snd b) / m, (snd a * fst b - fst a * snd b) / m).

(** The k-th of 400 angles evenly spaced from 0 to 2 pi, ends included. *)
Definition theta_k (k : nat) : R := INR k * (2 * PI / 399).

Definition w_of (Rc xc yc theta : R) : R * R :=
  (xc + Rc * cos theta, yc + Rc * sin theta).

(** z = w + R^2 / w, scaled. *)
Definition airfoil_point (Rc xc yc scale theta : R) : R * R :=
  let w := w_of Rc xc yc theta in
  let z := Cadd w (Cdiv (Rc * Rc, 0) w) in
  (scale * fst z, scale * snd z).

Definition dist (p q : R * R) : R :=
  sqrt ((fst p - fst q) * (fst p - fst q) + (snd p - snd q) * (snd p - snd q)).

Definition on_segment (a b q : R * R) : Prop :=
  exists t, 0 <= t <= 1 /\
    q = (fst a + t * (fst b - fst a), snd a + t * (snd b - snd a)).

(** [d] is the least distance from [p] to a point of the segment [a b]. *)
Definition is_segment_distance (p a b : R * R) (d : R) : Prop :=
  (exists q, on_segment a b q /\ dist p q = d) /\
  (forall q, on_segment a b q -> d <= dist p q).

(** [d] is the least distance from [p] to a point of the list. *)
Definition is_sample_distance (p : R * R) (samples : list (R * R)) (d : R) : Prop :=
  (exists q, In q samples /\ dist q p = d) /\
  (forall q, In q samples -> d <= dist q p).

(** Distance from [p] to the line through [b] and [a]. *)
Definition line_distance (p b a : R * R) : R :=
  Rabs ((fst p - fst b) * (snd a - snd b) - (snd p - snd b) * (fst a - fst b))
  / dist a b.

End Plane.

(** What [rotate] and [reflect] do to one point. *)
Definition rotate_point (angle_deg : float64) (center p : point) : point :=
  let a := radians angle_deg in
  let q := vsub p center in
  vadd ((fst q * fcos a + snd q * (- fsin a))%f64,
        (fst q * fsin a + snd q * fcos a)%f64) center.

Definition negate_y (p : point) : point := (fst p, (- snd p)%f64).

Definition reflect_point (angle_deg : float64) (p : point) : point :=
  let t := radians angle_deg in
  let q := ((fcos (- t) * fst p + (- fsin (- t)) * snd p)%f64,
            (fsin (- t) * fst p + fcos (- t) * snd p)%f64) in
  let m := negate_y q in
  ((fcos t * fst m + (- fsin t) * snd m)%f64,
   (fsin t * fst m + fcos t * snd m)%f64).

Module Bounds.

(** [m] is the least (resp. greatest) entry of a list of reals. *)
Definition is_min (l : list R) (m : R) : Prop := In m l /\ forall x, In x l -> m <= x.
Definition is_max (l : list R) (m : R) : Prop := In m l /\ forall x, In x l -> x <= m.

End Bounds.

Module EmblemRef.

Definition sq (x : R) : R := x * x.

(** The samples of an arc of the circle of the given radius about the origin,
    [n] of them, evenly spaced in angle from [a0] to [a1]. *)
Definition arc_samples (radius a0 a1 : R) (n : nat) : list (R * R) :=
  map (fun k =>
         let t := a0 + INR k * ((a1 - a0) / INR (n - 1)) in
         (radius * cos t, radius * sin t))
      (seq 0 n).

Definition P1 : R * R := (-0.7, sqrt (1 * 1 - 0.7 * 0.7)).
Definition P2 : R * R := (-0.7, sqrt (1.2 * 1.2 - 0.7 * 0.7)).

Definition arc1_samples : list (R * R) :=
  arc_samples 1.2 (PI / 2) (acos (-0.7 / 1.2)) 100.
Definition arc3_samples : list (R * R) :=
  arc_samples 1 (acos (-0.7 / 1)) (acos (-0.1 / 1)) 100.

(** The mirror image in the line through the origin at 150 degrees. *)
Definition mirror_150 (p : R * R) : R * R :=
  (1 / 2 * fst p - sqrt 3 / 2 * snd p, - (sqrt 3 / 2) * fst p - 1 / 2 * snd p).

End EmblemRef.

Module Fillet.

Definition cross (p q : R * R) : R := fst p * snd q - snd p * fst q.
Definition minus (p q : R * R) : R * R := (fst p - fst q, snd p - snd q).
Definition length (p : R * R) : R := sqrt (fst p * fst p + snd p * snd p).
Definition normalize (p : R * R) : R * R := (fst p / length p, snd p / length p).
Definition clamp (x lo hi : R) : R := Rmin (Rmax x lo) hi.

(** Half the angle at [B] between the unit vectors [u] and [v]. *)
Definition half_angle (u v : R * R) : R :=
  acos (clamp (fst u * fst v + snd u * snd v) (-1) 1) / 2.

(** centre = B + (radius / sin theta) * bisector. *)
Definition center (A B C : R * R) (radius : R) : R * R :=
  let u := normalize (minus A B) in
  let v := normalize (minus C B) in
  let theta := half_angle u v in
  let bisector := normalize (fst u + fst v, snd u + snd v) in
  (fst B + radius / sin theta * fst bisector,
   snd B + radius / sin theta * snd bisector).



(** The corner at [B] is away from a straight line, in either sense: the sine
    of the angle between [B A] and [B C] is above 1/100 in absolute value (the
    angle is between 0.58 and 179.42 degrees). *)
Definition open_corner (A B C : R * R) : Prop :=
  length (minus A B) * length (minus C B)
  < 100 * Rabs (cross (minus A B) (minus C B)).

End Fillet.

(** ** Further reference formulas *)

Module Rigid.

(** Degrees to radians. *)
Definition rad (deg : R) : R := deg * (PI / 180).

(** The rotation by [deg] degrees about [c]. *)
Definition rotation (deg : R) (c p : R * R) : R * R :=
  ((fst p - fst c) * cos (rad deg) - (snd p - snd c) * sin (rad deg) + fst c,
   (fst p - fst c) * sin (rad deg) + (snd p - snd c) * cos (rad deg) + snd c).

(** The mirror image in the line through the origin at [deg] degrees. *)
Definition reflection (deg : R) (p : R * R) : R * R :=
  (cos (2 * rad deg) * fst p + sin (2 * rad deg) * snd p,
   sin (2 * rad deg) * fst p - cos (2 * rad deg) * snd p).

(** A map of the plane that keeps all distances. *)
Definition isometry (f : R * R -> R * R) : Prop :=
  forall p q, Plane.dist (f p) (f q) = Plane.dist p q.

End Rigid.

(** ** The exported document: [export_to_svg] and the test script *)

(** The path data ["M x0,y0 L x1,y1 L ..."], kept as the list of its commands
    (the decimal rendering of the coordinates is left out); the empty string
    is the empty list. *)
Inductive path_command : Type :=
| MoveTo (p : point)
| LineTo (p : point).

Definition points_to_path (points : curve) : list path_command :=
  match points with
  | [] => []
  | p0 :: rest =>
      fold_left (fun path_data p => path_data ++ [LineTo p]) rest [MoveTo p0]
  end.

Inductive colour : Type := white | blue | red | gray.

(** The [fill] attribute: ['none'] or a colour. *)
Inductive paint : Type :=
| none
| solid (c : colour).

Inductive svg_element : Type :=
| rect (insert : point) (size : float64 * float64) (fill : paint)
| path (d : list path_command) (stroke : colour) (stroke_width : float64)
       (fill : paint) (opacity : option float64)
| text (n_revolutions : nat) (insert : point) (font_size : float64) (fill : paint).

Record drawing : Type := {
  frame : svg_frame;
  elements : list svg_element
}.

(** [export_to_svg]: the drawing as the values the method computes and hands
    to [svgwrite] (frame, then the elements in the order they are added).
    What [svgwrite] does with them, its own checks and the file written by
    [dwg.save()], is outside this model.  In particular, where the bounds are
    not finite the library refuses the size and the viewBox it is handed and
    [svgwrite.Drawing] raises before any element is added: [Returns] here
    says that the method's own computation went through, and it is the
    drawing the library is asked for.  The statements about the drawing are
    made for finite points; [on_export_clicked] takes the library's verdict
    as a parameter. *)
Definition export_to_svg (revolution : list curve)
  (R x_center y_center scale y_offset : float64) (n_revolutions : nat)
  : outcome drawing :=
  let airfoil := airfoil_points R x_center y_center scale y_offset in
  bind (export_all_points revolution n_revolutions airfoil) (fun all_points =>
  bind (export_frame all_points) (fun fr =>
  let dwg := [rect (background_insert fr) (background_size fr) (solid white)] in
  let dwg :=
    fold_left
      (fun dwg path_ =>
         dwg ++ [path (points_to_path path_) blue (Fin 0.01) none (Some (Fin 0.6))])
      revolution dwg in
  bind
    (if (n_revolutions =? 1)%nat then
       Returns (dwg ++ [path (points_to_path airfoil) red (Fin 0.015) none None])
     else if (n_revolutions =? 0)%nat then Raises ZeroDivisionError
     else
       let angle_step := (Fin 360 / Fin (INR n_revolutions))%f64 in
       Returns
         (fold_left
            (fun dwg i =>
               let angle := (Fin (INR i) * angle_step)%f64 in
               let rotated_airfoil := rotate airfoil angle origin in
               dwg ++ [path (points_to_path rotated_airfoil) red (Fin 0.015) none
                         (Some (Fin 0.8))])
            (seq 0 n_revolutions) dwg))
    (fun dwg =>
       Returns
         {| frame := fr;
            elements :=
              dwg ++ [text n_revolutions (label_insert fr) (Fin 0.1) (solid gray)] |}))).

(** [test_export] of [test_svg_export.py], given the emblem's paths; the
    drawing in the same sense. *)
Definition test_export (revolution_paths : list curve) : outcome drawing :=
  let R := Fin 0.85 in
  let x_center := Fin (-0.1) in
  let y_center := Fin 0.23 in
  let y_offset := Fin 0 in
  let n_revolutions := 3%nat in
  let '(x, y) := plot_joukowsky R x_center y_center (Fin 1) in
  let y_adjusted := map (fun yk => (yk + y_offset)%f64) y in
  let airfoil_points := combine x y_adjusted in
  let all_points := concat revolution_paths in
  let angle_step := (Fin 360 / Fin (INR n_revolutions))%f64 in
  let all_points :=
    fold_left
      (fun all_points i =>
         let angle := (Fin (INR i) * angle_step)%f64 in
         all_points ++ rotate airfoil_points angle origin)
      (seq 0 n_revolutions) all_points in
  bind (export_frame all_points) (fun fr =>
  let dwg := [rect (background_insert fr) (background_size fr) (solid white)] in
  let dwg :=
    fold_left
      (fun dwg path_ =>
         dwg ++ [path (points_to_path path_) blue (Fin 0.01) none (Some (Fin 0.6))])
      revolution_paths dwg in
  let dwg :=
    fold_left
      (fun dwg i =>
         let angle := (Fin (INR i) * angle_step)%f64 in
         let rotated_airfoil := rotate airfoil_points angle origin in
         dwg ++ [path (points_to_path rotated_airfoil) red (Fin 0.015) none
                   (Some (Fin 0.8))])
      (seq 0 n_revolutions) dwg in
  Returns
    {| frame := fr;
       elements :=
         dwg ++ [text n_revolutions (label_insert fr) (Fin 0.1) (solid gray)] |}).

Definition is_path (e : svg_element) : Prop :=
  match e with path _ _ _ _ _ => True | _ => False end.

Definition fill_of (e : svg_element) : paint :=
  match e with
  | rect _ _ f => f
  | path _ _ _ f _ => f
  | text _ _ _ f => f
  end.

Module Contact.

(** The two contact points of the joint: the centre moved by the radius along
    [(u2, -u1)] and along [(-v2, v1)]. *)
Definition contact_AB (A B C : R * R) (radius : R) : R * R :=
  let u := Fillet.normalize (Fillet.minus A B) in
  let c := Fillet.center A B C radius in
  (fst c + radius * snd u, snd c + radius * - fst u).

Definition contact_BC (A B C : R * R) (radius : R) : R * R :=
  let v := Fillet.normalize (Fillet.minus C B) in
  let c := Fillet.center A B C radius in
  (fst c + radius * - snd v, snd c + radius * fst v).

End Contact.

(** ** ContourAssembler: contact points and truncation *)

(** [np.argmin] of a one-dimensional array: the index of the first minimum;
    a NaN entry counts as the minimum and ends the search; an empty array
    raises ValueError.  The loop keeps the running minimum [mp] and its index,
    and moves on an entry [x] only when [x >= mp]. *)
Fixpoint argmin_loop (l : list float64) (i : nat) (mp : float64) (min_ind : nat) : nat :=
  match l with
  | [] => min_ind
  | x :: t =>
      if fge x mp then argmin_loop t (S i) mp min_ind
      else
        match x with
        | NaN => i
        | _ => argmin_loop t (S i) x i
        end
  end.

Definition argmin (l : list float64) : outcome nat :=
  match l with
  | [] => Raises ValueError
  | NaN :: _ => Returns 0%nat
  | x :: t => Returns (argmin_loop t 1 x 0)
  end.

(** [pts[np.argmin(np.linalg.norm(pts - center, axis=1))]]: the sample nearest
    to the fitted centre. *)
Definition closest_sample (pts : curve) (center : point) : outcome point :=
  bind (argmin (map (fun q => norm (vsub q center)) pts))
       (fun index => Returns (nth index pts (NaN, NaN))).

(** [pts[:index + 1]] with [index] the place of the contact point in [pts]. *)
Definition truncate_at (pts : curve) (contact : point) : outcome curve :=
  bind (argmin (map (fun q => norm (vsub q contact)) pts))
       (fun index => Returns (firstn (index + 1) pts)).

(** ** The three fillet arcs of [generate_revolution_shape] *)

(** [np.arctan2(y, x)] on reals: the angle of the point [(x, y)], in
    (-pi, pi]; 0 at the origin. *)
Definition atan2 (y x : R) : R :=
  match total_order_T x 0 with
  | inright _ => atan (y / x)
  | inleft (left _) => if Rle_dec 0 y then atan (y / x) + PI else atan (y / x) - PI
  | inleft (right _) =>
      match total_order_T y 0 with
      | inright _ => PI / 2
      | inleft (left _) => - (PI / 2)
      | inleft (right _) => 0
      end
  end.

(** On doubles, with the values C gives at the infinities; NaN gives NaN. *)
Definition farctan2 (y x : float64) : float64 :=
  match y, x with
  | NaN, _ => NaN
  | _, NaN => NaN
  | Fin a, Fin b => Fin (atan2 a b)
  | Fin _, Inf false => Fin 0
  | Fin a, Inf true => if Rlt_dec a 0 then Fin (- PI) else Fin PI
  | Inf s, Fin _ => if s then Fin (- (PI / 2)) else Fin (PI / 2)
  | Inf s, Inf false => if s then Fin (- (PI / 4)) else Fin (PI / 4)
  | Inf s, Inf true => if s then Fin (- (3 * PI / 4)) else Fin (3 * PI / 4)
  end.

(** [circle_center + R * np.array([np.cos(a), np.sin(a)])] for [a] in the
    given angles. *)
Definition arc_points (circle_center : point) (angles : list float64) : curve :=
  map (fun a => vadd circle_center (vscale Emblem.R_corner (fcos a, fsin a))) angles.

(** Rounded corner 1 (arc1 to seg2). *)
Definition arc_connection_inner (circle_center closest_arc_pt closest_seg_pt : point)
  : curve :=
  let vec_start := vsub closest_arc_pt circle_center in
  let vec_end := vsub closest_seg_pt circle_center in
  let angle_start := farctan2 (snd vec_start) (fst vec_start) in
  let angle_end := farctan2 (snd vec_end) (fst vec_end) in
  let angle_end :=
    if flt angle_end angle_start then (angle_end + Fin (2 * PI))%f64 else angle_end in
  let arc_connection_theta := linspace angle_start angle_end 100 in
  arc_points circle_center arc_connection_theta.

(** Rounded corner 2 (seg2 to arc3): sampled from the end back to the start,
    then reversed. *)
Definition arc_connection_outer (circle_center closest_seg_pt closest_arc_pt : point)
  : curve :=
  let vec_start := vsub closest_seg_pt circle_center in
  let vec_end := vsub closest_arc_pt circle_center in
  let angle_start := farctan2 (snd vec_start) (fst vec_start) in
  let angle_end := farctan2 (snd vec_end) (fst vec_end) in
  let angle_start :=
    if flt angle_end angle_start then (angle_start - Fin (2 * PI))%f64 else angle_start in
  let arc_connection_theta := linspace angle_end angle_start 100 in
  rev (arc_points circle_center arc_connection_theta).

(** Rounded corner 3 (arc3 to seg4). *)
Definition arc_connection_low (circle_center closest_arc_pt closest_seg_pt : point)
  : curve :=
  let vec_start := vsub closest_arc_pt circle_center in
  let vec_end := vsub closest_seg_pt circle_center in
  let angle_start := farctan2 (snd vec_start) (fst vec_start) in
  let angle_end := farctan2 (snd vec_end) (fst vec_end) in
  let angle_end :=
    if flt angle_start angle_end then (angle_end - Fin (2 * PI))%f64 else angle_end in
  let arc_connection_theta := linspace angle_start angle_end 100 in
  arc_points circle_center arc_connection_theta.

Module Arc.

(** The point of the circle of radius 0.05 about [c] at the angle [a]. *)
Definition at_angle (c : R * R) (a : R) : R * R :=
  (fst c + 0.05 * cos a, snd c + 0.05 * sin a).

(** The point of that circle on the ray from [c] through [p]. *)
Definition toward (c p : R * R) : R * R :=
  (fst c + 0.05 * ((fst p - fst c) / Plane.dist p c),
   snd c + 0.05 * ((snd p - snd c) / Plane.dist p c)).

(** The 100 points from the angle [a] on, turning by [sweep] in all. *)
Definition swept (c : R * R) (a sweep : R) : list (R * R) :=
  map (fun k => at_angle c (a + INR k * (sweep / 99))) (seq 0 100).

End Arc.

(** A description shared by the three arcs: 100 points of the circle of
    radius 0.05 about [c], from the direction of [p] to that of [q], turning
    by [sweep] in all. *)
Definition arc_from_to (arc : curve) (c p q : R * R) (sweep : R) : Prop :=
  exists a,
    arc = map Fp (Arc.swept c a sweep) /\
    Arc.at_angle c a = Arc.at_angle c (atan2 (snd p - snd c) (fst p - fst c)) /\
    Arc.at_angle c (a + sweep) = Arc.at_angle c (atan2 (snd q - snd c) (fst q - fst c)).


(** ** The application: the two canvases, the sliders, the export button *)

(** The attributes of the canvases that the handlers read and write; what is
    drawn is a function of them ([plot_airfoil], [plot_combined]). *)
Record JoukowskyCanvas : Type := {
  jc_R : float64;
  jc_x_center : float64;
  jc_y_center : float64;
  jc_scale : float64
}.

Record RevolutionCanvas : Type := {
  rc_revolution_paths : list curve;
  rc_R : float64;
  rc_x_center : float64;
  rc_y_center : float64;
  rc_scale : float64;
  rc_y_offset : float64;
  rc_n_revolutions : nat
}.

Definition JoukowskyCanvas_init : JoukowskyCanvas :=
  {| jc_R := Fin 0.85; jc_x_center := Fin (-0.1); jc_y_center := Fin 0.23;
     jc_scale := Fin 1 |}.

(** [revolution_paths] is what [generate_revolution_shape()] returned. *)
Definition RevolutionCanvas_init (revolution_paths : list curve) : RevolutionCanvas :=
  {| rc_revolution_paths := revolution_paths;
     rc_R := Fin 0.85; rc_x_center := Fin (-0.1); rc_y_center := Fin 0.23;
     rc_scale := Fin 1; rc_y_offset := Fin 0; rc_n_revolutions := 1 |}.

(** An argument left at [None] keeps the attribute. *)
Definition or_keep (new : option float64) (old : float64) : float64 :=
  match new with Some v => v | None => old end.

Definition update_parameters (self : JoukowskyCanvas)
  (R x_center y_center scale : option float64) : JoukowskyCanvas :=
  {| jc_R := or_keep R (jc_R self);
     jc_x_center := or_keep x_center (jc_x_center self);
     jc_y_center := or_keep y_center (jc_y_center self);
     jc_scale := or_keep scale (jc_scale self) |}.

Definition update_joukowsky_parameters (self : RevolutionCanvas)
  (R x_center y_center scale : option float64) : RevolutionCanvas :=
  {| rc_revolution_paths := rc_revolution_paths self;
     rc_R := or_keep R (rc_R self);
     rc_x_center := or_keep x_center (rc_x_center self);
     rc_y_center := or_keep y_center (rc_y_center self);
     rc_scale := or_keep scale (rc_scale self);
     rc_y_offset := rc_y_offset self;
     rc_n_revolutions := rc_n_revolutions self |}.

Definition update_y_offset (self : RevolutionCanvas) (y_offset : float64)
  : RevolutionCanvas :=
  {| rc_revolution_paths := rc_revolution_paths self;
     rc_R := rc_R self; rc_x_center := rc_x_center self;
     rc_y_center := rc_y_center self; rc_scale := rc_scale self;
     rc_y_offset := y_offset;
     rc_n_revolutions := rc_n_revolutions self |}.

Definition update_n_revolutions (self : RevolutionCanvas) (n_revolutions : nat)
  : RevolutionCanvas :=
  {| rc_revolution_paths := rc_revolution_paths self;
     rc_R := rc_R self; rc_x_center := rc_x_center self;
     rc_y_center := rc_y_center self; rc_scale := rc_scale self;
     rc_y_offset := rc_y_offset self;
     rc_n_revolutions := n_revolutions |}.

(** The curve [plot_airfoil] draws. *)
Definition plot_airfoil (self : JoukowskyCanvas) : list float64 * list float64 :=
  plot_joukowsky (jc_R self) (jc_x_center self) (jc_y_center self) (jc_scale self).

(** The curves [plot_combined] draws: the emblem, then the overlay. *)
Definition plot_combined (self : RevolutionCanvas) : outcome (list curve) :=
  let airfoil :=
    airfoil_points (rc_R self) (rc_x_center self) (rc_y_center self) (rc_scale self)
      (rc_y_offset self) in
  bind (overlay_curves (rc_n_revolutions self) airfoil)
       (fun overlay => Returns (rc_revolution_paths self ++ overlay)).

Record SpinPAKApp : Type := {
  joukowsky_canvas : JoukowskyCanvas;
  revolution_canvas : RevolutionCanvas
}.

Definition SpinPAKApp_init (revolution_paths : list curve) : SpinPAKApp :=
  {| joukowsky_canvas := JoukowskyCanvas_init;
     revolution_canvas := RevolutionCanvas_init revolution_paths |}.

(** A slider position divided by [100.0]. *)
Definition hundredth (value : Z) : float64 := (Fin (IZR value) / Fin 100)%f64.

Definition on_r_changed (self : SpinPAKApp) (value : Z) : SpinPAKApp :=
  let r_value := hundredth value in
  {| joukowsky_canvas :=
       update_parameters (joukowsky_canvas self) (Some r_value) None None None;
     revolution_canvas :=
       update_joukowsky_parameters (revolution_canvas self) (Some r_value) None None None |}.

Definition on_x_changed (self : SpinPAKApp) (value : Z) : SpinPAKApp :=
  let x_value := hundredth value in
  {| joukowsky_canvas :=
       update_parameters (joukowsky_canvas self) None (Some x_value) None None;
     revolution_canvas :=
       update_joukowsky_parameters (revolution_canvas self) None (Some x_value) None None |}.

Definition on_y_changed (self : SpinPAKApp) (value : Z) : SpinPAKApp :=
  let y_value := hundredth value in
  {| joukowsky_canvas :=
       update_parameters (joukowsky_canvas self) None None (Some y_value) None;
     revolution_canvas :=
       update_joukowsky_parameters (revolution_canvas self) None None (Some y_value) None |}.

Definition on_scale_changed (self : SpinPAKApp) (value : Z) : SpinPAKApp :=
  let scale_value := hundredth value in
  {| joukowsky_canvas :=
       update_parameters (joukowsky_canvas self) None None None (Some scale_value);
     revolution_canvas :=
       update_joukowsky_parameters (revolution_canvas self) None None None
         (Some scale_value) |}.

Definition on_offset_changed (self : SpinPAKApp) (value : Z) : SpinPAKApp :=
  let offset_value := hundredth value in
  {| joukowsky_canvas := joukowsky_canvas self;
     revolution_canvas := update_y_offset (revolution_canvas self) offset_value |}.

(** The revolutions slider never goes below its minimum 1, so its position is
    taken as a natural number. *)
Definition on_revolution_changed (self : SpinPAKApp) (value : nat) : SpinPAKApp :=
  {| joukowsky_canvas := joukowsky_canvas self;
     revolution_canvas := update_n_revolutions (revolution_canvas self) value |}.

(** The [valueChanged] signals, each with the slider range set in
    [SpinPAKApp.__init__]. *)
Inductive slider_event : Type :=
| r_changed (value : Z)
| x_changed (value : Z)
| y_changed (value : Z)
| scale_changed (value : Z)
| offset_changed (value : Z)
| revolution_changed (value : nat).

Definition handle (self : SpinPAKApp) (ev : slider_event) : SpinPAKApp :=
  match ev with
  | r_changed v => on_r_changed self v
  | x_changed v => on_x_changed self v
  | y_changed v => on_y_changed self v
  | scale_changed v => on_scale_changed self v
  | offset_changed v => on_offset_changed self v
  | revolution_changed v => on_revolution_changed self v
  end.

Definition in_slider_range (ev : slider_event) : Prop :=
  match ev with
  | r_changed v => (50 <= v <= 120)%Z
  | x_changed v => (-50 <= v <= 50)%Z
  | y_changed v => (0 <= v <= 50)%Z
  | scale_changed v => (10 <= v <= 300)%Z
  | offset_changed v => (-100 <= v <= 100)%Z
  | revolution_changed v => (1 <= v <= 12)%nat
  end.

Definition run (revolution_paths : list curve) (events : list slider_event) : SpinPAKApp :=
  fold_left handle events (SpinPAKApp_init revolution_paths).

(** A double that is a real number between two bounds. *)
Definition between (lo hi : R) (x : float64) : Prop :=
  match x with Fin r => lo <= r <= hi | _ => False end.

(** *** The export button *)

(** [str.lower()] on one character, for the code points up to 255: the
    capital letters are [A]-[Z] and, beyond ASCII, U+00C0-U+00DE without the
    multiplication sign U+00D7; each has its small letter 32 places on. *)
Definition upper_to_lower (c : Ascii.ascii) : Ascii.ascii :=
  let n := Ascii.nat_of_ascii c in
  if (((65 <=? n) && (n <=? 90))
      || ((192 <=? n) && (n <=? 222) && negb (n =? 215)))%nat
  then Ascii.ascii_of_nat (n + 32) else c.

(** [str.lower()] and [str.endswith(suffix)], on file names of such
    characters. *)
Definition lower (s : list Ascii.ascii) : list Ascii.ascii := map upper_to_lower s.

Definition endswith (s suffix : list Ascii.ascii) : bool :=
  (length suffix <=? length s)%nat
  && if list_eq_dec Ascii.ascii_dec (skipn (length s - length suffix) s) suffix
     then true else false.

(** The characters of ['.svg']. *)
Definition dot_svg : list Ascii.ascii := map Ascii.ascii_of_nat [46; 115; 118; 103]%nat.

(** "Ensure .svg extension". *)
Definition ensure_svg_extension (filename : list Ascii.ascii) : list Ascii.ascii :=
  if negb (endswith (lower filename) dot_svg) then filename ++ dot_svg else filename.

(** What the [try] block of [on_export_clicked] can catch: an exception of the
    application's own computation, or one raised inside [svgwrite] (its checks
    of the values it is handed, writing the file). *)
Inductive failure : Type :=
| own (e : exn)
| from_svgwrite.

Inductive message_box : Type :=
| no_message
| information (filename : list Ascii.ascii)
| critical (f : failure).

(** [on_export_clicked], given the name the file dialog returned (empty when
    it was cancelled). [svgwrite] stands for the library and the file system:
    whether building and saving the drawing under that name goes through.
    The application's own exceptions all arise before the first call into the
    library. *)
Definition on_export_clicked (svgwrite : list Ascii.ascii -> drawing -> bool)
  (self : SpinPAKApp) (filename : list Ascii.ascii) : message_box :=
  match filename with
  | [] => no_message
  | _ =>
      let filename := ensure_svg_extension filename in
      let canvas := revolution_canvas self in
      match export_to_svg (rc_revolution_paths canvas) (rc_R canvas) (rc_x_center canvas)
              (rc_y_center canvas) (rc_scale canvas) (rc_y_offset canvas)
              (rc_n_revolutions canvas) with
      | Returns dwg =>
          if svgwrite filename dwg then information filename
          else critical from_svgwrite
      | Raises e => critical (own e)
      end
  end.

Definition parameters_agree (revolution_paths : list curve) (app : SpinPAKApp) : Prop :=
  jc_R (joukowsky_canvas app) = rc_R (revolution_canvas app) /\
  jc_x_center (joukowsky_canvas app) = rc_x_center (revolution_canvas app) /\
  jc_y_center (joukowsky_canvas app) = rc_y_center (revolution_canvas app) /\
  jc_scale (joukowsky_canvas app) = rc_scale (revolution_canvas app) /\
  rc_revolution_paths (revolution_canvas app) = revolution_paths.

Definition within_slider_ranges (app : SpinPAKApp) : Prop :=
  let canvas := revolution_canvas app in
  between 0.5 1.2 (rc_R canvas) /\
  between (-0.5) 0.5 (rc_x_center canvas) /\
  between 0 0.5 (rc_y_center canvas) /\
  between 0.1 3 (rc_scale canvas) /\
  between (-1) 1 (rc_y_offset canvas) /\
  (1 <= rc_n_revolutions canvas <= 12)%nat.


(** * Properties *)

(** ** Arithmetic on finite doubles *)

Lemma sign_of_pos r : 0 < r -> sign_of r = Pos.
Proof.
  intros H. unfold sign_of.
  destruct (total_order_T r 0) as [[?|?]|?]; try lra; reflexivity.
Qed.

Lemma sign_of_neg r : r < 0 -> sign_of r = Neg.
Proof.
  intros H. unfold sign_of.
  destruct (total_order_T r 0) as [[?|?]|?]; try lra; reflexivity.
Qed.

Lemma sign_of_zero : sign_of 0 = Zero.
Proof.
  unfold sign_of. destruct (total_order_T 0 0) as [[?|?]|?]; try lra; reflexivity.
Qed.

Lemma fdiv_Fin a b : b <> 0 -> (Fin a / Fin b)%f64 = Fin (a / b).
Proof.
  intros H. unfold fdiv, sign_of.
  destruct (total_order_T b 0) as [[?|?]|?]; try lra; reflexivity.
Qed.

Lemma fdiv_pos_zero a : 0 < a -> (Fin a / Fin 0)%f64 = Inf false.
Proof. intros H. unfold fdiv. now rewrite sign_of_zero, (sign_of_pos a H). Qed.

Lemma fdiv_zero_zero : (Fin 0 / Fin 0)%f64 = NaN.
Proof. unfold fdiv. now rewrite !sign_of_zero. Qed.

Lemma feq_Fin_true a b : a = b -> feq (Fin a) (Fin b) = true.
Proof. intros ->. unfold feq. destruct (Req_dec_T b b); congruence. Qed.

Lemma feq_Fin_false a b : a <> b -> feq (Fin a) (Fin b) = false.
Proof. intros H. unfold feq. destruct (Req_dec_T a b); congruence. Qed.

Lemma flt_Fin_true a b : a < b -> flt (Fin a) (Fin b) = true.
Proof. intros H. unfold flt. destruct (Rlt_dec a b); [reflexivity | contradiction]. Qed.

Lemma flt_Fin_false a b : b <= a -> flt (Fin a) (Fin b) = false.
Proof. intros H. unfold flt. destruct (Rlt_dec a b); [lra | reflexivity]. Qed.

Lemma fsqrt_Fin a : 0 <= a -> fsqrt (Fin a) = Fin (sqrt a).
Proof. intros H. unfold fsqrt. destruct (Rlt_dec a 0); [lra | reflexivity]. Qed.

Lemma farccos_Fin a : -1 <= a <= 1 -> farccos (Fin a) = Fin (acos a).
Proof.
  intros H. unfold farccos.
  destruct (Rlt_dec a (-1)); [lra|]. destruct (Rlt_dec 1 a); [lra | reflexivity].
Qed.

(** ** numpy's complex quotient against the textbook one *)

Lemma cdiv_real_by_nonzero (a wr wi : R) :
  (wr, wi) <> (0, 0) ->
  cdiv (of_real (Fin a)) (Fin wr, Fin wi) = Fp (Plane.Cdiv (a, 0) (wr, wi)).
Proof.
  intros Hw.
  assert (Hm : wr * wr + wi * wi <> 0).
  { intros E. apply Hw. f_equal; nra. }
  unfold cdiv, of_real, re, im, fge, Fp, Plane.Cdiv; cbn [fst snd fabs].
  destruct (flt (Fin (Rabs wi)) (Fin (Rabs wr)) || feq (Fin (Rabs wr)) (Fin (Rabs wi))) eqn:Hge.
  - assert (Hr : wr <> 0).
    { intros ->. rewrite Rabs_R0 in Hge.
      apply orb_true_iff in Hge. destruct Hge as [Hge|Hge].
      - unfold flt in Hge. destruct (Rlt_dec (Rabs wi) 0); [|discriminate].
        pose proof (Rabs_pos wi); lra.
      - unfold feq in Hge. destruct (Req_dec_T 0 (Rabs wi)) as [E|]; [|discriminate].
        apply Hm. symmetry in E.
        destruct (Req_dec wi 0) as [Z|Z]; [subst; lra|].
        apply Rabs_no_R0 in Z; contradiction. }
    rewrite (feq_Fin_false (Rabs wr) 0) by (now apply Rabs_no_R0).
    cbn [andb].
    rewrite (fdiv_Fin wi wr Hr). cbn [fmul fadd fsub fopp].
    assert (Hs : wr + wi * (wi / wr) <> 0).
    { intros E. apply Hm. apply (Rmult_eq_compat_l wr) in E. field_simplify in E; nra. }
    rewrite (fdiv_Fin 1 _ Hs). cbn [fmul]. f_equal; f_equal; field; auto.
  - apply orb_false_iff in Hge. destruct Hge as [Hlt Hne].
    assert (Hi : wi <> 0).
    { intros ->. rewrite Rabs_R0 in Hlt. unfold flt in Hlt.
      destruct (Rlt_dec 0 (Rabs wr)); [discriminate|].
      unfold feq in Hne. rewrite Rabs_R0 in Hne.
      destruct (Req_dec_T (Rabs wr) 0); [discriminate|].
      pose proof (Rabs_pos wr). lra. }
    rewrite (fdiv_Fin wr wi Hi). cbn [fmul fadd fsub fopp].
    assert (Hs : wi + wr * (wr / wi) <> 0).
    { intros E. apply Hm. apply (Rmult_eq_compat_l wi) in E. field_simplify in E; nra. }
    rewrite (fdiv_Fin 1 _ Hs). cbn [fmul]. f_equal; f_equal; field; auto.
Qed.

Lemma cdiv_real_by_zero (a : R) :
  0 < a -> cdiv (of_real (Fin a)) (Fin 0, Fin 0) = (Inf false, NaN).
Proof.
  intros Ha. unfold cdiv, of_real, re, im, fge; cbn [fst snd fabs].
  rewrite Rabs_R0.
  rewrite (feq_Fin_true 0 0 eq_refl), orb_true_r. cbn [andb].
  now rewrite (fdiv_pos_zero a Ha), fdiv_zero_zero.
Qed.

(** ** Arrays *)

Lemma nth_map_lt {A B : Type} (f : A -> B) (l : list A) (k : nat) (d : B) (d' : A) :
  (k < length l)%nat -> nth k (map f l) d = f (nth k l d').
Proof.
  intros H. rewrite (nth_indep (map f l) d (f d')) by (now rewrite length_map).
  apply map_nth.
Qed.

Lemma linspace_length start stop num : length (linspace start stop num) = num.
Proof. unfold linspace. now rewrite length_map, length_seq. Qed.

Lemma linspace_nth (a b : R) (num k : nat) :
  (1 < num)%nat -> (k < num)%nat ->
  nth k (linspace (Fin a) (Fin b) num) NaN
  = Fin (a + INR k * ((b - a) / INR (num - 1))).
Proof.
  intros Hnum Hk. unfold linspace.
  rewrite (nth_map_lt _ _ k NaN 0%nat) by (now rewrite length_seq).
  rewrite seq_nth by assumption. cbn [Nat.add fsub fopp fadd].
  rewrite fdiv_Fin.
  - reflexivity.
  - apply not_0_INR. lia.
Qed.

(** ** AirfoilGenerator *)

Lemma theta_samples_length : length theta_samples = 400%nat.
Proof. apply linspace_length. Qed.

Lemma theta_samples_nth k :
  (k < 400)%nat -> nth k theta_samples NaN = Fin (Plane.theta_k k).
Proof.
  intros Hk. unfold theta_samples, n_points.
  rewrite linspace_nth by lia. unfold Plane.theta_k.
  replace (INR (400 - 1)) with 399 by (rewrite INR_IZR_INZ; reflexivity).
  f_equal. lra.
Qed.

Lemma plot_joukowsky_length R xc yc scale :
  length (fst (plot_joukowsky R xc yc scale)) = 400%nat /\
  length (snd (plot_joukowsky R xc yc scale)) = 400%nat.
Proof.
  unfold plot_joukowsky; cbn [fst snd].
  now rewrite !length_map, theta_samples_length.
Qed.

Lemma plot_joukowsky_nth R xc yc scale k :
  (k < 400)%nat ->
  let z := joukowsky_z R (joukowsky_w R xc yc (Fin (Plane.theta_k k))) in
  nth k (fst (plot_joukowsky R xc yc scale)) NaN = (re z * scale)%f64 /\
  nth k (snd (plot_joukowsky R xc yc scale)) NaN = (im z * scale)%f64.
Proof.
  intros Hk z. unfold plot_joukowsky; cbn [fst snd].
  rewrite 2!(nth_map_lt _ _ k NaN (NaN, NaN))
    by (now rewrite !length_map, theta_samples_length).
  rewrite (nth_map_lt _ _ k (NaN, NaN) (NaN, NaN))
    by (now rewrite length_map, theta_samples_length).
  rewrite (nth_map_lt _ _ k (NaN, NaN) NaN) by (now rewrite theta_samples_length).
  rewrite theta_samples_nth by assumption. now split.
Qed.

Lemma joukowsky_w_Fin (Rc xc yc theta : R) :
  joukowsky_w (Fin Rc) (Fin xc) (Fin yc) (Fin theta) = Fp (Plane.w_of Rc xc yc theta).
Proof.
  unfold joukowsky_w, cadd, cmul, of_real, j, re, im, Fp, Plane.w_of.
  cbn [fst snd fcos fsin fmul fadd fsub fopp]. f_equal; f_equal; ring.
Qed.

Lemma joukowsky_z_Fin (Rc : R) (w : R * R) :
  w <> (0, 0) ->
  joukowsky_z (Fin Rc) (Fp w) = Fp (Plane.Cadd w (Plane.Cdiv (Rc * Rc, 0) w)).
Proof.
  intros Hw. destruct w as [wr wi]. unfold joukowsky_z, Fp at 1 2. cbn [fst snd fmul].
  change (Fin (Rc * Rc), Fin 0) with (of_real (Fin (Rc * Rc))).
  rewrite (cdiv_real_by_nonzero _ _ _ Hw). reflexivity.
Qed.

Lemma joukowsky_z_zero (Rc : R) :
  let z := joukowsky_z (Fin Rc) (Fin 0, Fin 0) in
  ~ is_finite (re z) /\ im z = NaN.
Proof.
  unfold joukowsky_z, cadd, cdiv, of_real, re, im, fge; cbn [fst snd fabs fmul].
  rewrite Rabs_R0, (feq_Fin_true 0 0 eq_refl), orb_true_r. cbn [andb].
  rewrite fdiv_zero_zero. split; [|reflexivity].
  unfold fdiv. rewrite sign_of_zero. destruct (sign_of (Rc * Rc)); cbn; tauto.
Qed.

Lemma fmul_not_finite x y : ~ is_finite x -> ~ is_finite (x * y)%f64.
Proof.
  destruct x as [r|b|]; cbn; [tauto| |tauto].
  intros _. destruct y as [s|c|]; cbn; try tauto.
  destruct (sign_of s); cbn; tauto.
Qed.

Lemma theta_k_0 : Plane.theta_k 0 = 0.
Proof. unfold Plane.theta_k. cbn [INR]. ring. Qed.

Lemma theta_k_last : Plane.theta_k 399 = 2 * PI.
Proof.
  unfold Plane.theta_k.
  replace (INR 399) with 399 by (rewrite INR_IZR_INZ; reflexivity). field.
Qed.

Lemma theta_k_step k : Plane.theta_k (S k) - Plane.theta_k k = 2 * PI / 399.
Proof. unfold Plane.theta_k. rewrite S_INR. field. Qed.

(** The default circle (R = 0.85, centre (-0.1, 0.23)) stays off the origin:
    the centre is nearer to the origin than the radius. *)
Lemma default_circle_off_origin theta :
  Plane.w_of 0.85 (-0.1) 0.23 theta <> (0, 0).
Proof.
  unfold Plane.w_of. intros E. injection E as E1 E2.
  pose proof (sin2_cos2 theta) as H. unfold Rsqr in H.
  assert (C : cos theta = 0.1 / 0.85) by lra.
  assert (S : sin theta = - 0.23 / 0.85) by lra.
  rewrite C, S in H. lra.
Qed.

Lemma plot_joukowsky_nth_valid (Rc xc yc scale : R) (k : nat) :
  (k < 400)%nat ->
  Plane.w_of Rc xc yc (Plane.theta_k k) <> (0, 0) ->
  (nth k (fst (plot_joukowsky (Fin Rc) (Fin xc) (Fin yc) (Fin scale))) NaN,
   nth k (snd (plot_joukowsky (Fin Rc) (Fin xc) (Fin yc) (Fin scale))) NaN)
  = Fp (Plane.airfoil_point Rc xc yc scale (Plane.theta_k k)).
Proof.
  intros Hk Hw.
  destruct (plot_joukowsky_nth (Fin Rc) (Fin xc) (Fin yc) (Fin scale) k Hk) as [Hx Hy].
  rewrite Hx, Hy, joukowsky_w_Fin, (joukowsky_z_Fin _ _ Hw).
  unfold Plane.airfoil_point, Fp, re, im. cbn [fst snd fmul].
  f_equal; f_equal; ring.
Qed.

Lemma float64_overflow_lower : 1 <= float64_overflow.
Proof.
  unfold float64_overflow.
  assert (H53 : 1 <= 2 ^ 53) by (apply pow_R1_Rle; lra).
  assert (H1023 : 1 <= 2 ^ 1023) by (apply pow_R1_Rle; lra).
  assert (Hinv : / 2 ^ 53 <= 1).
  { rewrite <- Rinv_1. apply Rinv_le_contravar; lra. }
  assert (H : 1 * 1 <= (2 - / 2 ^ 53) * 2 ^ 1023)
    by (apply Rmult_le_compat; lra).
  lra.
Qed.

(** When the square does not overflow, a call returns the two arrays. *)
Lemma call_plot_joukowsky_returns (Rc : R) (xc yc scale : float64) :
  Rc * Rc < float64_overflow ->
  call_plot_joukowsky (Fin Rc) xc yc scale
  = Returns (plot_joukowsky (Fin Rc) xc yc scale).
Proof.
  intros H. unfold call_plot_joukowsky, float_square. cbv zeta.
  destruct (Rlt_dec (Rc * Rc) float64_overflow) as [_|N]; [reflexivity | contradiction].
Qed.

Lemma call_plot_joukowsky_overflow (Rc : R) (xc yc scale : float64) :
  float64_overflow <= Rc * Rc ->
  call_plot_joukowsky (Fin Rc) xc yc scale = Raises OverflowError.
Proof.
  intros H. unfold call_plot_joukowsky, float_square. cbv zeta.
  destruct (Rlt_dec (Rc * Rc) float64_overflow) as [L|_]; [lra | reflexivity].
Qed.

Lemma half_circle_through_origin : Plane.w_of 0.5 (-0.5) 0 (Plane.theta_k 0) = (0, 0).
Proof. rewrite theta_k_0. unfold Plane.w_of. rewrite cos_0, sin_0. f_equal; lra. Qed.

Lemma first_sample_through_origin (Rc : R) :
  Plane.w_of Rc (- Rc) 0 (Plane.theta_k 0) = (0, 0).
Proof. rewrite theta_k_0. unfold Plane.w_of. rewrite cos_0, sin_0. f_equal; ring. Qed.

(** The first sample of a circle through the origin at angle 0. *)
Lemma first_sample_not_finite (Rc xc yc : R) (scale : float64) :
  Plane.w_of Rc xc yc (Plane.theta_k 0) = (0, 0) ->
  ~ is_finite (nth 0 (fst (plot_joukowsky (Fin Rc) (Fin xc) (Fin yc) scale)) NaN) /\
  nth 0 (snd (plot_joukowsky (Fin Rc) (Fin xc) (Fin yc) scale)) NaN = NaN.
Proof.
  intros Hw.
  destruct (plot_joukowsky_nth (Fin Rc) (Fin xc) (Fin yc) scale 0) as [Hx Hy]; [lia|].
  rewrite Hx, Hy, joukowsky_w_Fin, Hw.
  destruct (joukowsky_z_zero Rc) as [Hre Him]. split.
  - now apply fmul_not_finite.
  - unfold Fp; cbn [fst snd]. now rewrite Him.
Qed.

(** C1 (amended): [plot_joukowsky] has no DomainError.  With
    [x_center = -R] and [y_center = 0] the generating circle passes through
    the origin at the first sampled angle, [theta = 0]; for every such tuple
    whose [R**2] is a double, and every scale, the call raises nothing and
    returns its two arrays of 400 entries, and the first sample is not a
    finite point: its x coordinate is not finite and its y coordinate is
    NaN. *)
Theorem plot_joukowsky_first_sample_not_finite (Rc : R) (scale : float64) :
  Rc * Rc < float64_overflow ->
  Plane.w_of Rc (- Rc) 0 (Plane.theta_k 0) = (0, 0) /\
  exists x y,
    call_plot_joukowsky (Fin Rc) (Fin (- Rc)) (Fin 0) scale = Returns (x, y) /\
    length x = 400%nat /\ length y = 400%nat /\
    ~ is_finite (nth 0 x NaN) /\ nth 0 y NaN = NaN.
Proof.
  intros Hsq. split; [apply first_sample_through_origin|].
  exists (fst (plot_joukowsky (Fin Rc) (Fin (- Rc)) (Fin 0) scale)),
         (snd (plot_joukowsky (Fin Rc) (Fin (- Rc)) (Fin 0) scale)).
  split.
  - rewrite (call_plot_joukowsky_returns _ _ _ _ Hsq). now rewrite <- surjective_pairing.
  - destruct (plot_joukowsky_length (Fin Rc) (Fin (- Rc)) (Fin 0) scale) as [Lx Ly].
    split; [exact Lx|]. split; [exact Ly|].
    apply first_sample_not_finite, first_sample_through_origin.
Qed.

Lemma half_squared_is_a_double : 0.5 * 0.5 < float64_overflow.
Proof. pose proof float64_overflow_lower. lra. Qed.

Lemma plot_joukowsky_first_sample_not_finite_witness :
  0.5 * 0.5 < float64_overflow /\
  Plane.w_of 0.5 (- (0.5)) 0 (Plane.theta_k 0) = (0, 0) /\
  exists x y,
    call_plot_joukowsky (Fin 0.5) (Fin (- (0.5))) (Fin 0) (Fin 1) = Returns (x, y) /\
    length x = 400%nat /\ length y = 400%nat /\
    ~ is_finite (nth 0 x NaN) /\ nth 0 y NaN = NaN.
Proof.
  split; [exact half_squared_is_a_double|].
  exact (plot_joukowsky_first_sample_not_finite 0.5 (Fin 1) half_squared_is_a_double).
Defined.

(** C1 as stated: with R = 0.5 and centre (-0.5, 0), which the sliders reach,
    the circle passes through the origin at the first sample, yet the call
    raises no DomainError: it returns, and the first y coordinate returned is
    NaN. *)
Lemma plot_joukowsky_raises_nothing :
  Plane.w_of 0.5 (-0.5) 0 (Plane.theta_k 0) = (0, 0) /\
  call_plot_joukowsky (Fin 0.5) (Fin (-0.5)) (Fin 0) (Fin 1) <> Raises DomainError /\
  exists x y,
    call_plot_joukowsky (Fin 0.5) (Fin (-0.5)) (Fin 0) (Fin 1) = Returns (x, y) /\
    nth 0 y NaN = NaN.
Proof.
  split; [exact half_circle_through_origin|].
  rewrite (call_plot_joukowsky_returns _ _ _ _ half_squared_is_a_double).
  split; [discriminate|].
  exists (fst (plot_joukowsky (Fin 0.5) (Fin (-0.5)) (Fin 0) (Fin 1))),
         (snd (plot_joukowsky (Fin 0.5) (Fin (-0.5)) (Fin 0) (Fin 1))).
  split; [now rewrite <- surjective_pairing|].
  exact (proj2 (first_sample_not_finite 0.5 (-0.5) 0 (Fin 1) half_circle_through_origin)).
Qed.

(** C2: for every input whose circle misses the origin at the sampled angles,
    [plot_joukowsky] returns 400 points, the k-th being
    [(scale * Re z, scale * Im z)] with [z = w + R^2 / w] and
    [w = (x_center + R cos theta_k) + i (y_center + R sin theta_k)]; the 400
    angles are evenly spaced from 0 to 2 pi, both ends included; and for
    R = 0.85, centre (-0.1, 0.23), scale 1 the 400 points are finite and the
    first and the last agree within 1e-9. *)
Theorem plot_joukowsky_samples :
  (forall (Rc xc yc scale : R),
     (forall k, (k < 400)%nat -> Plane.w_of Rc xc yc (Plane.theta_k k) <> (0, 0)) ->
     let xy := plot_joukowsky (Fin Rc) (Fin xc) (Fin yc) (Fin scale) in
     length (fst xy) = 400%nat /\ length (snd xy) = 400%nat /\
     forall k, (k < 400)%nat ->
       (nth k (fst xy) NaN, nth k (snd xy) NaN)
       = Fp (Plane.airfoil_point Rc xc yc scale (Plane.theta_k k)))
  /\ (length theta_samples = 400%nat /\
      (forall k, (k < 400)%nat -> nth k theta_samples NaN = Fin (Plane.theta_k k)) /\
      Plane.theta_k 0 = 0 /\ Plane.theta_k 399 = 2 * PI /\
      forall k, Plane.theta_k (S k) - Plane.theta_k k = 2 * PI / 399)
  /\ (let xy := plot_joukowsky (Fin 0.85) (Fin (-0.1)) (Fin 0.23) (Fin 1) in
      length (fst xy) = 400%nat /\ length (snd xy) = 400%nat /\
      (forall k, (k < 400)%nat ->
         is_finite (nth k (fst xy) NaN) /\ is_finite (nth k (snd xy) NaN)) /\
      within 1e-9 (nth 0 (fst xy) NaN) (nth 399 (fst xy) NaN) /\
      within 1e-9 (nth 0 (snd xy) NaN) (nth 399 (snd xy) NaN)).
Proof.
  split; [|split].
  - intros Rc xc yc scale Hvalid. cbv zeta.
    destruct (plot_joukowsky_length (Fin Rc) (Fin xc) (Fin yc) (Fin scale)) as [Lx Ly].
    split; [exact Lx|]. split; [exact Ly|].
    intros k Hk. apply plot_joukowsky_nth_valid; [assumption | now apply Hvalid].
  - split; [exact theta_samples_length|]. split; [exact theta_samples_nth|].
    split; [exact theta_k_0|]. split; [exact theta_k_last | exact theta_k_step].
  - cbv zeta.
    destruct (plot_joukowsky_length (Fin 0.85) (Fin (-0.1)) (Fin 0.23) (Fin 1)) as [Lx Ly].
    pose proof (fun k Hk => plot_joukowsky_nth_valid 0.85 (-0.1) 0.23 1 k Hk
                              (default_circle_off_origin _)) as Hnth.
    assert (Hends : Plane.airfoil_point 0.85 (-0.1) 0.23 1 (Plane.theta_k 399)
                    = Plane.airfoil_point 0.85 (-0.1) 0.23 1 (Plane.theta_k 0)).
    { rewrite theta_k_last, theta_k_0. unfold Plane.airfoil_point, Plane.w_of.
      now rewrite cos_2PI, sin_2PI, cos_0, sin_0. }
    remember (fst (plot_joukowsky (Fin 0.85) (Fin (-0.1)) (Fin 0.23) (Fin 1))) as xs.
    remember (snd (plot_joukowsky (Fin 0.85) (Fin (-0.1)) (Fin 0.23) (Fin 1))) as ys.
    clear Heqxs Heqys.
    split; [exact Lx|]. split; [exact Ly|]. split.
    + intros k Hk. specialize (Hnth k Hk). unfold Fp in Hnth.
      injection Hnth as Hx Hy. rewrite Hx, Hy. split; exact I.
    + pose proof (Hnth 0%nat (Nat.lt_0_succ _)) as H0.
      pose proof (Hnth 399%nat (Nat.lt_succ_diag_r _)) as H1.
      rewrite Hends in H1. unfold Fp in H0, H1.
      injection H0 as H0x H0y. injection H1 as H1x H1y.
      rewrite H0x, H0y, H1x, H1y.
      unfold within. rewrite !Rminus_diag, Rabs_R0. split; lra.
Qed.

Lemma plot_joukowsky_samples_witness :
  (forall k, (k < 400)%nat -> Plane.w_of 0.85 (-0.1) 0.23 (Plane.theta_k k) <> (0, 0)) /\
  let xy := plot_joukowsky (Fin 0.85) (Fin (-0.1)) (Fin 0.23) (Fin 1) in
  length (fst xy) = 400%nat /\ length (snd xy) = 400%nat /\
  forall k, (k < 400)%nat ->
    (nth k (fst xy) NaN, nth k (snd xy) NaN)
    = Fp (Plane.airfoil_point 0.85 (-0.1) 0.23 1 (Plane.theta_k k)).
Proof.
  split.
  - intros k _. apply default_circle_off_origin.
  - apply (proj1 plot_joukowsky_samples 0.85 (-0.1) 0.23 1).
    intros k _. apply default_circle_off_origin.
Defined.

(** ** GeometricTransform *)

Lemma fold_left_append_map {A B : Type} (f : A -> B) (l : list A) (acc : list B) :
  fold_left (fun out x => out ++ [f x]) l acc = acc ++ map f l.
Proof.
  revert acc. induction l as [|x l IH]; intros acc; cbn [fold_left map].
  - now rewrite app_nil_r.
  - rewrite IH, <- app_assoc. reflexivity.
Qed.

Lemma reflect_map points angle_deg :
  reflect points angle_deg = map (reflect_point angle_deg) points.
Proof.
  unfold reflect. cbv zeta.
  rewrite (fold_left_append_map
             (fun p => matvec _ (fst (matvec _ p), (- snd (matvec _ p))%f64))).
  reflexivity.
Qed.

Lemma rotate_map points angle_deg center :
  rotate points angle_deg center = map (rotate_point angle_deg center) points.
Proof. reflexivity. Qed.

Lemma reflect_point_Fin (a x y : R) :
  reflect_point (Fin a) (Fp (x, y))
  = Fp (cos (2 * (a * (PI / 180))) * x + sin (2 * (a * (PI / 180))) * y,
        sin (2 * (a * (PI / 180))) * x - cos (2 * (a * (PI / 180))) * y).
Proof.
  unfold reflect_point, negate_y, radians, Fp.
  cbn [fst snd fmul fadd fsub fopp fcos fsin].
  rewrite cos_neg, sin_neg, cos_2a, sin_2a.
  f_equal; f_equal; ring.
Qed.

Lemma reflect_point_involutive (a x y : R) :
  reflect_point (Fin a) (reflect_point (Fin a) (Fp (x, y))) = Fp (x, y).
Proof.
  rewrite !reflect_point_Fin. cbn [fst snd].
  pose proof (sin2_cos2 (2 * (a * (PI / 180)))) as H. unfold Rsqr in H.
  set (c := cos (2 * (a * (PI / 180)))) in *.
  set (s := sin (2 * (a * (PI / 180)))) in *.
  unfold Fp; cbn [fst snd]. f_equal; f_equal.
  - replace (c * (c * x + s * y) + s * (s * x - c * y)) with ((s * s + c * c) * x) by ring.
    rewrite H. ring.
  - replace (s * (c * x + s * y) - c * (s * x - c * y)) with ((s * s + c * c) * y) by ring.
    rewrite H. ring.
Qed.

(** [reflect] is: rotate by [-a], negate Y, rotate back by [a]. *)
Lemma reflect_point_as_rotations (a x y : R) :
  reflect_point (Fin a) (Fp (x, y))
  = rotate_point (Fin a) origin
      (negate_y (rotate_point (Fin (- a)) origin (Fp (x, y)))).
Proof.
  unfold reflect_point, rotate_point, negate_y, radians, origin, vadd, vsub, Fp.
  cbn [fst snd fmul fadd fsub fopp fcos fsin].
  replace (- a * (PI / 180)) with (- (a * (PI / 180))) by ring.
  rewrite cos_neg, sin_neg. f_equal; f_equal; ring.
Qed.

(** C6: reflecting twice about the same axis gives back the points, for every
    list of finite points and every axis angle (exactly so in real arithmetic,
    hence within any tolerance); and [reflect] is: rotate by [-a] about the
    origin, negate Y, rotate back by [a]. *)
Theorem reflect_twice (pts : list (R * R)) (a : R) :
  reflect (reflect (map Fp pts) (Fin a)) (Fin a) = map Fp pts /\
  reflect (map Fp pts) (Fin a)
  = rotate (map negate_y (rotate (map Fp pts) (Fin (- a)) origin)) (Fin a) origin.
Proof.
  rewrite !reflect_map, !rotate_map, !map_map. split.
  - apply map_ext. intros [x y]. apply reflect_point_involutive.
  - apply map_ext. intros [x y]. apply reflect_point_as_rotations.
Qed.

(** C10: [rotate] and [reflect] return as many points as they are given, and
    the k-th output point is the image of the k-th input point: nothing is
    added, dropped or reordered. *)
Theorem rotate_reflect_pointwise (points : curve) (angle_deg : float64) (center : point) :
  (length (rotate points angle_deg center) = length points /\
   forall k d, (k < length points)%nat ->
     nth k (rotate points angle_deg center) d
     = rotate_point angle_deg center (nth k points d)) /\
  (length (reflect points angle_deg) = length points /\
   forall k d, (k < length points)%nat ->
     nth k (reflect points angle_deg) d
     = reflect_point angle_deg (nth k points d)).
Proof.
  rewrite reflect_map, rotate_map. split; (split; [apply length_map|]).
  - intros k d Hk. now apply nth_map_lt.
  - intros k d Hk. now apply nth_map_lt.
Qed.

Lemma rotate_reflect_pointwise_witness :
  (1 < length [origin; (Fin 1, Fin 2)])%nat /\
  nth 1 (rotate [origin; (Fin 1, Fin 2)] (Fin 90) origin) origin
  = rotate_point (Fin 90) origin (nth 1 [origin; (Fin 1, Fin 2)] origin) /\
  nth 1 (reflect [origin; (Fin 1, Fin 2)] (Fin 90)) origin
  = reflect_point (Fin 90) (nth 1 [origin; (Fin 1, Fin 2)] origin).
Proof.
  assert (H : (1 < length [origin; (Fin 1, Fin 2)])%nat) by (cbn; lia).
  split; [exact H|]. split.
  - apply (proj2 (proj1 (rotate_reflect_pointwise [origin; (Fin 1, Fin 2)] (Fin 90) origin))
             1%nat origin H).
  - apply (proj2 (proj2 (rotate_reflect_pointwise [origin; (Fin 1, Fin 2)] (Fin 90) origin))
             1%nat origin H).
Defined.

(** ** SymmetryReplicator *)

Lemma replicate_inner_loop (angle : float64) (base_paths acc : list curve) :
  fold_left (fun paths_to_plot path => paths_to_plot ++ [rotate path angle origin])
    base_paths acc
  = acc ++ map (fun path => rotate path angle origin) base_paths.
Proof. apply fold_left_append_map. Qed.

Lemma replicate_outer_loop (base_paths : list curve) (angles : list float64)
  (acc : list curve) :
  fold_left
    (fun paths_to_plot angle =>
       fold_left (fun paths_to_plot path => paths_to_plot ++ [rotate path angle origin])
         base_paths paths_to_plot)
    angles acc
  = acc ++ flat_map (fun angle => map (fun path => rotate path angle origin) base_paths)
             angles.
Proof.
  revert acc. induction angles as [|a angles IH]; intros acc; cbn [fold_left flat_map].
  - now rewrite app_nil_r.
  - rewrite IH, replicate_inner_loop, <- app_assoc. reflexivity.
Qed.

Lemma replicate_flat_map base_paths angles :
  replicate base_paths angles
  = flat_map (fun angle => map (fun path => rotate path angle origin) base_paths) angles.
Proof. unfold replicate. now rewrite replicate_outer_loop. Qed.

Lemma replicate_length base_paths angles :
  length (replicate base_paths angles) = (length angles * length base_paths)%nat.
Proof.
  rewrite replicate_flat_map.
  induction angles as [|a angles IH]; cbn [flat_map length]; [reflexivity|].
  rewrite length_app, length_map, IH. reflexivity.
Qed.

Lemma replicate_nth base_paths angles i j d :
  (i < length angles)%nat -> (j < length base_paths)%nat ->
  nth (i * length base_paths + j) (replicate base_paths angles) d
  = rotate (nth j base_paths d) (nth i angles NaN) origin.
Proof.
  rewrite replicate_flat_map. revert i.
  induction angles as [|a angles IH]; intros i Hi Hj; cbn [length] in Hi; [lia|].
  cbn [flat_map]. destruct i as [|i].
  - cbn [Nat.mul Nat.add nth].
    rewrite app_nth1 by (now rewrite length_map).
    now apply nth_map_lt.
  - rewrite app_nth2 by (rewrite length_map; cbn [Nat.mul]; lia).
    rewrite length_map.
    replace (S i * length base_paths + j - length base_paths)%nat
      with (i * length base_paths + j)%nat by (cbn [Nat.mul]; lia).
    cbn [nth]. apply IH; [lia | assumption].
Qed.

(** C8: the replication of [base_paths] over [angles] has
    [len(angles) * len(base_paths)] entries, entry [i * len(base_paths) + j]
    being [base_paths[j]] rotated by [angles[i]] about the origin; the emblem's
    three base paths over 0, 120 and 240 degrees give nine contours in that
    order. *)
Theorem replicate_angle_major :
  (forall (base_paths : list curve) (angles : list float64),
     length (replicate base_paths angles) = (length angles * length base_paths)%nat /\
     forall i j d, (i < length angles)%nat -> (j < length base_paths)%nat ->
       nth (i * length base_paths + j) (replicate base_paths angles) d
       = rotate (nth j base_paths d) (nth i angles NaN) origin) /\
  (forall full_contour finale1 full_contour_reflected : curve,
     revolution_paths full_contour finale1 full_contour_reflected
     = [ rotate full_contour (Fin 0) origin;
         rotate finale1 (Fin 0) origin;
         rotate full_contour_reflected (Fin 0) origin;
         rotate full_contour (Fin 120) origin;
         rotate finale1 (Fin 120) origin;
         rotate full_contour_reflected (Fin 120) origin;
         rotate full_contour (Fin 240) origin;
         rotate finale1 (Fin 240) origin;
         rotate full_contour_reflected (Fin 240) origin ] /\
     length (revolution_paths full_contour finale1 full_contour_reflected) = 9%nat).
Proof.
  split.
  - intros base_paths angles. split.
    + apply replicate_length.
    + intros i j d. apply replicate_nth.
  - intros fc f1 fcr. split.
    + unfold revolution_paths. cbv zeta. rewrite replicate_flat_map. reflexivity.
    + unfold revolution_paths. cbv zeta. now rewrite replicate_length.
Qed.

Lemma replicate_angle_major_witness :
  (1 < length [Fin 0; Fin 120; Fin 240])%nat /\
  (2 < length [[origin]; [origin; origin]; []])%nat /\
  nth (1 * length [[origin]; [origin; origin]; []] + 2)
      (replicate [[origin]; [origin; origin]; []] [Fin 0; Fin 120; Fin 240]) [origin]
  = rotate (nth 2 [[origin]; [origin; origin]; []] [origin])
           (nth 1 [Fin 0; Fin 120; Fin 240] NaN) origin.
Proof.
  split; [cbn; lia|]. split; [cbn; lia|].
  apply (proj2 (proj1 replicate_angle_major [[origin]; [origin; origin]; []]
                  [Fin 0; Fin 120; Fin 240]) 1%nat 2%nat [origin]); cbn; lia.
Defined.

(** ** Overlay *)

Lemma rotated_airfoils_loop (f : nat -> curve) (l : list nat) (acc : list curve) :
  fold_left (fun drawn i => drawn ++ [f i]) l acc = acc ++ map f l.
Proof. apply fold_left_append_map. Qed.

(** C7: with one revolution the overlay is the airfoil point array itself,
    in the drawn curves and in the exported points alike: [rotate] is not
    applied. *)
Theorem single_revolution_unrotated (airfoil : curve) (revolution : list curve) :
  overlay_curves 1 airfoil = Returns [airfoil] /\
  export_all_points revolution 1 airfoil = Returns (concat revolution ++ airfoil).
Proof. split; reflexivity. Qed.

(** ** Minimum and maximum of an array of finite doubles *)

Lemma fminimum_Fin a b : fminimum (Fin a) (Fin b) = Fin (Rmin a b).
Proof.
  unfold fminimum, flt, Rmin.
  destruct (Rlt_dec b a), (Rle_dec a b); try reflexivity; lra.
Qed.

Lemma fmaximum_Fin a b : fmaximum (Fin a) (Fin b) = Fin (Rmax a b).
Proof.
  unfold fmaximum, flt, Rmax.
  destruct (Rlt_dec a b), (Rle_dec a b); try reflexivity; try lra.
  f_equal; lra.
Qed.

Lemma fold_fminimum_Fin (t : list R) (x : R) :
  fold_left fminimum (map Fin t) (Fin x) = Fin (fold_left Rmin t x).
Proof.
  revert x. induction t as [|y t IH]; intros x; cbn [map fold_left]; [reflexivity|].
  now rewrite fminimum_Fin, IH.
Qed.

Lemma fold_fmaximum_Fin (t : list R) (x : R) :
  fold_left fmaximum (map Fin t) (Fin x) = Fin (fold_left Rmax t x).
Proof.
  revert x. induction t as [|y t IH]; intros x; cbn [map fold_left]; [reflexivity|].
  now rewrite fmaximum_Fin, IH.
Qed.

Lemma fold_Rmin_is_min (t : list R) (x : R) : Bounds.is_min (x :: t) (fold_left Rmin t x).
Proof.
  revert x. induction t as [|y t IH]; intros x; cbn [fold_left].
  - split; [now left|]. intros z [<-|[]]. lra.
  - destruct (IH (Rmin x y)) as [Hin Hle]. split.
    + destruct Hin as [E|Hin].
      * rewrite <- E. unfold Rmin. destruct (Rle_dec x y); [now left | right; now left].
      * right; now right.
    + intros z [<-|[<-|Hz]].
      * apply Rle_trans with (Rmin x y); [apply Hle; now left | apply Rmin_l].
      * apply Rle_trans with (Rmin x y); [apply Hle; now left | apply Rmin_r].
      * apply Hle. now right.
Qed.

Lemma fold_Rmax_is_max (t : list R) (x : R) : Bounds.is_max (x :: t) (fold_left Rmax t x).
Proof.
  revert x. induction t as [|y t IH]; intros x; cbn [fold_left].
  - split; [now left|]. intros z [<-|[]]. lra.
  - destruct (IH (Rmax x y)) as [Hin Hle]. split.
    + destruct Hin as [E|Hin].
      * rewrite <- E. unfold Rmax. destruct (Rle_dec x y); [right; now left | now left].
      * right; now right.
    + intros z [<-|[<-|Hz]].
      * apply Rle_trans with (Rmax x y); [apply Rmax_l | apply Hle; now left].
      * apply Rle_trans with (Rmax x y); [apply Rmax_r | apply Hle; now left].
      * apply Hle. now right.
Qed.

Lemma amin_Fin (l : list R) :
  l <> [] -> exists m, amin (map Fin l) = Returns (Fin m) /\ Bounds.is_min l m.
Proof.
  destruct l as [|x t]; [congruence|]. intros _.
  exists (fold_left Rmin t x). cbn [map amin]. rewrite fold_fminimum_Fin.
  split; [reflexivity | apply fold_Rmin_is_min].
Qed.

Lemma amax_Fin (l : list R) :
  l <> [] -> exists m, amax (map Fin l) = Returns (Fin m) /\ Bounds.is_max l m.
Proof.
  destruct l as [|x t]; [congruence|]. intros _.
  exists (fold_left Rmax t x). cbn [map amax]. rewrite fold_fmaximum_Fin.
  split; [reflexivity | apply fold_Rmax_is_max].
Qed.

(** ** VectorPathSerializer *)

Lemma map_fst_Fp (pts : list (R * R)) : map fst (map Fp pts) = map Fin (map fst pts).
Proof. rewrite !map_map. reflexivity. Qed.

Lemma map_snd_Fp (pts : list (R * R)) : map snd (map Fp pts) = map Fin (map snd pts).
Proof. rewrite !map_map. reflexivity. Qed.

(** C9: for every non-empty set of finite points, the exported viewBox is the
    bounding box of the points moved out by the padding 0.2 on every side: it
    starts at [(min_x - 0.2, min_y - 0.2)], ends at [(max_x + 0.2, max_y + 0.2)],
    and its width and height exceed the extent of the points by 0.4. *)
Theorem export_viewBox_padding (pts : list (R * R)) :
  pts <> [] ->
  exists min_x min_y max_x max_y width height frame,
    Bounds.is_min (map fst pts) min_x /\ Bounds.is_min (map snd pts) min_y /\
    Bounds.is_max (map fst pts) max_x /\ Bounds.is_max (map snd pts) max_y /\
    export_frame (map Fp pts) = Returns frame /\
    viewBox frame = (Fin (min_x - 0.2), Fin (min_y - 0.2), Fin width, Fin height) /\
    (min_x - 0.2) + width = max_x + 0.2 /\
    (min_y - 0.2) + height = max_y + 0.2 /\
    width - (max_x - min_x) = 0.4 /\
    height - (max_y - min_y) = 0.4.
Proof.
  intros Hne.
  assert (Hx : map fst pts <> []) by (destruct pts; [congruence | discriminate]).
  assert (Hy : map snd pts <> []) by (destruct pts; [congruence | discriminate]).
  destruct (amin_Fin _ Hx) as (min_x & Eminx & Hminx).
  destruct (amin_Fin _ Hy) as (min_y & Eminy & Hminy).
  destruct (amax_Fin _ Hx) as (max_x & Emaxx & Hmaxx).
  destruct (amax_Fin _ Hy) as (max_y & Emaxy & Hmaxy).
  exists min_x, min_y, max_x, max_y,
    (max_x - min_x + 2 * 0.2), (max_y - min_y + 2 * 0.2).
  eexists. do 4 (split; [assumption|]).
  split.
  - unfold export_frame. rewrite map_fst_Fp, map_snd_Fp, Eminx, Eminy, Emaxx, Emaxy.
    cbn [bind]. reflexivity.
  - cbn [viewBox]. unfold padding. cbn [fsub fadd fopp fmul].
    split; [|repeat split; lra].
    repeat f_equal; lra.
Qed.

Lemma export_viewBox_padding_witness :
  [(0, 0); (1, 2)] <> [] /\
  exists min_x min_y max_x max_y width height frame,
    Bounds.is_min (map fst [(0, 0); (1, 2)]) min_x /\
    Bounds.is_min (map snd [(0, 0); (1, 2)]) min_y /\
    Bounds.is_max (map fst [(0, 0); (1, 2)]) max_x /\
    Bounds.is_max (map snd [(0, 0); (1, 2)]) max_y /\
    export_frame (map Fp [(0, 0); (1, 2)]) = Returns frame /\
    viewBox frame = (Fin (min_x - 0.2), Fin (min_y - 0.2), Fin width, Fin height) /\
    (min_x - 0.2) + width = max_x + 0.2 /\
    (min_y - 0.2) + height = max_y + 0.2 /\
    width - (max_x - min_x) = 0.4 /\
    height - (max_y - min_y) = 0.4.
Proof.
  split; [discriminate|].
  apply (export_viewBox_padding [(0, 0); (1, 2)]). discriminate.
Defined.

(** ** Distances between finite points *)

Lemma norm_Fp (p : R * R) : norm (Fp p) = Fin (sqrt (fst p * fst p + snd p * snd p)).
Proof.
  unfold norm, dot, Fp; cbn [fst snd fmul fadd].
  apply fsqrt_Fin. nra.
Qed.

Lemma vsub_Fp (p q : R * R) : vsub (Fp p) (Fp q) = Fp (fst p - fst q, snd p - snd q).
Proof. reflexivity. Qed.

Lemma norm_vsub_Fp (p q : R * R) : norm (vsub (Fp p) (Fp q)) = Fin (Plane.dist p q).
Proof. rewrite vsub_Fp, norm_Fp. reflexivity. Qed.

Lemma clip_Fin (x lo hi : R) :
  clip (Fin x) (Fin lo) (Fin hi) = Fin (Rmin (Rmax x lo) hi).
Proof. unfold clip. now rewrite fmaximum_Fin, fminimum_Fin. Qed.

Lemma clamp_cases (x : R) :
  let t := Rmin (Rmax x 0) 1 in
  (x <= 0 /\ t = 0) \/ (0 <= x <= 1 /\ t = x) \/ (1 <= x /\ t = 1).
Proof.
  cbv zeta. unfold Rmin, Rmax.
  destruct (Rle_dec x 0); destruct (Rle_dec 0 1); try lra;
    destruct (Rle_dec x 1); lra.
Qed.

(** The clamped foot of the perpendicular is the nearest point of a segment. *)
Lemma clamped_projection_nearest (px py ax ay bx b_y s : R) :
  let abx := bx - ax in
  let aby := b_y - ay in
  let L := abx * abx + aby * aby in
  let t := Rmin (Rmax (((px - ax) * abx + (py - ay) * aby) / L) 0) 1 in
  L <> 0 -> 0 <= s <= 1 ->
  (px - (ax + t * abx)) * (px - (ax + t * abx))
  + (py - (ay + t * aby)) * (py - (ay + t * aby))
  <= (px - (ax + s * abx)) * (px - (ax + s * abx))
     + (py - (ay + s * aby)) * (py - (ay + s * aby)).
Proof.
  intros abx aby L t HL Hs.
  set (D := (px - ax) * abx + (py - ay) * aby) in *.
  assert (HLpos : 0 < L) by (unfold L in *; nra).
  set (t0 := D / L) in *.
  assert (HD : D = t0 * L) by (unfold t0; field; exact HL).
  assert (Hdiff :
    (px - (ax + s * abx)) * (px - (ax + s * abx))
    + (py - (ay + s * aby)) * (py - (ay + s * aby))
    - ((px - (ax + t * abx)) * (px - (ax + t * abx))
       + (py - (ay + t * aby)) * (py - (ay + t * aby)))
    = (s - t) * L * (s + t - 2 * t0)).
  { replace ((s - t) * L * (s + t - 2 * t0))
      with ((s - t) * ((s + t) * L - 2 * (t0 * L))) by ring.
    rewrite <- HD. unfold D, L. ring. }
  assert (Hge : 0 <= (s - t) * L * (s + t - 2 * t0)).
  { destruct (clamp_cases t0) as [[H0 Ht]|[[H0 Ht]|[H0 Ht]]]; fold t in Ht; rewrite Ht.
    - replace ((s - 0) * L * (s + 0 - 2 * t0)) with (L * (s * (s - 2 * t0))) by ring.
      apply Rmult_le_pos; [lra|]. apply Rmult_le_pos; lra.
    - replace ((s - t0) * L * (s + t0 - 2 * t0)) with (L * ((s - t0) * (s - t0))) by ring.
      apply Rmult_le_pos; [lra|]. apply (Rle_0_sqr (s - t0)).
    - replace ((s - 1) * L * (s + 1 - 2 * t0))
        with (L * ((1 - s) * (2 * t0 - 1 - s))) by ring.
      apply Rmult_le_pos; [lra|]. apply Rmult_le_pos; lra. }
  lra.
Qed.

Lemma dot_Fp (u v : R * R) :
  dot (Fp u) (Fp v) = Fin (fst u * fst v + snd u * snd v).
Proof. reflexivity. Qed.

Lemma vadd_Fp (p q : R * R) : vadd (Fp p) (Fp q) = Fp (fst p + fst q, snd p + snd q).
Proof. reflexivity. Qed.

Lemma vscale_Fp (k : R) (p : R * R) : vscale (Fin k) (Fp p) = Fp (k * fst p, k * snd p).
Proof. reflexivity. Qed.

Lemma point_segment_distance_Fp (p a b : R * R) :
  exists d,
    point_segment_distance (Fp p) (Fp a) (Fp b) = Fin d /\
    Plane.is_segment_distance p a b d.
Proof.
  destruct p as [px py], a as [ax ay], b as [bx b_y].
  unfold point_segment_distance. cbv zeta.
  rewrite !vsub_Fp, !dot_Fp. cbn [fst snd].
  set (abx := bx - ax). set (aby := b_y - ay).
  destruct (Req_dec_T (abx * abx + aby * aby) 0) as [HL|HL].
  - rewrite (feq_Fin_true _ _ HL), norm_Fp. cbn [fst snd].
    destruct (Rplus_sqr_eq_0 abx aby HL) as [Hx Hy].
    apply Rminus_diag_uniq in Hx, Hy.
    exists (Plane.dist (px, py) (ax, ay)). split; [reflexivity|]. split.
    + exists (ax, ay). split; [|reflexivity].
      exists 0. split; [lra|]. cbn [fst snd]. f_equal; ring.
    + intros q (s & Hs & ->). cbn [fst snd]. subst bx b_y.
      right. f_equal. f_equal; ring.
  - rewrite (feq_Fin_false _ _ HL), (fdiv_Fin _ _ HL), clip_Fin.
    set (t := Rmin (Rmax (((px - ax) * abx + (py - ay) * aby)
                            / (abx * abx + aby * aby)) 0) 1).
    rewrite vscale_Fp, vadd_Fp, vsub_Fp, norm_Fp. cbn [fst snd].
    eexists. split; [reflexivity|].
    assert (Ht : 0 <= t <= 1).
    { destruct (clamp_cases (((px - ax) * abx + (py - ay) * aby)
                              / (abx * abx + aby * aby))) as [[_ E]|[[H E]|[_ E]]];
        fold t in E; rewrite E; lra. }
    split.
    + exists (ax + t * abx, ay + t * aby). split.
      * exists t. split; [exact Ht | reflexivity].
      * reflexivity.
    + intros q (s & Hs & ->). unfold Plane.dist. cbn [fst snd].
      apply sqrt_le_1_alt.
      pose proof (clamped_projection_nearest px py ax ay bx b_y s) as H.
      cbv zeta in H. fold abx aby in H. fold t in H.
      exact (H HL Hs).
Qed.

(** ** TangentCircleSolver *)

Lemma linspace_Fin (a b : R) (num : nat) :
  (1 < num)%nat ->
  linspace (Fin a) (Fin b) num
  = map (fun k => Fin (a + INR k * ((b - a) / INR (num - 1)))) (seq 0 num).
Proof.
  intros Hnum. unfold linspace. cbn [fsub fopp fadd].
  rewrite fdiv_Fin by (apply not_0_INR; lia). reflexivity.
Qed.

Lemma arc_pts_Fp (radius a0 a1 : R) (n : nat) :
  (1 < n)%nat ->
  map (fun t => (Fin radius * fcos t, Fin radius * fsin t)%f64)
      (linspace (Fin a0) (Fin a1) n)
  = map Fp (EmblemRef.arc_samples radius a0 a1 n).
Proof.
  intros Hn. rewrite linspace_Fin by assumption.
  unfold EmblemRef.arc_samples. rewrite !map_map. reflexivity.
Qed.

Lemma arc1_pts_Fp : Emblem.arc1_pts = map Fp EmblemRef.arc1_samples.
Proof.
  unfold Emblem.arc1_pts, Emblem.theta_outer, Emblem.r2.
  rewrite fdiv_Fin by lra. rewrite farccos_Fin by lra.
  apply arc_pts_Fp. lia.
Qed.

Lemma arc3_pts_Fp : Emblem.arc3_pts = map Fp EmblemRef.arc3_samples.
Proof.
  unfold Emblem.arc3_pts, Emblem.theta_inner, Emblem.r1.
  rewrite !fdiv_Fin by lra. rewrite !farccos_Fin by lra.
  apply arc_pts_Fp. lia.
Qed.

Lemma seg2_pts_Fp : Emblem.seg2_pts = (Fp EmblemRef.P2, Fp EmblemRef.P1).
Proof.
  unfold Emblem.seg2_pts, Emblem.p2, Emblem.p1, Emblem.r1, Emblem.r2, fsquare.
  cbn [fmul fsub fopp fadd]. rewrite !fsqrt_Fin by lra. reflexivity.
Qed.

Lemma arc_samples_length radius a0 a1 n :
  length (EmblemRef.arc_samples radius a0 a1 n) = n.
Proof. unfold EmblemRef.arc_samples. now rewrite length_map, length_seq. Qed.

Lemma min_sample_distance_Fp (samples : list (R * R)) (c : R * R) :
  samples <> [] ->
  exists d, min_sample_distance (map Fp samples) (Fp c) = Returns (Fin d) /\
            Plane.is_sample_distance c samples d.
Proof.
  intros Hne. unfold min_sample_distance. rewrite map_map.
  rewrite (map_ext _ (fun q => Fin (Plane.dist q c))) by (intros q; apply norm_vsub_Fp).
  rewrite <- (map_map (fun q => Plane.dist q c) Fin).
  destruct (amin_Fin (map (fun q => Plane.dist q c) samples)) as (d & E & Hin & Hle).
  { destruct samples; [congruence | discriminate]. }
  exists d. split; [exact E|]. split.
  - apply in_map_iff in Hin. destruct Hin as (q & Hq & Hin). now exists q.
  - intros q Hq. apply Hle. apply in_map_iff. now exists q.
Qed.

Lemma nonempty_of_length {A : Type} (l : list A) (n : nat) :
  length l = S n -> l <> [].
Proof. intros H ->. discriminate. Qed.

Lemma py_sum_two a b : py_sum (([] ++ [Fin a]) ++ [Fin b]) = Fin (a + b).
Proof. unfold py_sum. cbn [app fold_left fadd]. f_equal. ring. Qed.

Lemma py_sum_three a b c : py_sum ((([] ++ [Fin a]) ++ [Fin b]) ++ [Fin c]) = Fin (a + b + c).
Proof. unfold py_sum. cbn [app fold_left fadd]. f_equal. ring. Qed.

(** C3: at every candidate centre, each objective is the sum of the squared
    [distance - R] over its two obstacles, the segment distance being the
    least distance to a point of the segment and the arc distance the least
    distance to a sample of the arc, plus a weighted square penalty exactly
    when the centre is on the wrong side: [|c| > r2 - R] (weight 10) for the
    inner corner, [|c| < r1 + R] (weight 1000) for the outer one. *)
Theorem objective_sum_of_squares (cx cy : R) :
  let c := (cx, cy) in
  let n := sqrt (cx * cx + cy * cy) in
  exists d_seg d_arc1 d_arc3,
    Plane.is_segment_distance c EmblemRef.P2 EmblemRef.P1 d_seg /\
    Plane.is_sample_distance c EmblemRef.arc1_samples d_arc1 /\
    Plane.is_sample_distance c EmblemRef.arc3_samples d_arc3 /\
    (n > 1.2 - 0.05 ->
     Emblem.objective_inner (Fp c)
     = Returns (Fin (EmblemRef.sq (d_seg - 0.05) + EmblemRef.sq (d_arc1 - 0.05)
                     + 10 * EmblemRef.sq (n - (1.2 - 0.05))))) /\
    (n <= 1.2 - 0.05 ->
     Emblem.objective_inner (Fp c)
     = Returns (Fin (EmblemRef.sq (d_seg - 0.05) + EmblemRef.sq (d_arc1 - 0.05)))) /\
    (n < 1 + 0.05 ->
     Emblem.objective_outer (Fp c)
     = Returns (Fin (EmblemRef.sq (d_seg - 0.05) + EmblemRef.sq (d_arc3 - 0.05)
                     + 1000 * EmblemRef.sq (1 + 0.05 - n)))) /\
    (n >= 1 + 0.05 ->
     Emblem.objective_outer (Fp c)
     = Returns (Fin (EmblemRef.sq (d_seg - 0.05) + EmblemRef.sq (d_arc3 - 0.05)))).
Proof.
  intros c n.
  destruct (point_segment_distance_Fp c EmblemRef.P2 EmblemRef.P1) as (d_seg & Eseg & Hseg).
  destruct (min_sample_distance_Fp EmblemRef.arc1_samples c) as (d1 & E1 & H1).
  { apply (nonempty_of_length _ 99). apply arc_samples_length. }
  destruct (min_sample_distance_Fp EmblemRef.arc3_samples c) as (d3 & E3 & H3).
  { apply (nonempty_of_length _ 99). apply arc_samples_length. }
  exists d_seg, d1, d3. do 3 (split; [assumption|]).
  assert (Hn : norm (Fp c) = Fin n) by apply norm_Fp.
  unfold Emblem.objective_inner, Emblem.objective_outer. cbv zeta.
  rewrite seg2_pts_Fp, arc1_pts_Fp, arc3_pts_Fp. cbn [fst snd].
  rewrite Eseg, E1, E3, Hn. cbn [bind].
  unfold Emblem.R_corner, Emblem.r1, Emblem.r2, fsquare, fgt.
  cbn [fsub fopp fadd fmul].
  split; [|split; [|split]]; intros Hc.
  - rewrite flt_Fin_true by lra. rewrite py_sum_three.
    unfold EmblemRef.sq. first [reflexivity | do 2 f_equal; ring].
  - rewrite flt_Fin_false by lra. rewrite py_sum_two.
    unfold EmblemRef.sq. first [reflexivity | do 2 f_equal; ring].
  - rewrite flt_Fin_true by lra. rewrite py_sum_three.
    unfold EmblemRef.sq. first [reflexivity | do 2 f_equal; ring].
  - rewrite flt_Fin_false by lra. rewrite py_sum_two.
    unfold EmblemRef.sq. first [reflexivity | do 2 f_equal; ring].
Qed.

Lemma sqrt_origin : sqrt (0 * 0 + 0 * 0) = 0.
Proof. replace (0 * 0 + 0 * 0) with 0 by ring. apply sqrt_0. Qed.

Lemma sqrt_two_zero : sqrt (2 * 2 + 0 * 0) = 2.
Proof. replace (2 * 2 + 0 * 0) with (2 * 2) by ring. apply sqrt_square. lra. Qed.

Lemma objective_sum_of_squares_witness :
  (sqrt (0 * 0 + 0 * 0) <= 1.2 - 0.05 /\ sqrt (0 * 0 + 0 * 0) < 1 + 0.05 /\
   exists d_seg d_arc1 d_arc3,
     Emblem.objective_inner (Fp (0, 0))
     = Returns (Fin (EmblemRef.sq (d_seg - 0.05) + EmblemRef.sq (d_arc1 - 0.05))) /\
     Emblem.objective_outer (Fp (0, 0))
     = Returns (Fin (EmblemRef.sq (d_seg - 0.05) + EmblemRef.sq (d_arc3 - 0.05)
                     + 1000 * EmblemRef.sq (1 + 0.05 - sqrt (0 * 0 + 0 * 0))))) /\
  (sqrt (2 * 2 + 0 * 0) > 1.2 - 0.05 /\ sqrt (2 * 2 + 0 * 0) >= 1 + 0.05 /\
   exists d_seg d_arc1 d_arc3,
     Emblem.objective_inner (Fp (2, 0))
     = Returns (Fin (EmblemRef.sq (d_seg - 0.05) + EmblemRef.sq (d_arc1 - 0.05)
                     + 10 * EmblemRef.sq (sqrt (2 * 2 + 0 * 0) - (1.2 - 0.05)))) /\
     Emblem.objective_outer (Fp (2, 0))
     = Returns (Fin (EmblemRef.sq (d_seg - 0.05) + EmblemRef.sq (d_arc3 - 0.05)))).
Proof.
  assert (H0a : sqrt (0 * 0 + 0 * 0) <= 1.2 - 0.05) by (rewrite sqrt_origin; lra).
  assert (H0b : sqrt (0 * 0 + 0 * 0) < 1 + 0.05) by (rewrite sqrt_origin; lra).
  assert (H2a : sqrt (2 * 2 + 0 * 0) > 1.2 - 0.05) by (rewrite sqrt_two_zero; lra).
  assert (H2b : sqrt (2 * 2 + 0 * 0) >= 1 + 0.05) by (rewrite sqrt_two_zero; lra).
  split.
  - split; [exact H0a|]. split; [exact H0b|].
    destruct (objective_sum_of_squares 0 0)
      as (d_seg & d1 & d3 & _ & _ & _ & _ & Hin & Hout & _).
    exists d_seg, d1, d3. split; [exact (Hin H0a) | exact (Hout H0b)].
  - split; [exact H2a|]. split; [exact H2b|].
    destruct (objective_sum_of_squares 2 0)
      as (d_seg & d1 & d3 & _ & _ & _ & Hin & _ & _ & Hout).
    exists d_seg, d1, d3. split; [exact (Hin H2a) | exact (Hout H2b)].
Defined.

(** ** LineJointSolver *)

Lemma length_pos (p : R * R) : p <> (0, 0) -> 0 < Fillet.length p.
Proof.
  intros Hp. destruct p as [x y]. unfold Fillet.length; cbn [fst snd].
  apply sqrt_lt_R0.
  destruct (Req_dec x 0) as [->|Hx].
  - assert (y <> 0) by (intros ->; now apply Hp). nra.
  - nra.
Qed.

Lemma length_sqr (p : R * R) :
  Fillet.length p * Fillet.length p = fst p * fst p + snd p * snd p.
Proof. unfold Fillet.length. apply sqrt_sqrt. nra. Qed.

Lemma normalize_unit (p : R * R) :
  p <> (0, 0) ->
  fst (Fillet.normalize p) * fst (Fillet.normalize p)
  + snd (Fillet.normalize p) * snd (Fillet.normalize p) = 1.
Proof.
  intros Hp. pose proof (length_pos p Hp) as Hl. pose proof (length_sqr p) as Hs.
  unfold Fillet.normalize; cbn [fst snd].
  replace (fst p / Fillet.length p * (fst p / Fillet.length p)
           + snd p / Fillet.length p * (snd p / Fillet.length p))
    with ((fst p * fst p + snd p * snd p) / (Fillet.length p * Fillet.length p))
    by (field; lra).
  rewrite Hs. field. rewrite <- Hs. nra.
Qed.

(** For unit vectors, dot squared plus cross squared is one. *)
Lemma unit_dot_cross (u1 u2 v1 v2 : R) :
  u1 * u1 + u2 * u2 = 1 -> v1 * v1 + v2 * v2 = 1 ->
  (u1 * v1 + u2 * v2) * (u1 * v1 + u2 * v2)
  + (u1 * v2 - u2 * v1) * (u1 * v2 - u2 * v1) = 1.
Proof.
  intros Hu Hv.
  replace ((u1 * v1 + u2 * v2) * (u1 * v1 + u2 * v2)
           + (u1 * v2 - u2 * v1) * (u1 * v2 - u2 * v1))
    with ((u1 * u1 + u2 * u2) * (v1 * v1 + v2 * v2)) by ring.
  rewrite Hu, Hv. ring.
Qed.

Lemma clamp_id (x : R) : -1 <= x <= 1 -> Fillet.clamp x (-1) 1 = x.
Proof.
  intros H. unfold Fillet.clamp, Rmin, Rmax.
  destruct (Rle_dec x (-1)); destruct (Rle_dec _ 1); lra.
Qed.

Lemma clamp_range (x : R) : -1 <= Fillet.clamp x (-1) 1 <= 1.
Proof.
  unfold Fillet.clamp, Rmin, Rmax.
  destruct (Rle_dec x (-1)); destruct (Rle_dec _ 1); lra.
Qed.

Lemma half_angle_sin (c : R) :
  -1 < c < 1 ->
  0 < sin (acos c / 2) /\ 2 * (sin (acos c / 2) * sin (acos c / 2)) = 1 - c.
Proof.
  intros Hc. pose proof (acos_bound_lt c Hc) as Ha. split.
  - apply sin_gt_0; lra.
  - pose proof (cos_2a_sin (acos c / 2)) as H.
    replace (2 * (acos c / 2)) with (acos c) in H by field.
    rewrite cos_acos in H by lra. lra.
Qed.

(** The heart of the tangency: for unit vectors [u], [v] that are not
    collinear, the point [(r / sin theta) * normalize (u + v)] is at distance
    [r] from the line through the origin along [u]. *)
Lemma bisector_point_distance (u1 u2 v1 v2 r : R) :
  u1 * u1 + u2 * u2 = 1 -> v1 * v1 + v2 * v2 = 1 ->
  u1 * v2 - u2 * v1 <> 0 -> 0 < r ->
  let c := u1 * v1 + u2 * v2 in
  let theta := acos c / 2 in
  let N := sqrt ((u1 + v1) * (u1 + v1) + (u2 + v2) * (u2 + v2)) in
  -1 < c < 1 /\ 0 < sin theta /\ 0 < N /\
  Rabs (r / sin theta * ((u1 + v1) / N) * u2 - r / sin theta * ((u2 + v2) / N) * u1) = r /\
  Rabs (r / sin theta * ((u1 + v1) / N) * v2 - r / sin theta * ((u2 + v2) / N) * v1) = r.
Proof.
  intros Hu Hv HX Hr c theta N.
  set (X := u1 * v2 - u2 * v1) in *.
  pose proof (unit_dot_cross u1 u2 v1 v2 Hu Hv) as Hcx. fold c X in Hcx.
  assert (HX2 : 0 < X * X) by nra.
  assert (Hc : -1 < c < 1) by nra.
  destruct (half_angle_sin c Hc) as [Hs Hs2]. fold theta in Hs, Hs2.
  assert (HN2 : (u1 + v1) * (u1 + v1) + (u2 + v2) * (u2 + v2) = 2 + 2 * c)
    by (unfold c; nra).
  assert (HNpos : 0 < N) by (unfold N; apply sqrt_lt_R0; lra).
  assert (HNN : N * N = 2 + 2 * c) by (unfold N; rewrite sqrt_sqrt; lra).
  assert (HabsX : Rabs X = sin theta * N).
  { apply Rsqr_inj.
    - apply Rabs_pos.
    - apply Rmult_le_pos; lra.
    - rewrite <- Rsqr_abs. unfold Rsqr.
      replace (sin theta * N * (sin theta * N))
        with ((sin theta * sin theta) * (N * N)) by ring.
      rewrite HNN. nra. }
  assert (Hk : 0 < r / sin theta / N).
  { apply Rdiv_lt_0_compat; [apply Rdiv_lt_0_compat|]; assumption. }
  split; [exact Hc|]. split; [exact Hs|]. split; [exact HNpos|].
  assert (Hgoal : r / sin theta / N * Rabs X = r).
  { rewrite HabsX. field. split; lra. }
  split.
  - replace (r / sin theta * ((u1 + v1) / N) * u2 - r / sin theta * ((u2 + v2) / N) * u1)
      with (r / sin theta / N * (- X)) by (unfold X; field; split; lra).
    rewrite Rabs_mult, Rabs_Ropp, (Rabs_pos_eq _ (Rlt_le _ _ Hk)). exact Hgoal.
  - replace (r / sin theta * ((u1 + v1) / N) * v2 - r / sin theta * ((u2 + v2) / N) * v1)
      with (r / sin theta / N * X) by (unfold X; field; split; lra).
    rewrite Rabs_mult, (Rabs_pos_eq _ (Rlt_le _ _ Hk)). exact Hgoal.
Qed.

Lemma vdiv_Fp (p : R * R) (k : R) :
  k <> 0 -> vdiv (Fp p) (Fin k) = Fp (fst p / k, snd p / k).
Proof. intros Hk. unfold vdiv, Fp; cbn [fst snd]. now rewrite !fdiv_Fin by assumption. Qed.

Lemma cross_nonzero_l (a c : R * R) : Fillet.cross a c <> 0 -> a <> (0, 0).
Proof. intros H ->. apply H. unfold Fillet.cross; cbn [fst snd]. ring. Qed.

Lemma cross_nonzero_r (a c : R * R) : Fillet.cross a c <> 0 -> c <> (0, 0).
Proof. intros H ->. apply H. unfold Fillet.cross; cbn [fst snd]. ring. Qed.

Lemma cross_normalize (a c : R * R) :
  Fillet.cross a c <> 0 ->
  Fillet.cross (Fillet.normalize a) (Fillet.normalize c) <> 0.
Proof.
  intros H.
  pose proof (length_pos a (cross_nonzero_l a c H)) as Ha.
  pose proof (length_pos c (cross_nonzero_r a c H)) as Hc.
  unfold Fillet.cross, Fillet.normalize in *; cbn [fst snd] in *.
  replace (fst a / Fillet.length a * (snd c / Fillet.length c)
           - snd a / Fillet.length a * (fst c / Fillet.length c))
    with ((fst a * snd c - snd a * fst c) / (Fillet.length a * Fillet.length c))
    by (field; lra).
  intros E. apply H.
  apply (Rmult_eq_compat_r (Fillet.length a * Fillet.length c)) in E.
  field_simplify in E; lra.
Qed.

Lemma normalize_scale (p : R * R) :
  0 < Fillet.length p ->
  fst p = Fillet.length p * fst (Fillet.normalize p) /\
  snd p = Fillet.length p * snd (Fillet.normalize p).
Proof.
  intros Hl. unfold Fillet.normalize; cbn [fst snd].
  set (l := Fillet.length p) in *. split; field; lra.
Qed.

Section Joint.

Variables A B C : R * R.
Variable r : R.
Hypothesis not_collinear : Fillet.cross (Fillet.minus A B) (Fillet.minus C B) <> 0.
Hypothesis radius_pos : 0 < r.

Let u := Fillet.normalize (Fillet.minus A B).
Let v := Fillet.normalize (Fillet.minus C B).

Lemma joint_facts :
  0 < Fillet.length (Fillet.minus A B) /\
  0 < Fillet.length (Fillet.minus C B) /\
  Fillet.half_angle u v = acos (fst u * fst v + snd u * snd v) / 2 /\
  0 < sin (Fillet.half_angle u v) /\
  0 < Fillet.length (fst u + fst v, snd u + snd v) /\
  Rabs (r / sin (Fillet.half_angle u v)
        * fst (Fillet.normalize (fst u + fst v, snd u + snd v)) * snd u
        - r / sin (Fillet.half_angle u v)
          * snd (Fillet.normalize (fst u + fst v, snd u + snd v)) * fst u) = r /\
  Rabs (r / sin (Fillet.half_angle u v)
        * fst (Fillet.normalize (fst u + fst v, snd u + snd v)) * snd v
        - r / sin (Fillet.half_angle u v)
          * snd (Fillet.normalize (fst u + fst v, snd u + snd v)) * fst v) = r.
Proof.
  pose proof (cross_nonzero_l _ _ not_collinear) as HA.
  pose proof (cross_nonzero_r _ _ not_collinear) as HC.
  pose proof (normalize_unit _ HA) as Hu. pose proof (normalize_unit _ HC) as Hv.
  pose proof (cross_normalize _ _ not_collinear) as HX.
  fold u v in Hu, Hv, HX. unfold Fillet.cross in HX.
  destruct (bisector_point_distance (fst u) (snd u) (fst v) (snd v) r Hu Hv HX radius_pos)
    as (Hc & Hs & HN & Hdu & Hdv).
  assert (Hth : Fillet.half_angle u v = acos (fst u * fst v + snd u * snd v) / 2).
  { unfold Fillet.half_angle. rewrite clamp_id by lra. reflexivity. }
  split; [now apply length_pos|]. split; [now apply length_pos|].
  split; [exact Hth|]. rewrite Hth.
  split; [exact Hs|]. split; [exact HN|]. split; [exact Hdu | exact Hdv].
Qed.

Lemma rounded_joint_center :
  circle_center (rounded_joint (Fp A) (Fp B) (Fp C) (Fin r)) = Fp (Fillet.center A B C r).
Proof.
  destruct joint_facts as (HlA & HlC & Hth & Hs & HN & _ & _).
  unfold rounded_joint. cbv zeta. cbn [circle_center].
  rewrite !vsub_Fp.
  change (fst A - fst B, snd A - snd B) with (Fillet.minus A B).
  change (fst C - fst B, snd C - snd B) with (Fillet.minus C B).
  rewrite !norm_Fp.
  change (sqrt (fst (Fillet.minus A B) * fst (Fillet.minus A B)
                + snd (Fillet.minus A B) * snd (Fillet.minus A B)))
    with (Fillet.length (Fillet.minus A B)).
  change (sqrt (fst (Fillet.minus C B) * fst (Fillet.minus C B)
                + snd (Fillet.minus C B) * snd (Fillet.minus C B)))
    with (Fillet.length (Fillet.minus C B)).
  rewrite !vdiv_Fp by lra.
  change (fst (Fillet.minus A B) / Fillet.length (Fillet.minus A B),
          snd (Fillet.minus A B) / Fillet.length (Fillet.minus A B)) with u.
  change (fst (Fillet.minus C B) / Fillet.length (Fillet.minus C B),
          snd (Fillet.minus C B) / Fillet.length (Fillet.minus C B)) with v.
  rewrite dot_Fp, clip_Fin, farccos_Fin by apply clamp_range.
  rewrite fdiv_Fin by lra.
  change (acos (Rmin (Rmax (fst u * fst v + snd u * snd v) (-1)) 1) / 2)
    with (Fillet.half_angle u v).
  rewrite vadd_Fp, norm_Fp.
  change (sqrt (fst (fst u + fst v, snd u + snd v) * fst (fst u + fst v, snd u + snd v)
                + snd (fst u + fst v, snd u + snd v) * snd (fst u + fst v, snd u + snd v)))
    with (Fillet.length (fst u + fst v, snd u + snd v)).
  rewrite vdiv_Fp by lra.
  cbn [fsin]. rewrite fdiv_Fin by lra.
  rewrite vscale_Fp, vadd_Fp. reflexivity.
Qed.

Lemma fillet_center_tangent :
  Plane.line_distance (Fillet.center A B C r) B A = r /\
  Plane.line_distance (Fillet.center A B C r) B C = r.
Proof.
  destruct joint_facts as (HlA & HlC & _ & Hs & HN & Hdu & Hdv).
  set (th := Fillet.half_angle u v) in *.
  set (bis := Fillet.normalize (fst u + fst v, snd u + snd v)) in *.
  destruct (normalize_scale _ HlA) as [HA1 HA2].
  destruct (normalize_scale _ HlC) as [HC1 HC2].
  fold u in HA1, HA2. fold v in HC1, HC2.
  change (fst (Fillet.minus A B)) with (fst A - fst B) in HA1.
  change (snd (Fillet.minus A B)) with (snd A - snd B) in HA2.
  change (fst (Fillet.minus C B)) with (fst C - fst B) in HC1.
  change (snd (Fillet.minus C B)) with (snd C - snd B) in HC2.
  unfold Plane.line_distance.
  change (Plane.dist A B) with (Fillet.length (Fillet.minus A B)).
  change (Plane.dist C B) with (Fillet.length (Fillet.minus C B)).
  unfold Fillet.center. cbv zeta. fold u v. fold th. fold bis. cbn [fst snd].
  rewrite HA1, HA2, HC1, HC2. split.
  - replace ((fst B + r / sin th * fst bis - fst B) * (Fillet.length (Fillet.minus A B) * snd u)
             - (snd B + r / sin th * snd bis - snd B) * (Fillet.length (Fillet.minus A B) * fst u))
      with (Fillet.length (Fillet.minus A B)
            * (r / sin th * fst bis * snd u - r / sin th * snd bis * fst u)) by ring.
    rewrite Rabs_mult, (Rabs_pos_eq _ (Rlt_le _ _ HlA)), Hdu. field. lra.
  - replace ((fst B + r / sin th * fst bis - fst B) * (Fillet.length (Fillet.minus C B) * snd v)
             - (snd B + r / sin th * snd bis - snd B) * (Fillet.length (Fillet.minus C B) * fst v))
      with (Fillet.length (Fillet.minus C B)
            * (r / sin th * fst bis * snd v - r / sin th * snd bis * fst v)) by ring.
    rewrite Rabs_mult, (Rabs_pos_eq _ (Rlt_le _ _ HlC)), Hdv. field. lra.
Qed.

End Joint.

Lemma open_corner_not_collinear (A B C : R * R) :
  Fillet.open_corner A B C ->
  Fillet.cross (Fillet.minus A B) (Fillet.minus C B) <> 0.
Proof.
  unfold Fillet.open_corner. intros H E. rewrite E, Rabs_R0 in H.
  assert (0 <= Fillet.length (Fillet.minus A B) * Fillet.length (Fillet.minus C B))
    by (apply Rmult_le_pos; apply sqrt_pos).
  lra.
Qed.

(** C5: for segments [B A] and [B C] that form an open corner (the sine of
    their angle is above 1/100 in absolute value, which keeps the half-angle
    away from 0 and from 90 degrees) and a positive radius, the computed
    centre is [B + (radius / sin theta) * bisector] with
    [theta = arccos(clamp(u . v, -1, 1)) / 2], and its distance to the line
    [B A] and to the line [B C] is the radius (exactly so in real arithmetic,
    hence within 1e-6). *)
Theorem rounded_joint_tangent (A B C : R * R) (r : R) :
  Fillet.open_corner A B C ->
  0 < r ->
  circle_center (rounded_joint (Fp A) (Fp B) (Fp C) (Fin r))
  = Fp (Fillet.center A B C r) /\
  Plane.line_distance (Fillet.center A B C r) B A = r /\
  Plane.line_distance (Fillet.center A B C r) B C = r /\
  Rabs (Plane.line_distance (Fillet.center A B C r) B A - r) <= 1e-6 /\
  Rabs (Plane.line_distance (Fillet.center A B C r) B C - r) <= 1e-6.
Proof.
  intros Hopen Hr.
  pose proof (open_corner_not_collinear A B C Hopen) as Hcross.
  destruct (fillet_center_tangent A B C r Hcross Hr) as [HA HC].
  split; [now apply rounded_joint_center|].
  split; [exact HA|]. split; [exact HC|].
  rewrite HA, HC, Rminus_diag, Rabs_R0. split; lra.
Qed.

Lemma right_angle_open_corner : Fillet.open_corner (1, 0) (0, 0) (0, 1).
Proof.
  unfold Fillet.open_corner, Fillet.length, Fillet.cross, Fillet.minus; cbn [fst snd].
  replace ((1 - 0) * (1 - 0) + (0 - 0) * (0 - 0)) with 1 by ring.
  replace ((0 - 0) * (0 - 0) + (1 - 0) * (1 - 0)) with 1 by ring.
  replace ((1 - 0) * (1 - 0) - (0 - 0) * (0 - 0)) with 1 by ring.
  rewrite sqrt_1, Rabs_R1. lra.
Qed.

Lemma rounded_joint_tangent_witness :
  Fillet.open_corner (1, 0) (0, 0) (0, 1) /\
  0 < 0.3 /\
  circle_center (rounded_joint (Fp (1, 0)) (Fp (0, 0)) (Fp (0, 1)) (Fin 0.3))
  = Fp (Fillet.center (1, 0) (0, 0) (0, 1) 0.3) /\
  Plane.line_distance (Fillet.center (1, 0) (0, 0) (0, 1) 0.3) (0, 0) (1, 0) = 0.3 /\
  Plane.line_distance (Fillet.center (1, 0) (0, 0) (0, 1) 0.3) (0, 0) (0, 1) = 0.3 /\
  Rabs (Plane.line_distance (Fillet.center (1, 0) (0, 0) (0, 1) 0.3) (0, 0) (1, 0) - 0.3)
  <= 1e-6 /\
  Rabs (Plane.line_distance (Fillet.center (1, 0) (0, 0) (0, 1) 0.3) (0, 0) (0, 1) - 0.3)
  <= 1e-6.
Proof.
  split; [exact right_angle_open_corner|]. split; [lra|].
  apply (rounded_joint_tangent (1, 0) (0, 0) (0, 1) 0.3);
    [exact right_angle_open_corner | lra].
Defined.

(** *** The degenerate joint *)










(** *** The joint as the emblem runs it *)

Lemma cos_300_degrees : cos (2 * (150 * (PI / 180))) = 1 / 2.
Proof.
  replace (2 * (150 * (PI / 180))) with (2 * PI - PI / 3) by field.
  rewrite cos_minus, cos_2PI, sin_2PI, cos_PI3. ring.
Qed.

Lemma sin_300_degrees : sin (2 * (150 * (PI / 180))) = - (sqrt 3 / 2).
Proof.
  replace (2 * (150 * (PI / 180))) with (2 * PI - PI / 3) by field.
  rewrite sin_minus, cos_2PI, sin_2PI, sin_PI3. ring.
Qed.

Lemma sqrt_3_lower : 1.7 < sqrt 3.
Proof.
  rewrite <- (sqrt_square 1.7) by lra. apply sqrt_lt_1; lra.
Qed.

Lemma emblem_joint_not_collinear (t : R) :
  0.06 < t ->
  Fillet.cross (Fillet.minus (-0.1, t) (-0.1, 0))
               (Fillet.minus (EmblemRef.mirror_150 (-0.1, t)) (-0.1, 0)) <> 0.
Proof.
  intros Ht. pose proof sqrt_3_lower as H3.
  unfold Fillet.cross, Fillet.minus, EmblemRef.mirror_150; cbn [fst snd].
  assert (0 < (sqrt 3 - 1.7) * t) by (apply Rmult_lt_0_compat; lra).
  assert (0 < t * (sqrt 3 / 2 * t - 0.05)) by (apply Rmult_lt_0_compat; lra).
  lra.
Qed.

(** With the contact point at height [t] on [seg4] (the program's is between
    0.3 and 1), the emblem's joint of radius 0.3 touches both of its lines. *)
Lemma emblem_joint_tangent (t : R) :
  0.06 < t ->
  let A := (-0.1, t) in
  let B := (-0.1, 0) in
  let C := EmblemRef.mirror_150 A in
  circle_center (emblem_joint (Fp A)) = Fp (Fillet.center A B C 0.3) /\
  Plane.line_distance (Fillet.center A B C 0.3) B A = 0.3 /\
  Plane.line_distance (Fillet.center A B C 0.3) B C = 0.3.
Proof.
  intros Ht. cbv zeta.
  pose proof (emblem_joint_not_collinear t Ht) as Hcross.
  assert (Hr : 0 < 0.3) by lra.
  split; [|exact (fillet_center_tangent _ _ _ 0.3 Hcross Hr)].
  unfold emblem_joint. cbv zeta. rewrite reflect_map. cbn [map nth].
  rewrite reflect_point_Fin, cos_300_degrees, sin_300_degrees.
  change (snd Emblem.seg4_pts) with (Fp (-0.1, 0)). unfold Emblem.R_joint.
  replace (Fp (1 / 2 * -0.1 + - (sqrt 3 / 2) * t, - (sqrt 3 / 2) * -0.1 - 1 / 2 * t))
    with (Fp (EmblemRef.mirror_150 (-0.1, t))).
  - now apply rounded_joint_center.
  - unfold EmblemRef.mirror_150, Fp; cbn [fst snd]. f_equal; f_equal; ring.
Qed.

(** * Further properties *)

(** ** Rotations and reflections as rigid motions *)

Lemma rotate_point_Fp (a : R) (c p : R * R) :
  rotate_point (Fin a) (Fp c) (Fp p) = Fp (Rigid.rotation a c p).
Proof.
  unfold rotate_point, radians, vadd, vsub, Rigid.rotation, Rigid.rad, Fp.
  cbn [fst snd fmul fadd fsub fopp fcos fsin]. f_equal; f_equal; ring.
Qed.

Lemma rotate_Fp (a : R) (c : R * R) (pts : list (R * R)) :
  rotate (map Fp pts) (Fin a) (Fp c) = map Fp (map (Rigid.rotation a c) pts).
Proof.
  rewrite rotate_map, !map_map. apply map_ext. intros p. apply rotate_point_Fp.
Qed.

Lemma reflect_Fp (a : R) (pts : list (R * R)) :
  reflect (map Fp pts) (Fin a) = map Fp (map (Rigid.reflection a) pts).
Proof.
  rewrite reflect_map, !map_map. apply map_ext. intros [x y].
  rewrite reflect_point_Fin. reflexivity.
Qed.

Lemma sq_sum_rotation (x y c s : R) :
  s * s + c * c = 1 ->
  (x * c - y * s) * (x * c - y * s) + (x * s + y * c) * (x * s + y * c) = x * x + y * y.
Proof.
  intros H.
  replace ((x * c - y * s) * (x * c - y * s) + (x * s + y * c) * (x * s + y * c))
    with ((s * s + c * c) * (x * x + y * y)) by ring.
  rewrite H. ring.
Qed.

Lemma rotation_isometry (a : R) (c : R * R) : Rigid.isometry (Rigid.rotation a c).
Proof.
  intros p q. unfold Plane.dist, Rigid.rotation; cbn [fst snd]. f_equal.
  pose proof (sin2_cos2 (Rigid.rad a)) as H. unfold Rsqr in H.
  rewrite <- (sq_sum_rotation (fst p - fst q) (snd p - snd q) _ _ H). ring.
Qed.

Lemma sq_sum_reflection (x y c s : R) :
  s * s + c * c = 1 ->
  (c * x + s * y) * (c * x + s * y) + (s * x - c * y) * (s * x - c * y) = x * x + y * y.
Proof.
  intros H.
  replace ((c * x + s * y) * (c * x + s * y) + (s * x - c * y) * (s * x - c * y))
    with ((s * s + c * c) * (x * x + y * y)) by ring.
  rewrite H. ring.
Qed.

Lemma reflection_isometry (a : R) : Rigid.isometry (Rigid.reflection a).
Proof.
  intros p q. unfold Plane.dist, Rigid.reflection; cbn [fst snd]. f_equal.
  pose proof (sin2_cos2 (2 * Rigid.rad a)) as H. unfold Rsqr in H.
  rewrite <- (sq_sum_reflection (fst p - fst q) (snd p - snd q) _ _ H). ring.
Qed.

(** X1: on finite points, [rotate] about any centre is a rigid motion: it keeps
    the distance between any two points and leaves the centre where it is. *)
Theorem rotate_rigid (a : R) (c : R * R) (pts : list (R * R)) :
  rotate (map Fp pts) (Fin a) (Fp c) = map Fp (map (Rigid.rotation a c) pts) /\
  Rigid.isometry (Rigid.rotation a c) /\
  rotate [Fp c] (Fin a) (Fp c) = [Fp c].
Proof.
  split; [apply rotate_Fp|]. split; [apply rotation_isometry|].
  change [Fp c] with (map Fp [c]). rewrite rotate_Fp. cbn [map]. do 2 f_equal.
  unfold Rigid.rotation. destruct c as [cx cy]; cbn [fst snd]. f_equal; ring.
Qed.

(** X2: on finite points, a rotation by 360 degrees, and one by 0 degrees,
    give back the points. *)
Theorem rotate_full_turn (c : R * R) (pts : list (R * R)) :
  rotate (map Fp pts) (Fin 360) (Fp c) = map Fp pts /\
  rotate (map Fp pts) (Fin 0) (Fp c) = map Fp pts.
Proof.
  rewrite !rotate_Fp. split; f_equal; rewrite <- (map_id pts) at 2;
    apply map_ext; intros [x y]; unfold Rigid.rotation, Rigid.rad; cbn [fst snd].
  - replace (360 * (PI / 180)) with (2 * PI) by field.
    rewrite cos_2PI, sin_2PI. f_equal; ring.
  - replace (0 * (PI / 180)) with 0 by field.
    rewrite cos_0, sin_0. f_equal; ring.
Qed.

(** X3: on finite points, two rotations about the same centre compose into
    the rotation by the sum of the angles. *)
Theorem rotate_compose (a b : R) (c : R * R) (pts : list (R * R)) :
  rotate (rotate (map Fp pts) (Fin a) (Fp c)) (Fin b) (Fp c)
  = rotate (map Fp pts) (Fin (a + b)) (Fp c).
Proof.
  rewrite !rotate_Fp. f_equal. rewrite map_map. apply map_ext. intros [x y].
  unfold Rigid.rotation, Rigid.rad; cbn [fst snd].
  replace ((a + b) * (PI / 180)) with (a * (PI / 180) + b * (PI / 180)) by ring.
  rewrite cos_plus, sin_plus. f_equal; ring.
Qed.

(** X4: on finite points, [reflect] is the mirror image in the line through
    the origin at the given angle: it keeps the distance between any two
    points and leaves every point of that line where it is. *)
Theorem reflect_rigid (a : R) (pts : list (R * R)) :
  reflect (map Fp pts) (Fin a) = map Fp (map (Rigid.reflection a) pts) /\
  Rigid.isometry (Rigid.reflection a) /\
  forall t : R,
    reflect [Fp (t * cos (Rigid.rad a), t * sin (Rigid.rad a))] (Fin a)
    = [Fp (t * cos (Rigid.rad a), t * sin (Rigid.rad a))].
Proof.
  split; [apply reflect_Fp|]. split; [apply reflection_isometry|].
  intros t.
  change [Fp (t * cos (Rigid.rad a), t * sin (Rigid.rad a))]
    with (map Fp [(t * cos (Rigid.rad a), t * sin (Rigid.rad a))]).
  rewrite reflect_Fp. cbn [map]. do 2 f_equal.
  unfold Rigid.reflection; cbn [fst snd]. rewrite cos_2a, sin_2a.
  pose proof (sin2_cos2 (Rigid.rad a)) as H. unfold Rsqr in H.
  set (cs := cos (Rigid.rad a)) in *. set (sn := sin (Rigid.rad a)) in *.
  f_equal.
  - replace ((cs * cs - sn * sn) * (t * cs) + 2 * sn * cs * (t * sn))
      with (t * cs * (sn * sn + cs * cs)) by ring.
    rewrite H. ring.
  - replace (2 * sn * cs * (t * cs) - (cs * cs - sn * sn) * (t * sn))
      with (t * sn * (sn * sn + cs * cs)) by ring.
    rewrite H. ring.
Qed.

(** ** The overlay and the emblem under rotation *)

Lemma rotation_zero (c p : R * R) : Rigid.rotation 0 c p = p.
Proof.
  destruct p as [x y]. unfold Rigid.rotation, Rigid.rad; cbn [fst snd].
  replace (0 * (PI / 180)) with 0 by field. rewrite cos_0, sin_0. f_equal; ring.
Qed.

Lemma rotation_full (c p : R * R) : Rigid.rotation 360 c p = p.
Proof.
  destruct p as [x y]. unfold Rigid.rotation, Rigid.rad; cbn [fst snd].
  replace (360 * (PI / 180)) with (2 * PI) by field.
  rewrite cos_2PI, sin_2PI. f_equal; ring.
Qed.

Lemma rotation_add (a b : R) (c p : R * R) :
  Rigid.rotation b c (Rigid.rotation a c p) = Rigid.rotation (a + b) c p.
Proof.
  destruct p as [x y]. unfold Rigid.rotation, Rigid.rad; cbn [fst snd].
  replace ((a + b) * (PI / 180)) with (a * (PI / 180) + b * (PI / 180)) by ring.
  rewrite cos_plus, sin_plus. f_equal; ring.
Qed.

Lemma map_rotation_zero (c : R * R) (pts : list (R * R)) :
  map (Rigid.rotation 0 c) pts = pts.
Proof.
  rewrite <- (map_id pts) at 2. apply map_ext. intros p. apply rotation_zero.
Qed.

Lemma rotated_airfoils_map (n : nat) (airfoil : curve) :
  n <> 0%nat ->
  rotated_airfoils n airfoil
  = Returns (map (fun i => rotate airfoil (Fin (INR i * (360 / INR n))) origin)
               (seq 0 n)).
Proof.
  intros Hn. unfold rotated_airfoils.
  destruct (Nat.eqb_spec n 0) as [E|_]; [contradiction|].
  rewrite fdiv_Fin by (now apply not_0_INR).
  rewrite (fold_left_append_map
             (fun i => rotate airfoil (Fin (INR i) * Fin (360 / INR n))%f64 origin)).
  reflexivity.
Qed.

Lemma overlay_curves_shape (n : nat) (airfoil : curve) :
  (1 <= n)%nat ->
  exists curves,
    overlay_curves n airfoil = Returns curves /\
    length curves = n /\
    forall cv, In cv curves -> length cv = length airfoil.
Proof.
  intros Hn. unfold overlay_curves. destruct (Nat.eqb_spec n 1) as [->|H1].
  - exists [airfoil]. split; [reflexivity|]. split; [reflexivity|].
    intros cv [<-|[]]. reflexivity.
  - rewrite rotated_airfoils_map by lia. eexists. split; [reflexivity|].
    split; [now rewrite length_map, length_seq|].
    intros cv Hcv. apply in_map_iff in Hcv. destruct Hcv as (i & <- & _).
    unfold rotate. apply length_map.
Qed.

(** X5: for [n >= 1] revolutions the overlay has [n] curves, each with as
    many points as the airfoil; with [n = 0] the computation of the angle step
    raises ZeroDivisionError, in the drawing and in the export alike. *)
Theorem overlay_curves_count (airfoil : curve) (revolution : list curve) :
  (forall n, (1 <= n)%nat ->
     exists curves,
       overlay_curves n airfoil = Returns curves /\
       length curves = n /\
       forall cv, In cv curves -> length cv = length airfoil) /\
  overlay_curves 0 airfoil = Raises ZeroDivisionError /\
  export_all_points revolution 0 airfoil = Raises ZeroDivisionError.
Proof.
  split; [|split; reflexivity].
  intros n Hn. now apply overlay_curves_shape.
Qed.

Lemma overlay_curves_count_witness :
  (1 <= 3)%nat /\
  exists curves,
    overlay_curves 3 [origin; (Fin 1, Fin 0)] = Returns curves /\
    length curves = 3%nat /\
    forall cv, In cv curves -> length cv = length [origin; (Fin 1, Fin 0)].
Proof.
  split; [lia|].
  apply (proj1 (overlay_curves_count [origin; (Fin 1, Fin 0)] []) 3%nat). lia.
Defined.

Lemma overlay_curves_Fp (n : nat) (pts : list (R * R)) :
  (1 <= n)%nat ->
  overlay_curves n (map Fp pts)
  = Returns (map (fun i => map Fp (map (Rigid.rotation (INR i * (360 / INR n)) (0, 0)) pts))
               (seq 0 n)).
Proof.
  intros Hn. unfold overlay_curves. destruct (Nat.eqb_spec n 1) as [->|H1].
  - cbn [seq map INR]. rewrite Rmult_0_l, map_rotation_zero. reflexivity.
  - rewrite rotated_airfoils_map by lia. f_equal. apply map_ext. intros i.
    change origin with (Fp (0, 0)). apply rotate_Fp.
Qed.

(** X6: on a finite airfoil and for every [n >= 1], the overlay is the list of
    the [n] copies of the airfoil rotated about the origin by [i * 360 / n]
    degrees, [i = 0 .. n-1]; the unrotated branch taken at [n = 1] is the
    [n = 1] case of the same formula. *)
Theorem overlay_curves_rotations (n : nat) (pts : list (R * R)) :
  (1 <= n)%nat ->
  overlay_curves n (map Fp pts)
  = Returns (map (fun i => map Fp (map (Rigid.rotation (INR i * (360 / INR n)) (0, 0)) pts))
               (seq 0 n)) /\
  rotated_airfoils 1 (map Fp pts) = overlay_curves 1 (map Fp pts).
Proof.
  intros Hn. split; [now apply overlay_curves_Fp|].
  rewrite rotated_airfoils_map by lia. unfold overlay_curves. cbn [Nat.eqb seq map INR].
  change origin with (Fp (0, 0)). rewrite rotate_Fp.
  rewrite Rmult_0_l, map_rotation_zero. reflexivity.
Qed.

Lemma overlay_curves_rotations_witness :
  (1 <= 4)%nat /\
  overlay_curves 4 (map Fp [(1, 0); (0, 2)])
  = Returns (map (fun i => map Fp (map (Rigid.rotation (INR i * (360 / INR 4)) (0, 0))
                                     [(1, 0); (0, 2)]))
               (seq 0 4)).
Proof.
  split; [lia|].
  apply (proj1 (overlay_curves_rotations 4 [(1, 0); (0, 2)] ltac:(lia))).
Defined.

Lemma seq_shift_last (n : nat) : seq 1 n = tl (seq 0 n) ++ match n with O => [] | S _ => [n] end.
Proof.
  destruct n as [|n]; [reflexivity|].
  rewrite seq_S. reflexivity.
Qed.

(** X7: on a finite airfoil, turning the whole overlay by one step of
    [360 / n] degrees gives the same curves again, moved one place round:
    the overlay has n-fold rotational symmetry. *)
Theorem overlay_curves_symmetric (n : nat) (pts : list (R * R)) :
  (1 <= n)%nat ->
  exists curves,
    overlay_curves n (map Fp pts) = Returns curves /\
    map (fun cv => rotate cv (Fin (360 / INR n)) origin) curves
    = tl curves ++ [hd [] curves].
Proof.
  intros Hn. rewrite overlay_curves_Fp by assumption. eexists. split; [reflexivity|].
  assert (Hn0 : INR n <> 0) by (apply not_0_INR; lia).
  rewrite map_map.
  rewrite (map_ext _ (fun i => map Fp (map (Rigid.rotation (INR (S i) * (360 / INR n)) (0, 0)) pts))).
  2:{ intros i. change origin with (Fp (0, 0)). rewrite rotate_Fp. f_equal.
      rewrite map_map. apply map_ext. intros p. rewrite rotation_add. f_equal. rewrite S_INR. ring. }
  rewrite <- (map_map S (fun i => map Fp (map (Rigid.rotation (INR i * (360 / INR n)) (0, 0)) pts))).
  rewrite seq_shift, seq_shift_last.
  destruct n as [|n]; [lia|].
  cbn [seq tl map hd]. rewrite map_app. cbn [map].
  apply f_equal2; [reflexivity|]. do 2 f_equal.
  replace (INR (S n) * (360 / INR (S n))) with 360 by (field; exact Hn0).
  rewrite Rmult_0_l.
  apply map_ext. intros p. now rewrite rotation_full, rotation_zero.
Qed.

Lemma overlay_curves_symmetric_witness :
  (1 <= 3)%nat /\
  exists curves,
    overlay_curves 3 (map Fp [(1, 0)]) = Returns curves /\
    map (fun cv => rotate cv (Fin (360 / INR 3)) origin) curves
    = tl curves ++ [hd [] curves].
Proof.
  split; [lia|]. apply (overlay_curves_symmetric 3 [(1, 0)]). lia.
Defined.

Lemma map_rotation_add (a b : R) (c : R * R) (pts : list (R * R)) :
  map (Rigid.rotation b c) (map (Rigid.rotation a c) pts)
  = map (Rigid.rotation (a + b) c) pts.
Proof. rewrite map_map. apply map_ext. intros p. apply rotation_add. Qed.

Lemma map_rotation_full (c : R * R) (pts : list (R * R)) :
  map (Rigid.rotation 360 c) pts = pts.
Proof.
  rewrite <- (map_id pts) at 2. apply map_ext. intros p. apply rotation_full.
Qed.

(** X8: on finite base paths, the nine contours of the emblem start with the
    three base paths themselves, and turning all nine by 120 degrees about the
    origin gives the same nine contours, moved three places round: the emblem
    has three-fold rotational symmetry. *)
Theorem revolution_paths_symmetric (fc f1 fcr : list (R * R)) :
  let paths := revolution_paths (map Fp fc) (map Fp f1) (map Fp fcr) in
  firstn 3 paths = [map Fp fc; map Fp f1; map Fp fcr] /\
  map (fun cv => rotate cv (Fin 120) origin) paths = skipn 3 paths ++ firstn 3 paths.
Proof.
  cbv zeta. unfold revolution_paths. cbv zeta. rewrite replicate_flat_map.
  cbn [flat_map map app firstn skipn].
  change origin with (Fp (0, 0)). rewrite !rotate_Fp.
  rewrite !map_rotation_zero. split; [reflexivity|].
  rewrite !map_rotation_add.
  replace (120 + 120) with 240 by ring.
  replace (240 + 120) with 360 by ring.
  rewrite !map_rotation_full. reflexivity.
Qed.

Lemma length_concat_uniform {A B : Type} (f : A -> list B) (L : nat) (l : list A) :
  (forall x, In x l -> length (f x) = L) ->
  length (concat (map f l)) = (length l * L)%nat.
Proof.
  induction l as [|x l IH]; intros H; cbn [map concat length]; [reflexivity|].
  rewrite length_app, (H x (or_introl eq_refl)), IH; [reflexivity|].
  intros y Hy. apply H. now right.
Qed.

Lemma export_all_points_tail (revolution : list curve) (n : nat) (airfoil : curve) :
  (1 <= n)%nat ->
  exists tail,
    export_all_points revolution n airfoil = Returns (concat revolution ++ tail) /\
    length tail = (n * length airfoil)%nat.
Proof.
  intros Hn. unfold export_all_points. destruct (Nat.eqb_spec n 1) as [->|H1].
  - eexists. split; [reflexivity|]. lia.
  - rewrite rotated_airfoils_map by lia. cbn [bind].
    eexists. split; [reflexivity|]. unfold curve.
    rewrite (length_concat_uniform
               (fun i => rotate airfoil (Fin (INR i * (360 / INR n))) origin)
               (length airfoil) (seq 0 n)).
    + now rewrite length_seq.
    + intros i _. unfold rotate. apply length_map.
Qed.

Lemma export_all_points_concat (revolution : list curve) (n : nat) (airfoil : curve) :
  (1 <= n)%nat ->
  exists curves,
    overlay_curves n airfoil = Returns curves /\
    export_all_points revolution n airfoil
    = Returns (concat revolution ++ concat curves) /\
    length (concat curves) = (n * length airfoil)%nat.
Proof.
  intros Hn. unfold export_all_points, overlay_curves.
  destruct (Nat.eqb_spec n 1) as [->|H1].
  - exists [airfoil]. cbn [concat]. rewrite app_nil_r.
    split; [reflexivity|]. split; [reflexivity | lia].
  - rewrite rotated_airfoils_map by lia. cbn [bind].
    eexists. split; [reflexivity|]. split; [reflexivity|]. unfold curve.
    rewrite (length_concat_uniform
               (fun i => rotate airfoil (Fin (INR i * (360 / INR n))) origin)
               (length airfoil) (seq 0 n)).
    + now rewrite length_seq.
    + intros i _. unfold rotate. apply length_map.
Qed.

(** X9: for [n >= 1] revolutions the points the export takes its bounds from
    are the points of the emblem's paths followed by the points of the [n]
    overlay curves (the curves [plot_combined] draws), path by path and curve
    by curve in drawing order; their number is the emblem's plus [n] times
    the airfoil's. *)
Theorem export_all_points_overlay (revolution : list curve) (n : nat) (airfoil : curve) :
  (1 <= n)%nat ->
  exists curves,
    overlay_curves n airfoil = Returns curves /\
    export_all_points revolution n airfoil
    = Returns (concat revolution ++ concat curves) /\
    length (concat revolution ++ concat curves)
    = (length (concat revolution) + n * length airfoil)%nat.
Proof.
  intros Hn.
  destruct (export_all_points_concat revolution n airfoil Hn) as (curves & Ho & Ha & Hl).
  exists curves. split; [exact Ho|]. split; [exact Ha|].
  now rewrite length_app, Hl.
Qed.

Lemma export_all_points_overlay_witness :
  (1 <= 2)%nat /\
  exists curves,
    overlay_curves 2 [origin; (Fin 1, Fin 0)] = Returns curves /\
    export_all_points [[origin]] 2 [origin; (Fin 1, Fin 0)]
    = Returns (concat [[origin]] ++ concat curves) /\
    length (concat [[origin]] ++ concat curves)
    = (length (concat [[origin]]) + 2 * length [origin; (Fin 1, Fin 0)])%nat.
Proof.
  split; [lia|].
  apply (export_all_points_overlay [[origin]] 2 [origin; (Fin 1, Fin 0)]). lia.
Defined.

(** ** More on the airfoil *)

Lemma fmul_one_r (z : float64) : (z * Fin 1)%f64 = z.
Proof.
  destruct z as [a|b|]; cbn [fmul]; [f_equal; ring| |reflexivity].
  now rewrite (sign_of_pos 1 Rlt_0_1).
Qed.


(** X10: the scale only multiplies: the arrays returned for a scale [s] are
    the arrays returned for scale 1 with every entry multiplied by [s]. *)
Theorem plot_joukowsky_scale (R x_center y_center scale : float64) :
  plot_joukowsky R x_center y_center scale
  = (map (fun x => (x * scale)%f64) (fst (plot_joukowsky R x_center y_center (Fin 1))),
     map (fun y => (y * scale)%f64) (snd (plot_joukowsky R x_center y_center (Fin 1)))).
Proof.
  unfold plot_joukowsky; cbn [fst snd]. rewrite !map_map.
  f_equal; apply map_ext; intros z; now rewrite fmul_one_r.
Qed.

Lemma circle_off_origin (Rc xc yc theta : R) :
  xc * xc + yc * yc <> Rc * Rc -> Plane.w_of Rc xc yc theta <> (0, 0).
Proof.
  intros Hne E. apply Hne. unfold Plane.w_of in E. injection E as E1 E2.
  pose proof (sin2_cos2 theta) as H. unfold Rsqr in H.
  replace xc with (- (Rc * cos theta)) by lra.
  replace yc with (- (Rc * sin theta)) by lra.
  replace (- (Rc * cos theta) * - (Rc * cos theta) + - (Rc * sin theta) * - (Rc * sin theta))
    with (Rc * Rc * (sin theta * sin theta + cos theta * cos theta)) by ring.
  rewrite H. ring.
Qed.

Lemma plot_joukowsky_nth_components (Rc xc yc scale : R) (k : nat) :
  (k < 400)%nat ->
  Plane.w_of Rc xc yc (Plane.theta_k k) <> (0, 0) ->
  nth k (fst (plot_joukowsky (Fin Rc) (Fin xc) (Fin yc) (Fin scale))) NaN
  = Fin (fst (Plane.airfoil_point Rc xc yc scale (Plane.theta_k k))) /\
  nth k (snd (plot_joukowsky (Fin Rc) (Fin xc) (Fin yc) (Fin scale))) NaN
  = Fin (snd (Plane.airfoil_point Rc xc yc scale (Plane.theta_k k))).
Proof.
  intros Hk Hw. pose proof (plot_joukowsky_nth_valid Rc xc yc scale k Hk Hw) as H.
  remember (fst (plot_joukowsky (Fin Rc) (Fin xc) (Fin yc) (Fin scale))) as xs.
  remember (snd (plot_joukowsky (Fin Rc) (Fin xc) (Fin yc) (Fin scale))) as ys.
  clear Heqxs Heqys. unfold Fp in H. injection H as Hx Hy. now split.
Qed.

(** X11: when the centre of the generating circle is not at distance [R] from
    the origin (the circle misses the origin), all 400 points returned are
    finite. *)
Theorem plot_joukowsky_finite (Rc xc yc scale : R) :
  xc * xc + yc * yc <> Rc * Rc ->
  forall k, (k < 400)%nat ->
    is_finite (nth k (fst (plot_joukowsky (Fin Rc) (Fin xc) (Fin yc) (Fin scale))) NaN) /\
    is_finite (nth k (snd (plot_joukowsky (Fin Rc) (Fin xc) (Fin yc) (Fin scale))) NaN).
Proof.
  intros Hne k Hk.
  destruct (plot_joukowsky_nth_components Rc xc yc scale k Hk
              (circle_off_origin Rc xc yc _ Hne)) as [Hx Hy].
  rewrite Hx, Hy. split; exact I.
Qed.

Lemma plot_joukowsky_finite_witness :
  (-0.1) * (-0.1) + 0.23 * 0.23 <> 0.85 * 0.85 /\
  forall k, (k < 400)%nat ->
    is_finite (nth k (fst (plot_joukowsky (Fin 0.85) (Fin (-0.1)) (Fin 0.23) (Fin 1))) NaN) /\
    is_finite (nth k (snd (plot_joukowsky (Fin 0.85) (Fin (-0.1)) (Fin 0.23) (Fin 1))) NaN).
Proof.
  assert (H : (-0.1) * (-0.1) + 0.23 * 0.23 <> 0.85 * 0.85) by lra.
  split; [exact H|]. exact (plot_joukowsky_finite 0.85 (-0.1) 0.23 1 H).
Defined.

(** X12: with the circle centred at the origin the airfoil collapses to the
    flat plate: every y is 0 and the k-th x is [2 R scale cos theta_k]. *)
Theorem plot_joukowsky_flat_plate (Rc scale : R) (k : nat) :
  Rc <> 0 -> (k < 400)%nat ->
  nth k (fst (plot_joukowsky (Fin Rc) (Fin 0) (Fin 0) (Fin scale))) NaN
  = Fin (2 * Rc * scale * cos (Plane.theta_k k)) /\
  nth k (snd (plot_joukowsky (Fin Rc) (Fin 0) (Fin 0) (Fin scale))) NaN = Fin 0.
Proof.
  intros HR Hk.
  assert (Hne : 0 * 0 + 0 * 0 <> Rc * Rc) by nra.
  destruct (plot_joukowsky_nth_components Rc 0 0 scale k Hk
              (circle_off_origin Rc 0 0 _ Hne)) as [Hx Hy].
  rewrite Hx, Hy.
  unfold Plane.airfoil_point, Plane.w_of, Plane.Cadd, Plane.Cdiv; cbn [fst snd].
  pose proof (sin2_cos2 (Plane.theta_k k)) as Hsc. unfold Rsqr in Hsc.
  set (c := cos (Plane.theta_k k)) in *. set (s := sin (Plane.theta_k k)) in *.
  assert (Hm : (0 + Rc * c) * (0 + Rc * c) + (0 + Rc * s) * (0 + Rc * s) = Rc * Rc).
  { replace ((0 + Rc * c) * (0 + Rc * c) + (0 + Rc * s) * (0 + Rc * s))
      with (Rc * Rc * (s * s + c * c)) by ring.
    rewrite Hsc. ring. }
  rewrite Hm. split; f_equal; field; exact HR.
Qed.

Lemma plot_joukowsky_flat_plate_witness :
  1 <> 0 /\ (0 < 400)%nat /\
  nth 0 (fst (plot_joukowsky (Fin 1) (Fin 0) (Fin 0) (Fin 1))) NaN
  = Fin (2 * 1 * 1 * cos (Plane.theta_k 0)) /\
  nth 0 (snd (plot_joukowsky (Fin 1) (Fin 0) (Fin 0) (Fin 1))) NaN = Fin 0.
Proof.
  split; [lra|]. split; [lia|].
  apply (plot_joukowsky_flat_plate 1 1 0); [lra | lia].
Defined.

(** X13: the curve closes up: when the first sample is off the origin, the
    last of the 400 points is the first one (rounding aside). *)
Theorem plot_joukowsky_closed (Rc xc yc scale : R) :
  (xc + Rc, yc) <> (0, 0) ->
  exists x y,
    nth 0 (fst (plot_joukowsky (Fin Rc) (Fin xc) (Fin yc) (Fin scale))) NaN = Fin x /\
    nth 399 (fst (plot_joukowsky (Fin Rc) (Fin xc) (Fin yc) (Fin scale))) NaN = Fin x /\
    nth 0 (snd (plot_joukowsky (Fin Rc) (Fin xc) (Fin yc) (Fin scale))) NaN = Fin y /\
    nth 399 (snd (plot_joukowsky (Fin Rc) (Fin xc) (Fin yc) (Fin scale))) NaN = Fin y.
Proof.
  intros Hw.
  assert (Hw0 : Plane.w_of Rc xc yc (Plane.theta_k 0) <> (0, 0)).
  { rewrite theta_k_0. unfold Plane.w_of. rewrite cos_0, sin_0.
    intros E. apply Hw. injection E as E1 E2. f_equal; lra. }
  assert (Hw1 : Plane.w_of Rc xc yc (Plane.theta_k 399) <> (0, 0)).
  { rewrite theta_k_last. unfold Plane.w_of. rewrite cos_2PI, sin_2PI.
    intros E. apply Hw. injection E as E1 E2. f_equal; lra. }
  destruct (plot_joukowsky_nth_components Rc xc yc scale 0 (Nat.lt_0_succ _) Hw0)
    as [H0x H0y].
  destruct (plot_joukowsky_nth_components Rc xc yc scale 399 (Nat.lt_succ_diag_r _) Hw1)
    as [H1x H1y].
  assert (E : Plane.airfoil_point Rc xc yc scale (Plane.theta_k 399)
              = Plane.airfoil_point Rc xc yc scale (Plane.theta_k 0)).
  { rewrite theta_k_last, theta_k_0. unfold Plane.airfoil_point, Plane.w_of.
    now rewrite cos_2PI, sin_2PI, cos_0, sin_0. }
  rewrite E in H1x, H1y.
  eexists; eexists. split; [exact H0x|]. split; [exact H1x|]. split; [exact H0y | exact H1y].
Qed.

Lemma plot_joukowsky_closed_witness :
  (-0.1 + 0.85, 0.23) <> (0, 0) /\
  exists x y,
    nth 0 (fst (plot_joukowsky (Fin 0.85) (Fin (-0.1)) (Fin 0.23) (Fin 1))) NaN = Fin x /\
    nth 399 (fst (plot_joukowsky (Fin 0.85) (Fin (-0.1)) (Fin 0.23) (Fin 1))) NaN = Fin x /\
    nth 0 (snd (plot_joukowsky (Fin 0.85) (Fin (-0.1)) (Fin 0.23) (Fin 1))) NaN = Fin y /\
    nth 399 (snd (plot_joukowsky (Fin 0.85) (Fin (-0.1)) (Fin 0.23) (Fin 1))) NaN = Fin y.
Proof.
  assert (H : (-0.1 + 0.85, 0.23) <> (0, 0)) by (intros E; injection E as E1 E2; lra).
  split; [exact H|]. exact (plot_joukowsky_closed 0.85 (-0.1) 0.23 1 H).
Defined.

(** ** The export: bounds, NaN, and the document *)


(** X14: on a non-empty set of finite points every point lies strictly inside
    the exported viewBox, at least the padding 0.2 away from its border; the
    background rectangle is the viewBox and the pixel size is 300 times its
    width and height. *)
Theorem export_frame_contains (pts : list (R * R)) :
  pts <> [] ->
  exists vx vy w h fr,
    export_frame (map Fp pts) = Returns fr /\
    viewBox fr = (Fin vx, Fin vy, Fin w, Fin h) /\
    background_insert fr = (Fin vx, Fin vy) /\
    background_size fr = (Fin w, Fin h) /\
    size_px fr = (Fin (w * 300), Fin (h * 300)) /\
    forall p, In p pts ->
      vx + 0.2 <= fst p <= vx + w - 0.2 /\ vy + 0.2 <= snd p <= vy + h - 0.2.
Proof.
  intros Hne.
  assert (Hx : map fst pts <> []) by (destruct pts; [congruence | discriminate]).
  assert (Hy : map snd pts <> []) by (destruct pts; [congruence | discriminate]).
  destruct (amin_Fin _ Hx) as (min_x & Eminx & _ & Hminx).
  destruct (amin_Fin _ Hy) as (min_y & Eminy & _ & Hminy).
  destruct (amax_Fin _ Hx) as (max_x & Emaxx & _ & Hmaxx).
  destruct (amax_Fin _ Hy) as (max_y & Emaxy & _ & Hmaxy).
  exists (min_x - 0.2), (min_y - 0.2), (max_x - min_x + 2 * 0.2), (max_y - min_y + 2 * 0.2).
  eexists. split.
  - unfold export_frame. rewrite map_fst_Fp, map_snd_Fp, Eminx, Eminy, Emaxx, Emaxy.
    cbn [bind]. reflexivity.
  - cbn [viewBox background_insert background_size size_px].
    unfold padding, pixels_per_unit. cbn [fsub fadd fopp fmul].
    split; [reflexivity|]. split; [reflexivity|]. split; [reflexivity|].
    split; [reflexivity|].
    intros p Hp.
    pose proof (Hminx (fst p) (in_map fst _ _ Hp)).
    pose proof (Hmaxx (fst p) (in_map fst _ _ Hp)).
    pose proof (Hminy (snd p) (in_map snd _ _ Hp)).
    pose proof (Hmaxy (snd p) (in_map snd _ _ Hp)).
    lra.
Qed.

Lemma export_frame_contains_witness :
  [(0, 0); (1, 2)] <> [] /\
  exists vx vy w h fr,
    export_frame (map Fp [(0, 0); (1, 2)]) = Returns fr /\
    viewBox fr = (Fin vx, Fin vy, Fin w, Fin h) /\
    background_insert fr = (Fin vx, Fin vy) /\
    background_size fr = (Fin w, Fin h) /\
    size_px fr = (Fin (w * 300), Fin (h * 300)) /\
    forall p, In p [(0, 0); (1, 2)] ->
      vx + 0.2 <= fst p <= vx + w - 0.2 /\ vy + 0.2 <= snd p <= vy + h - 0.2.
Proof.
  split; [discriminate|]. apply (export_frame_contains [(0, 0); (1, 2)]). discriminate.
Defined.

Lemma amin_returns (l : list float64) : l <> [] -> exists m, amin l = Returns m.
Proof. destruct l as [|x t]; [congruence|]. intros _. now eexists. Qed.

Lemma amax_returns (l : list float64) : l <> [] -> exists m, amax l = Returns m.
Proof. destruct l as [|x t]; [congruence|]. intros _. now eexists. Qed.

Lemma export_frame_nonempty (all_points : list point) :
  all_points <> [] -> exists fr, export_frame all_points = Returns fr.
Proof.
  destruct all_points as [|p t]; [congruence|]. intros _.
  unfold export_frame. cbn [map amin amax bind]. now eexists.
Qed.

(** The bounds computation fails exactly on the empty point set, with
    numpy's ValueError; on any other point set, finite or not, it returns. *)
Theorem export_frame_empty (all_points : list point) :
  (all_points = [] <-> export_frame all_points = Raises ValueError) /\
  (all_points <> [] <-> exists fr, export_frame all_points = Returns fr).
Proof.
  destruct all_points as [|p t].
  - split; split; try reflexivity; try congruence.
    intros [fr H]. discriminate H.
  - split; split; try discriminate; try congruence.
    intros _. unfold export_frame. cbn [map amin amax bind]. now eexists.
Qed.

Lemma fminimum_NaN_r (x : float64) : fminimum x NaN = NaN.
Proof. destruct x; reflexivity. Qed.

Lemma fmaximum_NaN_r (x : float64) : fmaximum x NaN = NaN.
Proof. destruct x; reflexivity. Qed.

Lemma fold_fminimum_NaN (t : list float64) : fold_left fminimum t NaN = NaN.
Proof. induction t as [|y t IH]; [reflexivity | exact IH]. Qed.

Lemma fold_fmaximum_NaN (t : list float64) : fold_left fmaximum t NaN = NaN.
Proof. induction t as [|y t IH]; [reflexivity | exact IH]. Qed.

Lemma amin_NaN (l : list float64) : In NaN l -> amin l = Returns NaN.
Proof.
  destruct l as [|x t]; [intros []|]. cbn [amin]. intros H. f_equal.
  revert x H. induction t as [|y t IH]; intros x [E|H].
  - now subst.
  - destruct H.
  - subst. apply fold_fminimum_NaN.
  - cbn [fold_left]. destruct H as [E|H].
    + subst y. rewrite fminimum_NaN_r. apply fold_fminimum_NaN.
    + apply IH. now right.
Qed.

Lemma amax_NaN (l : list float64) : In NaN l -> amax l = Returns NaN.
Proof.
  destruct l as [|x t]; [intros []|]. cbn [amax]. intros H. f_equal.
  revert x H. induction t as [|y t IH]; intros x [E|H].
  - now subst.
  - destruct H.
  - subst. apply fold_fmaximum_NaN.
  - cbn [fold_left]. destruct H as [E|H].
    + subst y. rewrite fmaximum_NaN_r. apply fold_fmaximum_NaN.
    + apply IH. now right.
Qed.

Lemma export_frame_NaN_y (all_points : list point) (p : point) :
  In p all_points -> snd p = NaN ->
  exists fr vx w,
    export_frame all_points = Returns fr /\ viewBox fr = (vx, NaN, w, NaN) /\
    snd (size_px fr) = NaN.
Proof.
  intros Hin Hnan.
  assert (Hne : map fst all_points <> []).
  { destruct all_points; [destruct Hin | discriminate]. }
  destruct (amin_returns _ Hne) as (min_x & Eminx).
  destruct (amax_returns _ Hne) as (max_x & Emaxx).
  assert (HinN : In NaN (map snd all_points)).
  { rewrite <- Hnan. now apply in_map. }
  unfold export_frame. rewrite Eminx, Emaxx, (amin_NaN _ HinN), (amax_NaN _ HinN).
  cbn [bind]. eexists; eexists; eexists.
  split; [reflexivity|]. split; reflexivity.
Qed.

Lemma airfoil_points_combine (R xc yc scale y_offset : float64) :
  airfoil_points R xc yc scale y_offset
  = combine (fst (plot_joukowsky R xc yc scale))
            (map (fun yk => (yk + y_offset)%f64) (snd (plot_joukowsky R xc yc scale))).
Proof.
  unfold airfoil_points. destruct (plot_joukowsky R xc yc scale) as [x y]. reflexivity.
Qed.

Lemma airfoil_points_length (R xc yc scale y_offset : float64) :
  length (airfoil_points R xc yc scale y_offset) = 400%nat.
Proof.
  rewrite airfoil_points_combine. unfold point. rewrite length_combine, length_map.
  destruct (plot_joukowsky_length R xc yc scale) as [-> ->]. reflexivity.
Qed.

Lemma airfoil_points_nth (R xc yc scale y_offset : float64) (k : nat) :
  (k < 400)%nat ->
  nth k (airfoil_points R xc yc scale y_offset) (NaN, NaN)
  = (nth k (fst (plot_joukowsky R xc yc scale)) NaN,
     (nth k (snd (plot_joukowsky R xc yc scale)) NaN + y_offset)%f64).
Proof.
  intros Hk. rewrite airfoil_points_combine.
  destruct (plot_joukowsky_length R xc yc scale) as [Lx Ly].
  unfold point. rewrite combine_nth by (now rewrite length_map, Lx, Ly).
  rewrite (nth_map_lt (fun yk => (yk + y_offset)%f64) _ k NaN NaN) by (now rewrite Ly).
  reflexivity.
Qed.

Lemma fadd_NaN_r (x : float64) : (x + NaN)%f64 = NaN.
Proof. destruct x; reflexivity. Qed.

Lemma rotate_point_NaN_y (a : float64) (c p : point) :
  snd p = NaN -> snd (rotate_point a c p) = NaN.
Proof.
  intros H. unfold rotate_point, vadd, vsub; cbn [fst snd]. rewrite H.
  change (NaN - snd c)%f64 with NaN. change (NaN * fcos (radians a))%f64 with NaN.
  now rewrite fadd_NaN_r.
Qed.

Lemma export_all_points_In (revolution : list curve) (n : nat) (airfoil : curve) (p : point) :
  (1 <= n)%nat -> In p airfoil -> snd p = NaN ->
  exists all_points q,
    export_all_points revolution n airfoil = Returns all_points /\
    In q all_points /\ snd q = NaN.
Proof.
  intros Hn Hin Hnan. unfold export_all_points. destruct (Nat.eqb_spec n 1) as [->|H1].
  - eexists; exists p. split; [reflexivity|]. split; [|exact Hnan].
    apply in_or_app. now right.
  - rewrite rotated_airfoils_map by lia. cbn [bind].
    eexists; exists (rotate_point (Fin (INR 0 * (360 / INR n))) origin p).
    split; [reflexivity|]. split; [|now apply rotate_point_NaN_y].
    apply in_or_app. right. apply in_concat.
    exists (rotate airfoil (Fin (INR 0 * (360 / INR n))) origin). split.
    + apply in_map_iff. exists 0%nat. split; [reflexivity|]. apply in_seq. lia.
    + rewrite rotate_map. now apply in_map.
Qed.

Lemma blue_paths_loop (revolution : list curve) (dwg : list svg_element) :
  fold_left
    (fun dwg path_ =>
       dwg ++ [path (points_to_path path_) blue (Fin 0.01) none (Some (Fin 0.6))])
    revolution dwg
  = dwg ++ map (fun c => path (points_to_path c) blue (Fin 0.01) none (Some (Fin 0.6)))
             revolution.
Proof.
  apply (fold_left_append_map
           (fun c => path (points_to_path c) blue (Fin 0.01) none (Some (Fin 0.6)))).
Qed.

(** The elements [export_to_svg] emits once the bounds are known. *)
Lemma export_to_svg_elements (revolution : list curve)
  (R xc yc scale y_offset : float64) (n : nat) (all_points : list point) (fr : svg_frame) :
  (1 <= n)%nat ->
  export_all_points revolution n (airfoil_points R xc yc scale y_offset)
  = Returns all_points ->
  export_frame all_points = Returns fr ->
  exists curves,
    overlay_curves n (airfoil_points R xc yc scale y_offset) = Returns curves /\
    export_to_svg revolution R xc yc scale y_offset n
    = Returns
        {| frame := fr;
           elements :=
             rect (background_insert fr) (background_size fr) (solid white)
             :: map (fun c => path (points_to_path c) blue (Fin 0.01) none (Some (Fin 0.6)))
                  revolution
             ++ map (fun c => path (points_to_path c) red (Fin 0.015) none
                                (if (n =? 1)%nat then None else Some (Fin 0.8)))
                  curves
             ++ [text n (label_insert fr) (Fin 0.1) (solid gray)] |}.
Proof.
  intros Hn Hall Hfr. unfold export_to_svg. cbv zeta.
  rewrite Hall. cbn [bind]. rewrite Hfr. cbn [bind].
  rewrite blue_paths_loop. unfold overlay_curves.
  destruct (Nat.eqb_spec n 1) as [->|H1].
  - exists [airfoil_points R xc yc scale y_offset]. split; [reflexivity|].
    cbn [bind map app]. do 2 f_equal. now rewrite <- !app_assoc.
  - destruct (Nat.eqb_spec n 0) as [->|H0]; [lia|].
    rewrite rotated_airfoils_map by lia. eexists. split; [reflexivity|].
    cbn [bind]. rewrite fdiv_Fin by (now apply not_0_INR).
    rewrite (fold_left_append_map
               (fun i => path (points_to_path
                                 (rotate (airfoil_points R xc yc scale y_offset)
                                    (Fin (INR i) * Fin (360 / INR n))%f64 origin))
                           red (Fin 0.015) none (Some (Fin 0.8)))).
    rewrite map_map. cbn [app]. do 2 f_equal. now rewrite <- !app_assoc.
Qed.

(** X15: when the generating circle passes through the origin at the first
    sampled angle ([x_center = -R], [y_center = 0]; the sliders reach it at
    [R = 0.5]), for every [n >= 1] the bounds computation of the export raises
    nothing and gives NaN for the top edge and the height of the viewBox and
    for the pixel height: these are the values [svgwrite.Drawing] is called
    with. *)
Theorem export_bounds_NaN (revolution : list curve) (Rc : R)
  (scale y_offset : float64) (n : nat) :
  (1 <= n)%nat ->
  exists all_points fr vx w,
    export_all_points revolution n
      (airfoil_points (Fin Rc) (Fin (- Rc)) (Fin 0) scale y_offset)
    = Returns all_points /\
    export_frame all_points = Returns fr /\
    viewBox fr = (vx, NaN, w, NaN) /\
    snd (size_px fr) = NaN.
Proof.
  intros Hn.
  set (airfoil := airfoil_points (Fin Rc) (Fin (- Rc)) (Fin 0) scale y_offset).
  assert (Hp : exists p, In p airfoil /\ snd p = NaN).
  { exists (nth 0 airfoil (NaN, NaN)). split.
    - apply nth_In. unfold airfoil. rewrite airfoil_points_length. lia.
    - unfold airfoil. rewrite airfoil_points_nth by lia. cbn [snd].
      rewrite (proj2 (first_sample_not_finite Rc (- Rc) 0 scale
                        (first_sample_through_origin Rc))).
      reflexivity. }
  destruct Hp as (p & Hin & Hnan).
  destruct (export_all_points_In revolution n airfoil p Hn Hin Hnan)
    as (all_points & q & Hall & Hq & Hqnan).
  destruct (export_frame_NaN_y all_points q Hq Hqnan)
    as (fr & vx & w & Hfr & Hvb & Hpx).
  exists all_points, fr, vx, w.
  split; [exact Hall|]. split; [exact Hfr|]. split; [exact Hvb | exact Hpx].
Qed.

Lemma export_bounds_NaN_witness :
  (1 <= 3)%nat /\
  exists all_points fr vx w,
    export_all_points [] 3
      (airfoil_points (Fin 0.5) (Fin (- (0.5))) (Fin 0) (Fin 1) (Fin 0))
    = Returns all_points /\
    export_frame all_points = Returns fr /\
    viewBox fr = (vx, NaN, w, NaN) /\
    snd (size_px fr) = NaN.
Proof.
  split; [lia|].
  apply (export_bounds_NaN [] 0.5 (Fin 1) (Fin 0) 3). lia.
Defined.

Lemma points_to_path_map (points : curve) :
  points_to_path points
  = match points with [] => [] | p0 :: rest => MoveTo p0 :: map LineTo rest end.
Proof.
  destruct points as [|p0 rest]; [reflexivity|]. unfold points_to_path.
  now rewrite (fold_left_append_map LineTo).
Qed.

Lemma export_to_svg_returns (revolution : list curve)
  (R xc yc scale y_offset : float64) (n : nat) :
  (1 <= n)%nat ->
  exists doc, export_to_svg revolution R xc yc scale y_offset n = Returns doc.
Proof.
  intros Hn.
  destruct (export_all_points_tail revolution n
              (airfoil_points R xc yc scale y_offset) Hn) as (tail & Hall & Hlen).
  assert (Hne : concat revolution ++ tail <> []).
  { intros E. apply (f_equal (@length point)) in E.
    rewrite length_app, Hlen, airfoil_points_length in E. cbn [length] in E. lia. }
  destruct (export_frame_nonempty _ Hne) as (fr & Hfr).
  destruct (export_to_svg_elements revolution R xc yc scale y_offset n _ fr
              Hn Hall Hfr) as (curves & _ & Hdoc).
  eexists. exact Hdoc.
Qed.

(** A finite airfoil, point by point. *)
Lemma airfoil_points_Fp (Rc xc yc scale y_offset : R) :
  xc * xc + yc * yc <> Rc * Rc ->
  airfoil_points (Fin Rc) (Fin xc) (Fin yc) (Fin scale) (Fin y_offset)
  = map Fp
      (map (fun k =>
              (fst (Plane.airfoil_point Rc xc yc scale (Plane.theta_k k)),
               snd (Plane.airfoil_point Rc xc yc scale (Plane.theta_k k)) + y_offset))
         (seq 0 400)).
Proof.
  intros Hne. apply (nth_ext _ _ (NaN, NaN) (NaN, NaN)).
  - rewrite airfoil_points_length, !length_map, length_seq. reflexivity.
  - intros k Hk. rewrite airfoil_points_length in Hk.
    rewrite airfoil_points_nth by exact Hk.
    destruct (plot_joukowsky_nth_components Rc xc yc scale k Hk
                (circle_off_origin Rc xc yc _ Hne)) as [Hx Hy].
    rewrite Hx, Hy, map_map.
    rewrite (nth_map_lt _ (seq 0 400) k (NaN, NaN) 0%nat)
      by (now rewrite length_seq).
    rewrite seq_nth by exact Hk. reflexivity.
Qed.

(** The bounds of finite points are finite. *)
Lemma export_frame_Fp (pts : list (R * R)) :
  pts <> [] ->
  exists vx vy w h fr,
    export_frame (map Fp pts) = Returns fr /\
    viewBox fr = (Fin vx, Fin vy, Fin w, Fin h).
Proof.
  intros Hne.
  assert (Hx : map fst pts <> []) by (destruct pts; [congruence | discriminate]).
  assert (Hy : map snd pts <> []) by (destruct pts; [congruence | discriminate]).
  destruct (amin_Fin _ Hx) as (min_x & Eminx & _).
  destruct (amin_Fin _ Hy) as (min_y & Eminy & _).
  destruct (amax_Fin _ Hx) as (max_x & Emaxx & _).
  destruct (amax_Fin _ Hy) as (max_y & Emaxy & _).
  exists (min_x - 0.2), (min_y - 0.2), (max_x - min_x + 2 * 0.2), (max_y - min_y + 2 * 0.2).
  eexists. split.
  - unfold export_frame. rewrite map_fst_Fp, map_snd_Fp, Eminx, Eminy, Emaxx, Emaxy.
    cbn [bind]. reflexivity.
  - reflexivity.
Qed.

(** X16: for every [n >= 1], finite emblem paths and an airfoil whose circle
    misses the origin, the bounds are finite and the drawing the export asks
    [svgwrite] for is made of the white background rectangle, one blue path
    per emblem path, one red path per overlay curve (the very curves
    [plot_combined] draws), and the label, in this order; that is
    [len(revolution_paths) + n + 2] elements, and no path is filled. *)
Theorem export_to_svg_document (paths : list (list (R * R)))
  (Rc xc yc scale y_offset : R) (n : nat) :
  (1 <= n)%nat ->
  xc * xc + yc * yc <> Rc * Rc ->
  let revolution := map (map Fp) paths in
  let airfoil := airfoil_points (Fin Rc) (Fin xc) (Fin yc) (Fin scale) (Fin y_offset) in
  exists doc curves vx vy w h,
    export_to_svg revolution (Fin Rc) (Fin xc) (Fin yc) (Fin scale) (Fin y_offset) n
    = Returns doc /\
    viewBox (frame doc) = (Fin vx, Fin vy, Fin w, Fin h) /\
    overlay_curves n airfoil = Returns curves /\
    elements doc
    = rect (background_insert (frame doc)) (background_size (frame doc)) (solid white)
      :: map (fun c => path (points_to_path c) blue (Fin 0.01) none (Some (Fin 0.6)))
           revolution
      ++ map (fun c => path (points_to_path c) red (Fin 0.015) none
                         (if (n =? 1)%nat then None else Some (Fin 0.8)))
           curves
      ++ [text n (label_insert (frame doc)) (Fin 0.1) (solid gray)] /\
    length (elements doc) = (length paths + n + 2)%nat /\
    forall e, In e (elements doc) -> is_path e -> fill_of e = none.
Proof.
  intros Hn Hne. cbv zeta.
  set (revolution := map (map Fp) paths).
  rewrite (airfoil_points_Fp Rc xc yc scale y_offset Hne).
  set (af := map (fun k =>
                    (fst (Plane.airfoil_point Rc xc yc scale (Plane.theta_k k)),
                     snd (Plane.airfoil_point Rc xc yc scale (Plane.theta_k k)) + y_offset))
               (seq 0 400)).
  assert (Haf : length af = 400%nat) by (unfold af; now rewrite length_map, length_seq).
  pose proof (overlay_curves_Fp n af Hn) as Hov.
  set (cs := map (fun i => map (Rigid.rotation (INR i * (360 / INR n)) (0, 0)) af)
               (seq 0 n)).
  assert (Hcs : map (fun i => map Fp (map (Rigid.rotation (INR i * (360 / INR n)) (0, 0)) af))
                  (seq 0 n) = map (map Fp) cs)
    by (unfold cs; now rewrite map_map).
  rewrite Hcs in Hov.
  destruct (export_all_points_concat revolution n (map Fp af) Hn)
    as (curves & Hcurves & Hall & Hlen).
  rewrite Hov in Hcurves. injection Hcurves as <-.
  assert (Hpts : concat revolution ++ concat (map (map Fp) cs)
                 = map Fp (concat paths ++ concat cs)).
  { unfold revolution. now rewrite map_app, !concat_map. }
  rewrite Hpts in Hall.
  assert (Hnonempty : concat paths ++ concat cs <> []).
  { intros E. apply (f_equal (map Fp)) in E. rewrite <- Hpts in E.
    apply (f_equal (@length point)) in E.
    rewrite length_app, Hlen, length_map, Haf in E. cbn [map length] in E. lia. }
  destruct (export_frame_Fp _ Hnonempty) as (vx & vy & w & h & fr & Hfr & Hvb).
  pose proof (airfoil_points_Fp Rc xc yc scale y_offset Hne) as Hafp. fold af in Hafp.
  assert (Hall' : export_all_points revolution n
                    (airfoil_points (Fin Rc) (Fin xc) (Fin yc) (Fin scale) (Fin y_offset))
                  = Returns (map Fp (concat paths ++ concat cs)))
    by (rewrite Hafp; exact Hall).
  destruct (export_to_svg_elements revolution (Fin Rc) (Fin xc) (Fin yc) (Fin scale)
              (Fin y_offset) n (map Fp (concat paths ++ concat cs)) fr Hn Hall' Hfr)
    as (curves' & Hcurves' & Hdoc).
  rewrite Hafp, Hov in Hcurves'. injection Hcurves' as <-.
  eexists; exists (map (map Fp) cs), vx, vy, w, h.
  split; [exact Hdoc|]. cbn [frame elements].
  split; [exact Hvb|]. split; [exact Hov|]. split; [reflexivity|]. split.
  - cbn [length]. rewrite !length_app. unfold revolution, cs.
    rewrite !length_map, length_seq. cbn [length]. lia.
  - intros e [<-|He]; [intros []|].
    apply in_app_or in He. destruct He as [He|He].
    + apply in_map_iff in He. destruct He as (c & <- & _). reflexivity.
    + apply in_app_or in He. destruct He as [He|[<-|[]]].
      * apply in_map_iff in He. destruct He as (c & <- & _). reflexivity.
      * intros [].
Qed.

Lemma export_to_svg_document_witness :
  (1 <= 2)%nat /\
  0 * 0 + 0 * 0 <> 1 * 1 /\
  exists doc vx vy w h,
    export_to_svg (map (map Fp) [[(0, 0)]]) (Fin 1) (Fin 0) (Fin 0) (Fin 1) (Fin 0) 2
    = Returns doc /\
    viewBox (frame doc) = (Fin vx, Fin vy, Fin w, Fin h) /\
    length (elements doc) = (length [[(0, 0)]] + 2 + 2)%nat.
Proof.
  assert (H : 0 * 0 + 0 * 0 <> 1 * 1) by lra.
  split; [lia|]. split; [exact H|].
  destruct (export_to_svg_document [[(0, 0)]] 1 0 0 1 0 2 ltac:(lia) H)
    as (doc & curves & vx & vy & w & h & Hdoc & Hvb & _ & _ & Hlen & _).
  exists doc, vx, vy, w, h. split; [exact Hdoc|]. split; [exact Hvb | exact Hlen].
Defined.

(** X17: the test script builds the very document the application exports
    for three revolutions with the default airfoil (R = 0.85, centre
    (-0.1, 0.23), scale 1, offset 0): the same frame and the same elements in
    the same order, for whatever emblem paths it is given. *)
Theorem test_export_is_export_to_svg (revolution_paths : list curve) :
  test_export revolution_paths
  = export_to_svg revolution_paths (Fin 0.85) (Fin (-0.1)) (Fin 0.23) (Fin 1) (Fin 0) 3.
Proof.
  unfold test_export, export_to_svg, airfoil_points.
  destruct (plot_joukowsky (Fin 0.85) (Fin (-0.1)) (Fin 0.23) (Fin 1)) as [x y].
  cbv zeta.
  set (airfoil := combine x (map (fun yk => (yk + Fin 0)%f64) y)).
  unfold export_all_points, rotated_airfoils.
  cbn [Nat.eqb bind seq fold_left concat app].
  rewrite app_nil_r, <- !app_assoc.
  destruct (export_frame _) as [fr|e]; reflexivity.
Qed.

(** ** The contact points of the joint *)

Lemma cross_normalize_value (a c : R * R) :
  0 < Fillet.length a -> 0 < Fillet.length c ->
  Fillet.cross (Fillet.normalize a) (Fillet.normalize c)
  = Fillet.cross a c / (Fillet.length a * Fillet.length c).
Proof.
  intros Ha Hc. unfold Fillet.cross, Fillet.normalize; cbn [fst snd]. field. lra.
Qed.

Lemma joint_cross_values (A B C : R * R) (r : R) :
  Fillet.cross (Fillet.minus A B) (Fillet.minus C B) <> 0 -> 0 < r ->
  let u := Fillet.normalize (Fillet.minus A B) in
  let v := Fillet.normalize (Fillet.minus C B) in
  let th := Fillet.half_angle u v in
  let bis := Fillet.normalize (fst u + fst v, snd u + snd v) in
  let Eu := r / sin th * fst bis * snd u - r / sin th * snd bis * fst u in
  let Ev := r / sin th * fst bis * snd v - r / sin th * snd bis * fst v in
  (0 < Fillet.cross (Fillet.minus A B) (Fillet.minus C B) -> Eu = - r /\ Ev = r) /\
  (Fillet.cross (Fillet.minus A B) (Fillet.minus C B) < 0 -> Eu = r /\ Ev = - r).
Proof.
  intros Hcross Hr u v th bis Eu Ev.
  destruct (joint_facts A B C r Hcross Hr) as (HlA & HlC & _ & Hs & HN & Hdu & Hdv).
  fold u v in Hs, HN, Hdu, Hdv. fold th in Hs, Hdu, Hdv. fold bis in Hdu, Hdv.
  fold Eu in Hdu. fold Ev in Hdv.
  pose proof (cross_normalize_value _ _ HlA HlC) as HX. fold u v in HX.
  set (N := Fillet.length (fst u + fst v, snd u + snd v)) in *.
  set (X := Fillet.cross u v) in *.
  assert (Hk : 0 < r / sin th / N).
  { apply Rdiv_lt_0_compat; [apply Rdiv_lt_0_compat|]; assumption. }
  assert (HEu : Eu = - (r / sin th / N * X)).
  { unfold Eu, bis, Fillet.normalize, X, Fillet.cross; cbn [fst snd]. fold N.
    field. split; lra. }
  assert (HEv : Ev = r / sin th / N * X).
  { unfold Ev, bis, Fillet.normalize, X, Fillet.cross; cbn [fst snd]. fold N.
    field. split; lra. }
  assert (Hll : 0 < Fillet.length (Fillet.minus A B) * Fillet.length (Fillet.minus C B))
    by (apply Rmult_lt_0_compat; assumption).
  split; intros Hsign.
  - assert (HXpos : 0 < X) by (rewrite HX; apply Rdiv_lt_0_compat; assumption).
    assert (0 < r / sin th / N * X) by (apply Rmult_lt_0_compat; assumption).
    split.
    + rewrite <- Hdu. rewrite Rabs_left by lra. ring.
    + rewrite <- Hdv. rewrite Rabs_right by lra. reflexivity.
  - assert (HXneg : X < 0).
    { destruct (Rlt_dec X 0) as [Hlt|Hge]; [exact Hlt|]. exfalso.
      assert (HXl : X * (Fillet.length (Fillet.minus A B) * Fillet.length (Fillet.minus C B))
                    = Fillet.cross (Fillet.minus A B) (Fillet.minus C B))
        by (rewrite HX; field; lra).
      assert (0 <= X * (Fillet.length (Fillet.minus A B) * Fillet.length (Fillet.minus C B)))
        by (apply Rmult_le_pos; lra).
      lra. }
    assert (0 < r / sin th / N * - X) by (apply Rmult_lt_0_compat; lra).
    split.
    + rewrite <- Hdu. rewrite Rabs_right by lra. reflexivity.
    + rewrite <- Hdv. rewrite Rabs_left by lra. ring.
Qed.

Lemma rounded_joint_contacts (A B C : R * R) (r : R) :
  Fillet.cross (Fillet.minus A B) (Fillet.minus C B) <> 0 -> 0 < r ->
  contact_AB (rounded_joint (Fp A) (Fp B) (Fp C) (Fin r)) = Fp (Contact.contact_AB A B C r) /\
  contact_BC (rounded_joint (Fp A) (Fp B) (Fp C) (Fin r)) = Fp (Contact.contact_BC A B C r).
Proof.
  intros Hcross Hr.
  pose proof (rounded_joint_center A B C r Hcross Hr) as Hc.
  destruct (joint_facts A B C r Hcross Hr) as (HlA & HlC & _).
  set (J := rounded_joint (Fp A) (Fp B) (Fp C) (Fin r)) in *.
  assert (Hu : joint_u J = Fp (Fillet.normalize (Fillet.minus A B))).
  { unfold J, rounded_joint. cbv zeta. cbn [joint_u].
    rewrite vsub_Fp, norm_Fp. now rewrite vdiv_Fp by (apply Rgt_not_eq; exact HlA). }
  assert (Hv : joint_v J = Fp (Fillet.normalize (Fillet.minus C B))).
  { unfold J, rounded_joint. cbv zeta. cbn [joint_v].
    rewrite vsub_Fp, norm_Fp. now rewrite vdiv_Fp by (apply Rgt_not_eq; exact HlC). }
  split.
  - change (contact_AB J)
      with (vadd (circle_center J)
              (vscale (Fin r) (vopp ((- snd (joint_u J))%f64, fst (joint_u J))))).
    rewrite Hc, Hu. unfold Contact.contact_AB, vadd, vscale, vopp, Fp.
    cbn [fst snd fopp fmul fadd]. f_equal; f_equal; ring.
  - change (contact_BC J)
      with (vadd (circle_center J)
              (vscale (Fin r) (vopp (snd (joint_v J), (- fst (joint_v J))%f64)))).
    rewrite Hc, Hv. unfold Contact.contact_BC, vadd, vscale, vopp, Fp.
    cbn [fst snd fopp fmul fadd]. f_equal; f_equal; ring.
Qed.

(** The signed area between a contact point and its line, in terms of the
    signed offset of the centre. *)
Lemma contact_line_distances (A B C : R * R) (r : R) :
  Fillet.cross (Fillet.minus A B) (Fillet.minus C B) <> 0 -> 0 < r ->
  (0 < Fillet.cross (Fillet.minus A B) (Fillet.minus C B) ->
   Plane.line_distance (Contact.contact_AB A B C r) B A = 0 /\
   Plane.line_distance (Contact.contact_BC A B C r) B C = 0) /\
  (Fillet.cross (Fillet.minus A B) (Fillet.minus C B) < 0 ->
   Plane.line_distance (Contact.contact_AB A B C r) B A = 2 * r /\
   Plane.line_distance (Contact.contact_BC A B C r) B C = 2 * r).
Proof.
  intros Hcross Hr.
  destruct (joint_facts A B C r Hcross Hr) as (HlA & HlC & _).
  pose proof (joint_cross_values A B C r Hcross Hr) as Hval. cbv zeta in Hval.
  pose proof (normalize_unit _ (cross_nonzero_l _ _ Hcross)) as Hu.
  pose proof (normalize_unit _ (cross_nonzero_r _ _ Hcross)) as Hv.
  destruct (normalize_scale _ HlA) as [HA1 HA2].
  destruct (normalize_scale _ HlC) as [HC1 HC2].
  change (fst (Fillet.minus A B)) with (fst A - fst B) in HA1.
  change (snd (Fillet.minus A B)) with (snd A - snd B) in HA2.
  change (fst (Fillet.minus C B)) with (fst C - fst B) in HC1.
  change (snd (Fillet.minus C B)) with (snd C - snd B) in HC2.
  set (u := Fillet.normalize (Fillet.minus A B)) in *.
  set (v := Fillet.normalize (Fillet.minus C B)) in *.
  set (th := Fillet.half_angle u v) in *.
  set (bis := Fillet.normalize (fst u + fst v, snd u + snd v)) in *.
  set (lA := Fillet.length (Fillet.minus A B)) in *.
  set (lC := Fillet.length (Fillet.minus C B)) in *.
  assert (HdA : forall e,
    r / sin th * fst bis * snd u - r / sin th * snd bis * fst u = e ->
    Plane.line_distance (Contact.contact_AB A B C r) B A = Rabs (e + r)).
  { intros e He. unfold Plane.line_distance.
    change (Plane.dist A B) with lA.
    unfold Contact.contact_AB, Fillet.center. cbv zeta. fold u v. fold th. fold bis.
    cbn [fst snd]. rewrite HA1, HA2.
    replace ((fst B + r / sin th * fst bis + r * snd u - fst B) * (lA * snd u)
             - (snd B + r / sin th * snd bis + r * - fst u - snd B) * (lA * fst u))
      with (lA * ((r / sin th * fst bis * snd u - r / sin th * snd bis * fst u)
                  + r * (fst u * fst u + snd u * snd u))) by ring.
    rewrite He, Hu, Rabs_mult, (Rabs_pos_eq lA) by lra.
    replace (e + r * 1) with (e + r) by ring. field. lra. }
  assert (HdC : forall e,
    r / sin th * fst bis * snd v - r / sin th * snd bis * fst v = e ->
    Plane.line_distance (Contact.contact_BC A B C r) B C = Rabs (e - r)).
  { intros e He. unfold Plane.line_distance.
    change (Plane.dist C B) with lC.
    unfold Contact.contact_BC, Fillet.center. cbv zeta. fold u v. fold th. fold bis.
    cbn [fst snd]. rewrite HC1, HC2.
    replace ((fst B + r / sin th * fst bis + r * - snd v - fst B) * (lC * snd v)
             - (snd B + r / sin th * snd bis + r * fst v - snd B) * (lC * fst v))
      with (lC * ((r / sin th * fst bis * snd v - r / sin th * snd bis * fst v)
                  - r * (fst v * fst v + snd v * snd v))) by ring.
    rewrite He, Hv, Rabs_mult, (Rabs_pos_eq lC) by lra.
    replace (e - r * 1) with (e - r) by ring. field. lra. }
  destruct Hval as [Hccw Hcw]. split; intros Hsign.
  - destruct (Hccw Hsign) as [Eu Ev].
    rewrite (HdA _ Eu), (HdC _ Ev).
    replace (- r + r) with 0 by ring. replace (r - r) with 0 by ring.
    rewrite Rabs_R0. split; reflexivity.
  - destruct (Hcw Hsign) as [Eu Ev].
    rewrite (HdA _ Eu), (HdC _ Ev).
    replace (r + r) with (2 * r) by ring. replace (- r - r) with (- (2 * r)) by ring.
    rewrite Rabs_Ropp, Rabs_pos_eq by lra. split; reflexivity.
Qed.

(** X18: at an open corner where [A], [B], [C] turn counter-clockwise, the
    two contact points of the joint are true points of tangency: each lies on
    its segment's line. *)
Theorem rounded_joint_contacts_on_lines (A B C : R * R) (r : R) :
  Fillet.open_corner A B C ->
  0 < Fillet.cross (Fillet.minus A B) (Fillet.minus C B) -> 0 < r ->
  contact_AB (rounded_joint (Fp A) (Fp B) (Fp C) (Fin r)) = Fp (Contact.contact_AB A B C r) /\
  contact_BC (rounded_joint (Fp A) (Fp B) (Fp C) (Fin r)) = Fp (Contact.contact_BC A B C r) /\
  Plane.line_distance (Contact.contact_AB A B C r) B A = 0 /\
  Plane.line_distance (Contact.contact_BC A B C r) B C = 0.
Proof.
  intros Hopen Hccw Hr.
  pose proof (open_corner_not_collinear A B C Hopen) as Hcross.
  destruct (rounded_joint_contacts A B C r Hcross Hr) as [HcA HcC].
  destruct (proj1 (contact_line_distances A B C r Hcross Hr) Hccw) as [HA HC].
  split; [exact HcA|]. split; [exact HcC|]. split; [exact HA | exact HC].
Qed.

(** X19: at an open corner where [A], [B], [C] turn clockwise, the contact
    points are on the far side of the circle: each is two radii away from its
    segment's line. *)
Theorem rounded_joint_contacts_clockwise (A B C : R * R) (r : R) :
  Fillet.open_corner A B C ->
  Fillet.cross (Fillet.minus A B) (Fillet.minus C B) < 0 -> 0 < r ->
  contact_AB (rounded_joint (Fp A) (Fp B) (Fp C) (Fin r)) = Fp (Contact.contact_AB A B C r) /\
  contact_BC (rounded_joint (Fp A) (Fp B) (Fp C) (Fin r)) = Fp (Contact.contact_BC A B C r) /\
  Plane.line_distance (Contact.contact_AB A B C r) B A = 2 * r /\
  Plane.line_distance (Contact.contact_BC A B C r) B C = 2 * r.
Proof.
  intros Hopen Hcw Hr.
  pose proof (open_corner_not_collinear A B C Hopen) as Hcross.
  destruct (rounded_joint_contacts A B C r Hcross Hr) as [HcA HcC].
  destruct (proj2 (contact_line_distances A B C r Hcross Hr) Hcw) as [HA HC].
  split; [exact HcA|]. split; [exact HcC|]. split; [exact HA | exact HC].
Qed.

Lemma contact_radius (A B C : R * R) (r : R) :
  Fillet.minus A B <> (0, 0) -> Fillet.minus C B <> (0, 0) -> 0 < r ->
  Plane.dist (Contact.contact_AB A B C r) (Fillet.center A B C r) = r /\
  Plane.dist (Contact.contact_BC A B C r) (Fillet.center A B C r) = r.
Proof.
  intros HA HC Hr.
  pose proof (normalize_unit _ HA) as Hu. pose proof (normalize_unit _ HC) as Hv.
  unfold Plane.dist, Contact.contact_AB, Contact.contact_BC. cbv zeta. cbn [fst snd].
  set (u := Fillet.normalize (Fillet.minus A B)) in *.
  set (v := Fillet.normalize (Fillet.minus C B)) in *.
  set (c := Fillet.center A B C r).
  split.
  - replace ((fst c + r * snd u - fst c) * (fst c + r * snd u - fst c)
             + (snd c + r * - fst u - snd c) * (snd c + r * - fst u - snd c))
      with (r * r * (fst u * fst u + snd u * snd u)) by ring.
    rewrite Hu, Rmult_1_r. apply sqrt_square. lra.
  - replace ((fst c + r * - snd v - fst c) * (fst c + r * - snd v - fst c)
             + (snd c + r * fst v - snd c) * (snd c + r * fst v - snd c))
      with (r * r * (fst v * fst v + snd v * snd v)) by ring.
    rewrite Hv, Rmult_1_r. apply sqrt_square. lra.
Qed.

Lemma quarter_turn_counter_clockwise :
  0 < Fillet.cross (Fillet.minus (1, 0) (0, 0)) (Fillet.minus (0, 1) (0, 0)).
Proof. unfold Fillet.cross, Fillet.minus; cbn [fst snd]. lra. Qed.

Lemma quarter_turn_clockwise :
  Fillet.cross (Fillet.minus (0, 1) (0, 0)) (Fillet.minus (1, 0) (0, 0)) < 0.
Proof. unfold Fillet.cross, Fillet.minus; cbn [fst snd]. lra. Qed.

Lemma quarter_turn_clockwise_open : Fillet.open_corner (0, 1) (0, 0) (1, 0).
Proof.
  unfold Fillet.open_corner, Fillet.length, Fillet.cross, Fillet.minus; cbn [fst snd].
  replace ((0 - 0) * (0 - 0) + (1 - 0) * (1 - 0)) with 1 by ring.
  replace ((1 - 0) * (1 - 0) + (0 - 0) * (0 - 0)) with 1 by ring.
  replace ((0 - 0) * (0 - 0) - (1 - 0) * (1 - 0)) with (- (1)) by ring.
  rewrite sqrt_1, Rabs_Ropp, Rabs_R1. lra.
Qed.

Lemma rounded_joint_contacts_on_lines_witness :
  Fillet.open_corner (1, 0) (0, 0) (0, 1) /\
  0 < Fillet.cross (Fillet.minus (1, 0) (0, 0)) (Fillet.minus (0, 1) (0, 0)) /\
  0 < 0.3 /\
  contact_AB (rounded_joint (Fp (1, 0)) (Fp (0, 0)) (Fp (0, 1)) (Fin 0.3))
  = Fp (Contact.contact_AB (1, 0) (0, 0) (0, 1) 0.3) /\
  contact_BC (rounded_joint (Fp (1, 0)) (Fp (0, 0)) (Fp (0, 1)) (Fin 0.3))
  = Fp (Contact.contact_BC (1, 0) (0, 0) (0, 1) 0.3) /\
  Plane.line_distance (Contact.contact_AB (1, 0) (0, 0) (0, 1) 0.3) (0, 0) (1, 0) = 0 /\
  Plane.line_distance (Contact.contact_BC (1, 0) (0, 0) (0, 1) 0.3) (0, 0) (0, 1) = 0.
Proof.
  split; [exact right_angle_open_corner|].
  split; [exact quarter_turn_counter_clockwise|]. split; [lra|].
  apply (rounded_joint_contacts_on_lines (1, 0) (0, 0) (0, 1) 0.3);
    [exact right_angle_open_corner | exact quarter_turn_counter_clockwise | lra].
Defined.

Lemma rounded_joint_contacts_clockwise_witness :
  Fillet.open_corner (0, 1) (0, 0) (1, 0) /\
  Fillet.cross (Fillet.minus (0, 1) (0, 0)) (Fillet.minus (1, 0) (0, 0)) < 0 /\
  0 < 0.3 /\
  contact_AB (rounded_joint (Fp (0, 1)) (Fp (0, 0)) (Fp (1, 0)) (Fin 0.3))
  = Fp (Contact.contact_AB (0, 1) (0, 0) (1, 0) 0.3) /\
  contact_BC (rounded_joint (Fp (0, 1)) (Fp (0, 0)) (Fp (1, 0)) (Fin 0.3))
  = Fp (Contact.contact_BC (0, 1) (0, 0) (1, 0) 0.3) /\
  Plane.line_distance (Contact.contact_AB (0, 1) (0, 0) (1, 0) 0.3) (0, 0) (0, 1) = 2 * 0.3 /\
  Plane.line_distance (Contact.contact_BC (0, 1) (0, 0) (1, 0) 0.3) (0, 0) (1, 0) = 2 * 0.3.
Proof.
  split; [exact quarter_turn_clockwise_open|].
  split; [exact quarter_turn_clockwise|]. split; [lra|].
  apply (rounded_joint_contacts_clockwise (0, 1) (0, 0) (1, 0) 0.3);
    [exact quarter_turn_clockwise_open | exact quarter_turn_clockwise | lra].
Defined.

(** *** The emblem's own joint *)

Lemma emblem_joint_counter_clockwise (t : R) :
  0.06 < t ->
  0 < Fillet.cross (Fillet.minus (-0.1, t) (-0.1, 0))
                   (Fillet.minus (EmblemRef.mirror_150 (-0.1, t)) (-0.1, 0)).
Proof.
  intros Ht. pose proof sqrt_3_lower as H3.
  unfold Fillet.cross, Fillet.minus, EmblemRef.mirror_150; cbn [fst snd].
  assert (0 < (sqrt 3 - 1.7) * t) by (apply Rmult_lt_0_compat; lra).
  assert (0 < t * (sqrt 3 / 2 * t - 0.05)) by (apply Rmult_lt_0_compat; lra).
  lra.
Qed.

Lemma emblem_joint_unfold (t : R) :
  emblem_joint (Fp (-0.1, t))
  = rounded_joint (Fp (-0.1, t)) (Fp (-0.1, 0)) (Fp (EmblemRef.mirror_150 (-0.1, t)))
      (Fin 0.3).
Proof.
  unfold emblem_joint. cbv zeta. rewrite reflect_map. cbn [map nth].
  rewrite reflect_point_Fin, cos_300_degrees, sin_300_degrees.
  change (snd Emblem.seg4_pts) with (Fp (-0.1, 0)). unfold Emblem.R_joint.
  replace (Fp (1 / 2 * -0.1 + - (sqrt 3 / 2) * t, - (sqrt 3 / 2) * -0.1 - 1 / 2 * t))
    with (Fp (EmblemRef.mirror_150 (-0.1, t))); [reflexivity|].
  unfold EmblemRef.mirror_150, Fp; cbn [fst snd]. f_equal; f_equal; ring.
Qed.

(** The end [B] of [seg4] is not on the mirror axis: it lies 0.05 off the
    mirror image of [seg4]'s line, the line through the images of [B] and
    [A]. *)
Lemma seg4_end_off_mirrored_line (t : R) :
  0 < t ->
  Plane.line_distance (-0.1, 0) (EmblemRef.mirror_150 (-0.1, 0))
    (EmblemRef.mirror_150 (-0.1, t)) = 0.05.
Proof.
  intros Ht. pose proof (sqrt_sqrt 3 ltac:(lra)) as H3.
  unfold Plane.line_distance, Plane.dist, EmblemRef.mirror_150; cbn [fst snd].
  replace (-0.1) with (- (1 / 10)) by lra. replace 0.05 with (1 / 20) by lra.
  set (s := sqrt 3) in *.
  replace ((1 / 2 * - (1 / 10) - s / 2 * t - (1 / 2 * - (1 / 10) - s / 2 * 0))
           * (1 / 2 * - (1 / 10) - s / 2 * t - (1 / 2 * - (1 / 10) - s / 2 * 0))
           + (- (s / 2) * - (1 / 10) - 1 / 2 * t - (- (s / 2) * - (1 / 10) - 1 / 2 * 0))
             * (- (s / 2) * - (1 / 10) - 1 / 2 * t - (- (s / 2) * - (1 / 10) - 1 / 2 * 0)))
    with (t * t * ((s * s + 1) / 4)) by field.
  replace ((- (1 / 10) - (1 / 2 * - (1 / 10) - s / 2 * 0))
           * (- (s / 2) * - (1 / 10) - 1 / 2 * t - (- (s / 2) * - (1 / 10) - 1 / 2 * 0))
           - (0 - (- (s / 2) * - (1 / 10) - 1 / 2 * 0))
             * (1 / 2 * - (1 / 10) - s / 2 * t - (1 / 2 * - (1 / 10) - s / 2 * 0)))
    with (t * ((1 - s * s) / 40)) by field.
  rewrite H3. replace (t * t * ((3 + 1) / 4)) with (t * t) by field.
  rewrite sqrt_square by lra.
  replace (t * ((1 - 3) / 40)) with (- (t / 20)) by field.
  rewrite Rabs_Ropp, Rabs_pos_eq by lra. field. lra.
Qed.

(** X20: the joint as the emblem computes it, from [A], the contact point at
    height [t > 0.06] on [seg4] (the program's lies between 0.3 and 1), [B],
    the end of [seg4], and [C], the mirror image of [A] in the 150-degree
    line.  The circle is tangent to the two lines the code works with, the
    line through [B] and [A] and the line through [B] and [C]: the centre is
    at distance 0.3 from both, and the two contact points lie on them, at
    distance 0.3 from the centre.  The line through [B] and [C] is not the
    mirror image of [seg4]'s line: [B] lies 0.05 off that one. *)
Theorem emblem_joint_is_tangent (t : R) :
  0.06 < t ->
  let A := (-0.1, t) in
  let B := (-0.1, 0) in
  let C := EmblemRef.mirror_150 A in
  let J := emblem_joint (Fp A) in
  circle_center J = Fp (Fillet.center A B C 0.3) /\
  contact_AB J = Fp (Contact.contact_AB A B C 0.3) /\
  contact_BC J = Fp (Contact.contact_BC A B C 0.3) /\
  Plane.line_distance (Fillet.center A B C 0.3) B A = 0.3 /\
  Plane.line_distance (Fillet.center A B C 0.3) B C = 0.3 /\
  Plane.line_distance (Contact.contact_AB A B C 0.3) B A = 0 /\
  Plane.line_distance (Contact.contact_BC A B C 0.3) B C = 0 /\
  Plane.dist (Contact.contact_AB A B C 0.3) (Fillet.center A B C 0.3) = 0.3 /\
  Plane.dist (Contact.contact_BC A B C 0.3) (Fillet.center A B C 0.3) = 0.3 /\
  Plane.line_distance B (EmblemRef.mirror_150 B) C = 0.05.
Proof.
  intros Ht. cbv zeta. rewrite emblem_joint_unfold.
  pose proof (emblem_joint_counter_clockwise t Ht) as Hccw.
  assert (Hcross : Fillet.cross (Fillet.minus (-0.1, t) (-0.1, 0))
                     (Fillet.minus (EmblemRef.mirror_150 (-0.1, t)) (-0.1, 0)) <> 0) by lra.
  assert (Hr : 0 < 0.3) by lra.
  destruct (rounded_joint_contacts _ _ _ 0.3 Hcross Hr) as [HcA HcC].
  destruct (fillet_center_tangent _ _ _ 0.3 Hcross Hr) as [HtA HtC].
  destruct (proj1 (contact_line_distances _ _ _ 0.3 Hcross Hr) Hccw) as [HlA HlC].
  destruct (contact_radius _ _ _ 0.3 (cross_nonzero_l _ _ Hcross)
              (cross_nonzero_r _ _ Hcross) Hr) as [HrA HrC].
  split; [now apply rounded_joint_center|].
  split; [exact HcA|]. split; [exact HcC|]. split; [exact HtA|]. split; [exact HtC|].
  split; [exact HlA|]. split; [exact HlC|]. split; [exact HrA|]. split; [exact HrC|].
  apply seg4_end_off_mirrored_line. lra.
Qed.

Lemma emblem_joint_is_tangent_witness :
  0.06 < 0.5 /\
  circle_center (emblem_joint (Fp (-0.1, 0.5)))
  = Fp (Fillet.center (-0.1, 0.5) (-0.1, 0) (EmblemRef.mirror_150 (-0.1, 0.5)) 0.3).
Proof.
  split; [lra|].
  apply (emblem_joint_is_tangent 0.5). lra.
Defined.

(** *** Segments of length zero *)

Lemma fmul_NaN_r (x : float64) : (x * NaN)%f64 = NaN.
Proof. destruct x; reflexivity. Qed.

Lemma rounded_joint_NaN_bisector (A B C : point) (r : float64) :
  joint_bisector (rounded_joint A B C r) = (NaN, NaN) ->
  circle_center (rounded_joint A B C r) = (NaN, NaN) /\
  contact_AB (rounded_joint A B C r) = (NaN, NaN) /\
  contact_BC (rounded_joint A B C r) = (NaN, NaN).
Proof.
  intros H.
  assert (Hc : circle_center (rounded_joint A B C r) = (NaN, NaN)).
  { change (circle_center (rounded_joint A B C r))
      with (vadd B (vscale (joint_d (rounded_joint A B C r))
                      (joint_bisector (rounded_joint A B C r)))).
    rewrite H. unfold vadd, vscale; cbn [fst snd].
    now rewrite !fmul_NaN_r, !fadd_NaN_r. }
  split; [exact Hc|]. split.
  - change (contact_AB (rounded_joint A B C r))
      with (vadd (circle_center (rounded_joint A B C r))
              (vscale r (vopp ((- snd (joint_u (rounded_joint A B C r)))%f64,
                               fst (joint_u (rounded_joint A B C r)))))).
    rewrite Hc. reflexivity.
  - change (contact_BC (rounded_joint A B C r))
      with (vadd (circle_center (rounded_joint A B C r))
              (vscale r (vopp (snd (joint_v (rounded_joint A B C r)),
                               (- fst (joint_v (rounded_joint A B C r)))%f64)))).
    rewrite Hc. reflexivity.
Qed.

(** The unit vector of a segment of length zero: 0/0 in both coordinates. *)
Lemma unit_vector_zero_length (B : R * R) :
  vdiv (vsub (Fp B) (Fp B)) (norm (vsub (Fp B) (Fp B))) = (NaN, NaN).
Proof.
  rewrite vsub_Fp, norm_Fp. cbn [fst snd].
  replace (fst B - fst B) with 0 by ring. replace (snd B - snd B) with 0 by ring.
  replace (0 * 0 + 0 * 0) with 0 by ring. rewrite sqrt_0.
  unfold vdiv, Fp; cbn [fst snd]. now rewrite fdiv_zero_zero.
Qed.

(** X21: a corner with a segment of length zero ([A = B] or [C = B]) goes
    through without any error and gives NaN for both coordinates of the
    centre and of the two contact points, whatever the other point and the
    radius. *)
Theorem rounded_joint_zero_length (B P : R * R) (r : float64) :
  let J1 := rounded_joint (Fp B) (Fp B) (Fp P) r in
  let J2 := rounded_joint (Fp P) (Fp B) (Fp B) r in
  (exists J, call_rounded_joint (Fp B) (Fp B) (Fp P) r = Returns J) /\
  (exists J, call_rounded_joint (Fp P) (Fp B) (Fp B) r = Returns J) /\
  (circle_center J1 = (NaN, NaN) /\ contact_AB J1 = (NaN, NaN) /\
   contact_BC J1 = (NaN, NaN)) /\
  (circle_center J2 = (NaN, NaN) /\ contact_AB J2 = (NaN, NaN) /\
   contact_BC J2 = (NaN, NaN)).
Proof.
  cbv zeta. split; [now eexists|]. split; [now eexists|]. split.
  - apply rounded_joint_NaN_bisector.
    unfold rounded_joint. cbv zeta. cbn [joint_bisector].
    rewrite unit_vector_zero_length. reflexivity.
  - apply rounded_joint_NaN_bisector.
    unfold rounded_joint. cbv zeta. cbn [joint_bisector].
    rewrite unit_vector_zero_length.
    unfold vadd, vdiv, norm, dot; cbn [fst snd].
    rewrite !fadd_NaN_r. reflexivity.
Qed.

(** ** The objectives: where they vanish *)

Lemma objective_values (cx cy : R) :
  let c := (cx, cy) in
  let n := sqrt (cx * cx + cy * cy) in
  exists d_seg d_arc1 d_arc3,
    Plane.is_segment_distance c EmblemRef.P2 EmblemRef.P1 d_seg /\
    Plane.is_sample_distance c EmblemRef.arc1_samples d_arc1 /\
    Plane.is_sample_distance c EmblemRef.arc3_samples d_arc3 /\
    Emblem.objective_inner (Fp c)
    = Returns (Fin (EmblemRef.sq (d_seg - 0.05) + EmblemRef.sq (d_arc1 - 0.05)
                    + (if Rlt_dec (1.2 - 0.05) n
                       then 10 * EmblemRef.sq (n - (1.2 - 0.05)) else 0))) /\
    Emblem.objective_outer (Fp c)
    = Returns (Fin (EmblemRef.sq (d_seg - 0.05) + EmblemRef.sq (d_arc3 - 0.05)
                    + (if Rlt_dec n (1 + 0.05)
                       then 1000 * EmblemRef.sq (1 + 0.05 - n) else 0))).
Proof.
  intros c n.
  destruct (point_segment_distance_Fp c EmblemRef.P2 EmblemRef.P1) as (d_seg & Eseg & Hseg).
  destruct (min_sample_distance_Fp EmblemRef.arc1_samples c) as (d1 & E1 & H1).
  { apply (nonempty_of_length _ 99). apply arc_samples_length. }
  destruct (min_sample_distance_Fp EmblemRef.arc3_samples c) as (d3 & E3 & H3).
  { apply (nonempty_of_length _ 99). apply arc_samples_length. }
  exists d_seg, d1, d3. do 3 (split; [assumption|]).
  assert (Hn : norm (Fp c) = Fin n) by apply norm_Fp.
  unfold Emblem.objective_inner, Emblem.objective_outer. cbv zeta.
  rewrite seg2_pts_Fp, arc1_pts_Fp, arc3_pts_Fp. cbn [fst snd].
  rewrite Eseg, E1, E3, Hn. cbn [bind].
  unfold Emblem.R_corner, Emblem.r1, Emblem.r2, fsquare, fgt.
  cbn [fsub fopp fadd fmul].
  split.
  - destruct (Rlt_dec (1.2 - 0.05) n).
    + rewrite flt_Fin_true by lra. rewrite py_sum_three. unfold EmblemRef.sq.
      first [reflexivity | do 2 f_equal; ring].
    + rewrite flt_Fin_false by lra. rewrite py_sum_two. unfold EmblemRef.sq.
      do 2 f_equal. ring.
  - destruct (Rlt_dec n (1 + 0.05)).
    + rewrite flt_Fin_true by lra. rewrite py_sum_three. unfold EmblemRef.sq.
      first [reflexivity | do 2 f_equal; ring].
    + rewrite flt_Fin_false by lra. rewrite py_sum_two. unfold EmblemRef.sq.
      do 2 f_equal. ring.
Qed.

Lemma sum_squares_zero (a b p : R) :
  0 <= p -> (a * a + b * b + p = 0 <-> a = 0 /\ b = 0 /\ p = 0).
Proof.
  intros Hp. split.
  - intros H. pose proof (Rle_0_sqr a) as Ha. pose proof (Rle_0_sqr b) as Hb.
    unfold Rsqr in Ha, Hb.
    assert (Ha0 : a * a = 0) by lra. assert (Hb0 : b * b = 0) by lra.
    split; [now apply Rmult_integral in Ha0; destruct Ha0|].
    split; [now apply Rmult_integral in Hb0; destruct Hb0 | lra].
  - intros (-> & -> & ->). ring.
Qed.

(** X22: at every finite centre both objectives are non-negative finite
    numbers; the inner one is 0 exactly when the centre is at distance
    R = 0.05 from the segment and from the nearest sample of the outer arc and
    no farther than [r2 - R] from the origin; the outer one likewise, with the
    inner arc and no nearer than [r1 + R]. *)
Theorem objectives_vanish_at_tangency (cx cy : R) :
  let c := (cx, cy) in
  let n := sqrt (cx * cx + cy * cy) in
  exists d_seg d_arc1 d_arc3 v_inner v_outer,
    Plane.is_segment_distance c EmblemRef.P2 EmblemRef.P1 d_seg /\
    Plane.is_sample_distance c EmblemRef.arc1_samples d_arc1 /\
    Plane.is_sample_distance c EmblemRef.arc3_samples d_arc3 /\
    Emblem.objective_inner (Fp c) = Returns (Fin v_inner) /\
    Emblem.objective_outer (Fp c) = Returns (Fin v_outer) /\
    0 <= v_inner /\ 0 <= v_outer /\
    (v_inner = 0 <-> d_seg = 0.05 /\ d_arc1 = 0.05 /\ n <= 1.2 - 0.05) /\
    (v_outer = 0 <-> d_seg = 0.05 /\ d_arc3 = 0.05 /\ 1 + 0.05 <= n).
Proof.
  intros c n.
  destruct (objective_values cx cy) as (d_seg & d1 & d3 & Hseg & H1 & H3 & Ein & Eout).
  fold c n in Ein, Eout.
  exists d_seg, d1, d3. eexists; eexists.
  split; [exact Hseg|]. split; [exact H1|]. split; [exact H3|].
  split; [exact Ein|]. split; [exact Eout|].
  set (pin := if Rlt_dec (1.2 - 0.05) n then 10 * EmblemRef.sq (n - (1.2 - 0.05)) else 0).
  set (pout := if Rlt_dec n (1 + 0.05) then 1000 * EmblemRef.sq (1 + 0.05 - n) else 0).
  assert (Hpin : 0 <= pin /\ (pin = 0 <-> n <= 1.2 - 0.05)).
  { unfold pin, EmblemRef.sq. destruct (Rlt_dec (1.2 - 0.05) n) as [Hlt|Hge].
    - assert (0 < (n - (1.2 - 0.05)) * (n - (1.2 - 0.05))) by (apply Rmult_lt_0_compat; lra).
      split; [lra|]. split; intros; lra.
    - split; [lra|]. split; intros; lra. }
  assert (Hpout : 0 <= pout /\ (pout = 0 <-> 1 + 0.05 <= n)).
  { unfold pout, EmblemRef.sq. destruct (Rlt_dec n (1 + 0.05)) as [Hlt|Hge].
    - assert (0 < (1 + 0.05 - n) * (1 + 0.05 - n)) by (apply Rmult_lt_0_compat; lra).
      split; [lra|]. split; intros; lra.
    - split; [lra|]. split; intros; lra. }
  destruct Hpin as [Hpin0 Hpin]. destruct Hpout as [Hpout0 Hpout].
  pose proof (Rle_0_sqr (d_seg - 0.05)) as Hs. pose proof (Rle_0_sqr (d1 - 0.05)) as Ha1.
  pose proof (Rle_0_sqr (d3 - 0.05)) as Ha3. unfold Rsqr in Hs, Ha1, Ha3.
  unfold EmblemRef.sq.
  split; [lra|]. split; [lra|]. split.
  - rewrite (sum_squares_zero _ _ _ Hpin0), Hpin. split.
    + intros (Ha & Hb & Hc). repeat split; lra.
    + intros (Ha & Hb & Hc). repeat split; lra.
  - rewrite (sum_squares_zero _ _ _ Hpout0), Hpout. split.
    + intros (Ha & Hb & Hc). repeat split; lra.
    + intros (Ha & Hb & Hc). repeat split; lra.
Qed.

(** ** The emblem's base pieces *)

Lemma radius_cos_acos (r a : R) : 0 < r -> - r <= a <= r -> r * cos (acos (a / r)) = a.
Proof.
  intros Hr Ha. rewrite cos_acos; [field; lra|].
  split.
  - apply Rmult_le_reg_r with r; [lra|]. unfold Rdiv. rewrite Rmult_assoc, Rinv_l; lra.
  - apply Rmult_le_reg_r with r; [lra|]. unfold Rdiv. rewrite Rmult_assoc, Rinv_l; lra.
Qed.

Lemma radius_sin_acos (r a : R) :
  0 < r -> - r <= a <= r -> r * sin (acos (a / r)) = sqrt (r * r - a * a).
Proof.
  intros Hr Ha.
  assert (Hx : -1 <= a / r <= 1).
  { split.
    - apply Rmult_le_reg_r with r; [lra|]. unfold Rdiv. rewrite Rmult_assoc, Rinv_l; lra.
    - apply Rmult_le_reg_r with r; [lra|]. unfold Rdiv. rewrite Rmult_assoc, Rinv_l; lra. }
  rewrite sin_acos by exact Hx. unfold Rsqr.
  rewrite <- (sqrt_square r) at 1 by lra.
  rewrite <- sqrt_mult_alt by nra. f_equal. field. lra.
Qed.

Lemma arc_samples_nth (radius a0 a1 : R) (n k : nat) :
  (k < n)%nat ->
  nth k (EmblemRef.arc_samples radius a0 a1 n) (0, 0)
  = (radius * cos (a0 + INR k * ((a1 - a0) / INR (n - 1))),
     radius * sin (a0 + INR k * ((a1 - a0) / INR (n - 1)))).
Proof.
  intros Hk. unfold EmblemRef.arc_samples.
  rewrite (nth_map_lt _ _ k (0, 0) 0%nat) by (now rewrite length_seq).
  now rewrite seq_nth by assumption.
Qed.

Lemma arc_samples_first (radius a0 a1 : R) :
  nth 0 (EmblemRef.arc_samples radius a0 a1 100) (0, 0)
  = (radius * cos a0, radius * sin a0).
Proof.
  rewrite arc_samples_nth by lia. cbn [INR]. now rewrite Rmult_0_l, Rplus_0_r.
Qed.

Lemma arc_samples_last (radius a0 a1 : R) :
  nth 99 (EmblemRef.arc_samples radius a0 a1 100) (0, 0)
  = (radius * cos a1, radius * sin a1).
Proof.
  rewrite arc_samples_nth by lia.
  replace (a0 + INR 99 * ((a1 - a0) / INR (100 - 1))) with a1; [reflexivity|].
  replace (INR (100 - 1)) with (INR 99) by reflexivity.
  field. apply not_0_INR. lia.
Qed.

Lemma arc_samples_on_circle (radius a0 a1 : R) (n : nat) (q : R * R) :
  0 <= radius -> In q (EmblemRef.arc_samples radius a0 a1 n) ->
  sqrt (fst q * fst q + snd q * snd q) = radius.
Proof.
  intros Hr Hq. unfold EmblemRef.arc_samples in Hq. apply in_map_iff in Hq.
  destruct Hq as (k & <- & _). cbn [fst snd].
  set (t := a0 + INR k * ((a1 - a0) / INR (n - 1))).
  pose proof (sin2_cos2 t) as H. unfold Rsqr in H.
  replace (radius * cos t * (radius * cos t) + radius * sin t * (radius * sin t))
    with (radius * radius * (sin t * sin t + cos t * cos t)) by ring.
  rewrite H, Rmult_1_r. now apply sqrt_square.
Qed.

Lemma nth_map_Fp (l : list (R * R)) (k : nat) :
  (k < length l)%nat -> nth k (map Fp l) (NaN, NaN) = Fp (nth k l (0, 0)).
Proof. intros Hk. now apply nth_map_lt. Qed.

(** X23: the emblem's base pieces fit together (rounding aside): the outer arc
    has 100 samples on the circle of radius 1.2, from the top (0, 1.2) to
    [p2], where the segment [p2 p1] starts; the inner arc has 100 samples on
    the circle of radius 1, from [p1], where that segment ends, to [p3], where
    the segment [p3 p4] starts. *)
Theorem emblem_pieces_join :
  (length Emblem.arc1_pts = 100%nat /\ length Emblem.arc3_pts = 100%nat) /\
  (forall q, In q Emblem.arc1_pts -> norm q = Fin 1.2) /\
  (forall q, In q Emblem.arc3_pts -> norm q = Fin 1) /\
  nth 0 Emblem.arc1_pts (NaN, NaN) = (Fin 0, Fin 1.2) /\
  nth 99 Emblem.arc1_pts (NaN, NaN) = fst Emblem.seg2_pts /\
  snd Emblem.seg2_pts = nth 0 Emblem.arc3_pts (NaN, NaN) /\
  nth 99 Emblem.arc3_pts (NaN, NaN) = fst Emblem.seg4_pts.
Proof.
  assert (L1 : length EmblemRef.arc1_samples = 100%nat) by apply arc_samples_length.
  assert (L3 : length EmblemRef.arc3_samples = 100%nat) by apply arc_samples_length.
  assert (Hp3 : fst Emblem.seg4_pts = Fp (-0.1, sqrt (1 * 1 - 0.1 * 0.1))).
  { unfold Emblem.seg4_pts, Emblem.p3, Emblem.r1, fsquare.
    cbn [fst fmul fsub fopp fadd]. rewrite fsqrt_Fin by lra. reflexivity. }
  rewrite Hp3, seg2_pts_Fp, arc1_pts_Fp, arc3_pts_Fp. cbn [fst snd].
  rewrite !length_map, !nth_map_Fp by lia.
  unfold EmblemRef.arc1_samples, EmblemRef.arc3_samples.
  rewrite !arc_samples_first, !arc_samples_last.
  split; [split; apply arc_samples_length|].
  split.
  { intros q Hq. apply in_map_iff in Hq. destruct Hq as (p & <- & Hp).
    rewrite norm_Fp. f_equal. eapply arc_samples_on_circle; [|exact Hp]; lra. }
  split.
  { intros q Hq. apply in_map_iff in Hq. destruct Hq as (p & <- & Hp).
    rewrite norm_Fp. f_equal. eapply arc_samples_on_circle; [|exact Hp]; lra. }
  split.
  { rewrite cos_PI2, sin_PI2. unfold Fp; cbn [fst snd]. f_equal; f_equal; ring. }
  split.
  { rewrite radius_cos_acos, radius_sin_acos by lra.
    unfold EmblemRef.P2. do 3 apply f_equal. lra. }
  split.
  { rewrite radius_cos_acos, radius_sin_acos by lra.
    unfold EmblemRef.P1. symmetry. do 3 apply f_equal. lra. }
  rewrite radius_cos_acos, radius_sin_acos by lra.
  do 3 apply f_equal. lra.
Qed.

(** ** ContourAssembler *)

Lemma fge_Fin (x m : R) : fge (Fin x) (Fin m) = if Rle_dec m x then true else false.
Proof.
  unfold fge, flt, feq.
  destruct (Rlt_dec m x), (Req_dec_T x m), (Rle_dec m x); try reflexivity; lra.
Qed.

Lemma argmin_loop_Fin (t : list R) :
  forall (i : nat) (m : R) (mi : nat),
    let r := argmin_loop (map Fin t) i (Fin m) mi in
    (r = mi /\ forall x, In x t -> m <= x) \/
    (exists k, (k < length t)%nat /\ r = (i + k)%nat /\ nth k t 0 < m /\
               (forall x, In x t -> nth k t 0 <= x) /\
               (forall j, (j < k)%nat -> nth k t 0 < nth j t 0)).
Proof.
  induction t as [|x t IH]; intros i m mi; cbn [map argmin_loop].
  - left. split; [reflexivity | intros x []].
  - rewrite fge_Fin. destruct (Rle_dec m x) as [Hge|Hlt].
    + destruct (IH (S i) m mi) as [[Hr Hall]|(k & Hk & Hr & Hlt & Hmin & Hfirst)].
      * left. split; [exact Hr|]. intros y [<-|Hy]; [exact Hge | now apply Hall].
      * right. exists (S k). cbn [length nth]. split; [lia|]. split; [lia|].
        split; [exact Hlt|]. split.
        -- intros y [<-|Hy]; [lra | now apply Hmin].
        -- intros [|j] Hj; cbn [nth]; [lra | apply Hfirst; lia].
    + assert (Hxm : x < m) by lra.
      destruct (IH (S i) x i) as [[Hr Hall]|(k & Hk & Hr & Hlt' & Hmin & Hfirst)].
      * right. exists 0%nat. cbn [length nth]. split; [lia|]. split; [lia|].
        split; [exact Hxm|]. split.
        -- intros y [<-|Hy]; [lra | now apply Hall].
        -- intros j Hj. lia.
      * right. exists (S k). cbn [length nth]. split; [lia|]. split; [lia|].
        split; [lra|]. split.
        -- intros y [<-|Hy]; [lra | now apply Hmin].
        -- intros [|j] Hj; cbn [nth]; [lra | apply Hfirst; lia].
Qed.

(** On finite entries [argmin] returns the index of the first least entry. *)
Lemma argmin_Fin (l : list R) :
  l <> [] ->
  exists i, argmin (map Fin l) = Returns i /\ (i < length l)%nat /\
            (forall x, In x l -> nth i l 0 <= x) /\
            (forall j, (j < i)%nat -> nth i l 0 < nth j l 0).
Proof.
  destruct l as [|x t]; [congruence|]. intros _. cbn [map argmin].
  destruct (argmin_loop_Fin t 1 x 0) as [[Hr Hall]|(k & Hk & Hr & Hlt & Hmin & Hfirst)].
  - exists 0%nat. split; [now rewrite Hr|]. cbn [length nth]. split; [lia|]. split.
    + intros y [<-|Hy]; [lra | now apply Hall].
    + intros j Hj. lia.
  - exists (S k). split; [now rewrite Hr|]. cbn [length nth]. split; [lia|]. split.
    + intros y [<-|Hy]; [lra | now apply Hmin].
    + intros [|j] Hj; cbn [nth]; [lra | apply Hfirst; lia].
Qed.

Lemma dist_zero (p q : R * R) : Plane.dist p q = 0 -> p = q.
Proof.
  unfold Plane.dist. intros H. apply sqrt_eq_0 in H.
  2:{ apply Rplus_le_le_0_compat; apply Rle_0_sqr. }
  destruct (Rplus_sqr_eq_0 _ _ H) as [Hx Hy].
  destruct p, q; cbn [fst snd] in *. f_equal; lra.
Qed.

Lemma dist_self (p : R * R) : Plane.dist p p = 0.
Proof.
  unfold Plane.dist. replace (_ + _) with 0 by ring. apply sqrt_0.
Qed.

Lemma dist_nonneg (p q : R * R) : 0 <= Plane.dist p q.
Proof. unfold Plane.dist. apply sqrt_pos. Qed.

Lemma distances_Fp (samples : list (R * R)) (c : R * R) :
  map (fun q => norm (vsub q (Fp c))) (map Fp samples)
  = map Fin (map (fun q => Plane.dist q c) samples).
Proof. rewrite !map_map. apply map_ext. intros q. apply norm_vsub_Fp. Qed.

Lemma last_firstn {A : Type} (l : list A) (i : nat) (d : A) :
  (i < length l)%nat -> last (firstn (i + 1) l) d = nth i l d.
Proof.
  revert i. induction l as [|x l IH]; intros i Hi; cbn [length] in Hi; [lia|].
  destruct i as [|i]; cbn [Nat.add firstn nth].
  - destruct l; reflexivity.
  - rewrite <- (IH i) by lia. cbn [last].
    destruct (firstn (i + 1) l) eqn:E; [|reflexivity].
    destruct l; [cbn in Hi; lia|]. rewrite Nat.add_1_r in E. discriminate E.
Qed.

(** X24: on finite samples and a finite centre, the contact point chosen on
    an arc is a sample at the least distance from the centre (the distance the
    objective measures), and the arc truncated at that contact point is a
    beginning of the arc that ends exactly at the contact point. *)
Theorem contact_point_and_truncation (samples : list (R * R)) (c : R * R) :
  samples <> [] ->
  exists q piece rest,
    closest_sample (map Fp samples) (Fp c) = Returns (Fp q) /\
    In q samples /\
    Plane.is_sample_distance c samples (Plane.dist q c) /\
    truncate_at (map Fp samples) (Fp q) = Returns piece /\
    map Fp samples = piece ++ rest /\
    last piece (NaN, NaN) = Fp q.
Proof.
  intros Hne.
  assert (Hne' : forall p, map (fun q => Plane.dist q p) samples <> []).
  { intros p. destruct samples; [congruence | discriminate]. }
  destruct (argmin_Fin _ (Hne' c)) as (i & Ei & Hi & Hmin & _).
  rewrite length_map in Hi.
  set (q := nth i samples (0, 0)).
  assert (Hq : In q samples) by (now apply nth_In).
  assert (Hnth : forall p k, (k < length samples)%nat ->
            nth k (map (fun q => Plane.dist q p) samples) 0
            = Plane.dist (nth k samples (0, 0)) p).
  { intros p k Hk.
    exact (nth_map_lt (fun q => Plane.dist q p) samples k 0 (0, 0) Hk). }
  destruct (argmin_Fin _ (Hne' q)) as (i' & Ei' & Hi' & Hmin' & _).
  rewrite length_map in Hi'.
  assert (Hq' : nth i' samples (0, 0) = q).
  { apply dist_zero.
    pose proof (Hmin' (Plane.dist q q) (in_map (fun p => Plane.dist p q) _ _ Hq)) as H.
    rewrite Hnth in H by assumption. rewrite dist_self in H.
    pose proof (dist_nonneg (nth i' samples (0, 0)) q). lra. }
  exists q, (firstn (i' + 1) (map Fp samples)), (skipn (i' + 1) (map Fp samples)).
  split.
  { unfold closest_sample. rewrite distances_Fp, Ei. cbn [bind]. f_equal.
    apply nth_map_Fp. exact Hi. }
  split; [exact Hq|]. split.
  { split.
    - exists q. split; [exact Hq | reflexivity].
    - intros p Hp. unfold q. rewrite <- (Hnth c i Hi). apply Hmin.
      exact (in_map (fun q => Plane.dist q c) _ _ Hp). }
  split.
  { unfold truncate_at. rewrite distances_Fp, Ei'. reflexivity. }
  split; [symmetry; apply firstn_skipn|].
  rewrite last_firstn by (now rewrite length_map).
  rewrite nth_map_Fp by exact Hi'. now rewrite Hq'.
Qed.

Lemma contact_point_and_truncation_witness :
  [(1, 0); (0, 1)] <> [] /\
  exists q piece rest,
    closest_sample (map Fp [(1, 0); (0, 1)]) (Fp (0, 2)) = Returns (Fp q) /\
    In q [(1, 0); (0, 1)] /\
    Plane.is_sample_distance (0, 2) [(1, 0); (0, 1)] (Plane.dist q (0, 2)) /\
    truncate_at (map Fp [(1, 0); (0, 1)]) (Fp q) = Returns piece /\
    map Fp [(1, 0); (0, 1)] = piece ++ rest /\
    last piece (NaN, NaN) = Fp q.
Proof.
  split; [discriminate|].
  apply (contact_point_and_truncation [(1, 0); (0, 1)] (0, 2)). discriminate.
Defined.

(** ** The fillet arcs *)

Lemma atan2_bound (y x : R) : - PI < atan2 y x <= PI.
Proof.
  pose proof PI_RGT_0 as Hpi. unfold atan2.
  destruct (total_order_T x 0) as [[Hx|Hx]|Hx].
  - destruct (Rle_dec 0 y) as [Hy|Hy].
    + assert (Hq : y / x <= 0).
      { unfold Rdiv. replace (y * / x) with (- (y * / - x)).
        - assert (0 <= y * / - x); [|lra].
          apply Rmult_le_pos; [exact Hy|]. left. apply Rinv_0_lt_compat. lra.
        - field. lra. }
      pose proof (atan_bound (y / x)) as Hb.
      assert (atan (y / x) <= 0).
      { destruct Hq as [Hq|Hq]; [|rewrite Hq, atan_0; lra].
        pose proof (atan_increasing _ _ Hq) as H. rewrite atan_0 in H. lra. }
      lra.
    + assert (Hq : 0 < y / x).
      { unfold Rdiv. replace (y * / x) with (- y * / - x) by (field; lra).
        apply Rmult_lt_0_compat; [lra|]. apply Rinv_0_lt_compat. lra. }
      pose proof (atan_bound (y / x)) as Hb.
      pose proof (atan_increasing _ _ Hq) as H. rewrite atan_0 in H. lra.
  - destruct (total_order_T y 0) as [[Hy|Hy]|Hy]; lra.
  - pose proof (atan_bound (y / x)). lra.
Qed.

Lemma sqrt_one_plus_ratio (y x : R) :
  x <> 0 -> sqrt (1 + (y / x)²) = sqrt (x * x + y * y) / Rabs x.
Proof.
  intros Hx. pose proof (Rabs_pos_lt x Hx) as Hax.
  assert (Hs : 0 <= sqrt (x * x + y * y)) by apply sqrt_pos.
  apply sqrt_lem_1.
  - unfold Rsqr. pose proof (Rle_0_sqr (y / x)) as H. unfold Rsqr in H. lra.
  - apply Rmult_le_pos; [exact Hs|]. left. now apply Rinv_0_lt_compat.
  - replace (sqrt (x * x + y * y) / Rabs x * (sqrt (x * x + y * y) / Rabs x))
      with (sqrt (x * x + y * y) * sqrt (x * x + y * y) / (Rabs x * Rabs x))
      by (field; lra).
    rewrite sqrt_sqrt by nra.
    replace (Rabs x * Rabs x) with (x * x)
      by (rewrite <- Rabs_mult; symmetry; apply Rabs_pos_eq; nra).
    unfold Rsqr. field. exact Hx.
Qed.

Lemma cos_sin_atan2 (y x : R) :
  (x, y) <> (0, 0) ->
  cos (atan2 y x) = x / sqrt (x * x + y * y) /\
  sin (atan2 y x) = y / sqrt (x * x + y * y).
Proof.
  intros Hne.
  assert (Hpos : 0 < sqrt (x * x + y * y)).
  { apply sqrt_lt_R0. destruct (Req_dec x 0) as [->|Hx].
    - assert (y <> 0) by (intros ->; now apply Hne). nra.
    - nra. }
  unfold atan2. destruct (total_order_T x 0) as [[Hx|Hx]|Hx].
  - assert (Hx0 : x <> 0) by lra.
    pose proof (sqrt_one_plus_ratio y x Hx0) as Hsq. rewrite (Rabs_left x Hx) in Hsq.
    assert (Hc : cos (atan (y / x)) = - (x / sqrt (x * x + y * y))).
    { rewrite cos_atan, Hsq. field. split; lra. }
    assert (Hs : sin (atan (y / x)) = - (y / sqrt (x * x + y * y))).
    { rewrite sin_atan, Hsq. field. split; lra. }
    destruct (Rle_dec 0 y).
    + rewrite cos_plus, sin_plus, cos_PI, sin_PI, Hc, Hs. split; ring.
    + rewrite cos_minus, sin_minus, cos_PI, sin_PI, Hc, Hs. split; ring.
  - subst x. replace (0 * 0 + y * y) with (y * y) in * by ring.
    destruct (total_order_T y 0) as [[Hy|Hy]|Hy].
    + replace (y * y) with ((- y) * (- y)) by ring.
      rewrite sqrt_square by lra. rewrite cos_neg, sin_neg, cos_PI2, sin_PI2.
      split; field; lra.
    + subst y. exfalso. now apply Hne.
    + rewrite sqrt_square by lra. rewrite cos_PI2, sin_PI2. split; field; lra.
  - assert (Hx0 : x <> 0) by lra.
    pose proof (sqrt_one_plus_ratio y x Hx0) as Hsq.
    rewrite (Rabs_pos_eq x (Rlt_le _ _ Hx)) in Hsq.
    rewrite cos_atan, sin_atan, Hsq. split; field; split; lra.
Qed.

Lemma at_angle_atan2 (c p : R * R) :
  p <> c ->
  Arc.at_angle c (atan2 (snd p - snd c) (fst p - fst c)) = Arc.toward c p.
Proof.
  intros Hne.
  assert (Hv : (fst p - fst c, snd p - snd c) <> (0, 0)).
  { intros E. apply Hne. injection E as E1 E2. destruct p, c; cbn [fst snd] in *.
    f_equal; lra. }
  destruct (cos_sin_atan2 _ _ Hv) as [Hc Hs].
  unfold Arc.at_angle, Arc.toward, Plane.dist. now rewrite Hc, Hs.
Qed.

Lemma at_angle_period (c : R * R) (a : R) :
  Arc.at_angle c (a + 2 * PI) = Arc.at_angle c a /\
  Arc.at_angle c (a - 2 * PI) = Arc.at_angle c a.
Proof.
  unfold Arc.at_angle.
  rewrite cos_plus, sin_plus, cos_minus, sin_minus, cos_2PI, sin_2PI.
  split; f_equal; ring.
Qed.

Lemma arc_points_Fp (c : R * R) (angles : list R) :
  arc_points (Fp c) (map Fin angles) = map Fp (map (Arc.at_angle c) angles).
Proof. unfold arc_points. rewrite !map_map. reflexivity. Qed.

Lemma arc_points_linspace (c : R * R) (a0 a1 : R) :
  arc_points (Fp c) (linspace (Fin a0) (Fin a1) 100) = map Fp (Arc.swept c a0 (a1 - a0)).
Proof.
  rewrite linspace_Fin by lia.
  rewrite <- (map_map (fun k => a0 + INR k * ((a1 - a0) / INR (100 - 1))) Fin).
  rewrite arc_points_Fp. unfold Arc.swept. apply f_equal. rewrite map_map.
  apply map_ext. intros k.
  replace (INR (100 - 1)) with 99 by (rewrite INR_IZR_INZ; reflexivity). reflexivity.
Qed.

Lemma swept_length (c : R * R) (a sweep : R) : length (Arc.swept c a sweep) = 100%nat.
Proof. unfold Arc.swept. now rewrite length_map, length_seq. Qed.

Lemma swept_nth (c : R * R) (a sweep : R) (k : nat) :
  (k < 100)%nat ->
  nth k (Arc.swept c a sweep) (0, 0) = Arc.at_angle c (a + INR k * (sweep / 99)).
Proof.
  intros Hk. unfold Arc.swept.
  rewrite (nth_map_lt _ _ k (0, 0) 0%nat) by (now rewrite length_seq).
  now rewrite seq_nth by assumption.
Qed.

Lemma swept_rev (c : R * R) (a sweep : R) :
  rev (Arc.swept c a sweep) = Arc.swept c (a + sweep) (- sweep).
Proof.
  apply (nth_ext _ _ (0, 0) (0, 0)).
  - now rewrite length_rev, !swept_length.
  - intros k Hk. rewrite length_rev, swept_length in Hk.
    rewrite rev_nth by (now rewrite swept_length). rewrite swept_length.
    rewrite !swept_nth by lia. f_equal.
    replace (100 - S k)%nat with (99 - k)%nat by lia.
    rewrite minus_INR by lia.
    replace (INR 99) with 99 by (rewrite INR_IZR_INZ; reflexivity). field.
Qed.

Lemma at_angle_radius (c : R * R) (a : R) : Plane.dist (Arc.at_angle c a) c = 0.05.
Proof.
  unfold Plane.dist, Arc.at_angle; cbn [fst snd].
  pose proof (sin2_cos2 a) as H. unfold Rsqr in H.
  replace ((fst c + 0.05 * cos a - fst c) * (fst c + 0.05 * cos a - fst c)
           + (snd c + 0.05 * sin a - snd c) * (snd c + 0.05 * sin a - snd c))
    with (0.05 * 0.05 * (sin a * sin a + cos a * cos a)) by ring.
  rewrite H, Rmult_1_r. apply sqrt_square. lra.
Qed.

Lemma angles_Fp (c p : R * R) :
  farctan2 (snd (vsub (Fp p) (Fp c))) (fst (vsub (Fp p) (Fp c)))
  = Fin (atan2 (snd p - snd c) (fst p - fst c)).
Proof. reflexivity. Qed.

Lemma at_angle_eq (c : R * R) (a b : R) : a = b -> Arc.at_angle c a = Arc.at_angle c b.
Proof. now intros ->. Qed.

Lemma swept_eq (c : R * R) (a a' s s' : R) :
  a = a' -> s = s' -> map Fp (Arc.swept c a s) = map Fp (Arc.swept c a' s').
Proof. now intros -> ->. Qed.

Lemma arc_connection_inner_swept (c p q : R * R) :
  exists sweep, 0 <= sweep < 2 * PI /\
    arc_from_to (arc_connection_inner (Fp c) (Fp p) (Fp q)) c p q sweep.
Proof.
  unfold arc_connection_inner. cbv zeta. rewrite !angles_Fp.
  set (a_s := atan2 (snd p - snd c) (fst p - fst c)).
  set (a_e := atan2 (snd q - snd c) (fst q - fst c)).
  pose proof (atan2_bound (snd p - snd c) (fst p - fst c)) as Hs. fold a_s in Hs.
  pose proof (atan2_bound (snd q - snd c) (fst q - fst c)) as He. fold a_e in He.
  destruct (Rlt_dec a_e a_s) as [Hlt|Hge].
  - rewrite flt_Fin_true by exact Hlt. cbn [fadd]. rewrite arc_points_linspace.
    exists (a_e + 2 * PI - a_s). split; [lra|]. exists a_s.
    split; [apply swept_eq; ring|]. split; [reflexivity|].
    transitivity (Arc.at_angle c (a_e + 2 * PI));
      [apply at_angle_eq; ring | exact (proj1 (at_angle_period c a_e))].
  - rewrite flt_Fin_false by lra. rewrite arc_points_linspace.
    exists (a_e - a_s). split; [lra|]. exists a_s.
    split; [apply swept_eq; ring|]. split; [reflexivity|].
    transitivity (Arc.at_angle c a_e); [apply at_angle_eq; ring | reflexivity].
Qed.

Lemma arc_connection_outer_swept (c p q : R * R) :
  exists sweep, 0 <= sweep < 2 * PI /\
    arc_from_to (arc_connection_outer (Fp c) (Fp p) (Fp q)) c p q sweep.
Proof.
  unfold arc_connection_outer. cbv zeta. rewrite !angles_Fp.
  set (a_s := atan2 (snd p - snd c) (fst p - fst c)).
  set (a_e := atan2 (snd q - snd c) (fst q - fst c)).
  pose proof (atan2_bound (snd p - snd c) (fst p - fst c)) as Hs. fold a_s in Hs.
  pose proof (atan2_bound (snd q - snd c) (fst q - fst c)) as He. fold a_e in He.
  destruct (Rlt_dec a_e a_s) as [Hlt|Hge].
  - rewrite flt_Fin_true by exact Hlt. cbn [fsub fopp fadd].
    rewrite arc_points_linspace, <- map_rev, swept_rev.
    exists (a_e - (a_s - 2 * PI)). split; [lra|]. exists (a_s - 2 * PI).
    split; [apply swept_eq; ring|].
    split; [exact (proj2 (at_angle_period c a_s))|].
    transitivity (Arc.at_angle c a_e); [apply at_angle_eq; ring | reflexivity].
  - rewrite flt_Fin_false by lra.
    rewrite arc_points_linspace, <- map_rev, swept_rev.
    exists (a_e - a_s). split; [lra|]. exists a_s.
    split; [apply swept_eq; ring|]. split; [reflexivity|].
    transitivity (Arc.at_angle c a_e); [apply at_angle_eq; ring | reflexivity].
Qed.

Lemma arc_connection_low_swept (c p q : R * R) :
  exists sweep, - (2 * PI) < sweep <= 0 /\
    arc_from_to (arc_connection_low (Fp c) (Fp p) (Fp q)) c p q sweep.
Proof.
  unfold arc_connection_low. cbv zeta. rewrite !angles_Fp.
  set (a_s := atan2 (snd p - snd c) (fst p - fst c)).
  set (a_e := atan2 (snd q - snd c) (fst q - fst c)).
  pose proof (atan2_bound (snd p - snd c) (fst p - fst c)) as Hs. fold a_s in Hs.
  pose proof (atan2_bound (snd q - snd c) (fst q - fst c)) as He. fold a_e in He.
  destruct (Rlt_dec a_s a_e) as [Hlt|Hge].
  - rewrite flt_Fin_true by exact Hlt. cbn [fsub fopp fadd]. rewrite arc_points_linspace.
    exists (a_e - 2 * PI - a_s). split; [lra|]. exists a_s.
    split; [apply swept_eq; ring|]. split; [reflexivity|].
    transitivity (Arc.at_angle c (a_e - 2 * PI));
      [apply at_angle_eq; ring | exact (proj2 (at_angle_period c a_e))].
  - rewrite flt_Fin_false by lra. rewrite arc_points_linspace.
    exists (a_e - a_s). split; [lra|]. exists a_s.
    split; [apply swept_eq; ring|]. split; [reflexivity|].
    transitivity (Arc.at_angle c a_e); [apply at_angle_eq; ring | reflexivity].
Qed.

(** X25: each of the three fillet arcs is 100 samples of the circle of radius
    0.05 about the fitted centre, evenly spaced in angle; the first and the
    second turn counter-clockwise, by less than a full turn, and the third
    turns clockwise, by less than a full turn. *)
Theorem fillet_arcs_sweep (c p q : R * R) :
  (exists a sweep, 0 <= sweep < 2 * PI /\
     arc_connection_inner (Fp c) (Fp p) (Fp q) = map Fp (Arc.swept c a sweep)) /\
  (exists a sweep, 0 <= sweep < 2 * PI /\
     arc_connection_outer (Fp c) (Fp p) (Fp q) = map Fp (Arc.swept c a sweep)) /\
  (exists a sweep, - (2 * PI) < sweep <= 0 /\
     arc_connection_low (Fp c) (Fp p) (Fp q) = map Fp (Arc.swept c a sweep)).
Proof.
  destruct (arc_connection_inner_swept c p q) as (s1 & H1 & a1 & E1 & _).
  destruct (arc_connection_outer_swept c p q) as (s2 & H2 & a2 & E2 & _).
  destruct (arc_connection_low_swept c p q) as (s3 & H3 & a3 & E3 & _).
  split; [exists a1, s1; split; [exact H1 | exact E1]|].
  split; [exists a2, s2; split; [exact H2 | exact E2]|].
  exists a3, s3; split; [exact H3 | exact E3].
Qed.

Lemma arc_from_to_ends (arc : curve) (c p q : R * R) (sweep : R) :
  p <> c -> q <> c -> arc_from_to arc c p q sweep ->
  length arc = 100%nat /\
  nth 0 arc (NaN, NaN) = Fp (Arc.toward c p) /\
  nth 99 arc (NaN, NaN) = Fp (Arc.toward c q) /\
  forall x, In x arc -> exists r, x = Fp r /\ Plane.dist r c = 0.05.
Proof.
  intros Hp Hq (a & -> & Hstart & Hend).
  rewrite length_map, swept_length. split; [reflexivity|].
  rewrite !nth_map_Fp by (rewrite swept_length; lia).
  rewrite !swept_nth by lia. split; [|split].
  - apply f_equal. rewrite <- (at_angle_atan2 c p Hp), <- Hstart.
    apply at_angle_eq. cbn [INR]. ring.
  - apply f_equal. rewrite <- (at_angle_atan2 c q Hq), <- Hend.
    apply at_angle_eq.
    replace (INR 99) with 99 by (rewrite INR_IZR_INZ; reflexivity). field.
  - intros x Hx. apply in_map_iff in Hx. destruct Hx as (r & <- & Hr).
    exists r. split; [reflexivity|]. unfold Arc.swept in Hr. apply in_map_iff in Hr.
    destruct Hr as (k & <- & _). apply at_angle_radius.
Qed.

(** X26: when the two contact points differ from the fitted centre, each of
    the three fillet arcs has 100 points, all at distance 0.05 from the
    centre; it starts on the ray from the centre through its first contact
    point and ends on the ray through its second. *)
Theorem fillet_arcs_ends (c p q : R * R) :
  p <> c -> q <> c ->
  forall arc,
    arc = arc_connection_inner (Fp c) (Fp p) (Fp q) \/
    arc = arc_connection_outer (Fp c) (Fp p) (Fp q) \/
    arc = arc_connection_low (Fp c) (Fp p) (Fp q) ->
    length arc = 100%nat /\
    nth 0 arc (NaN, NaN) = Fp (Arc.toward c p) /\
    nth 99 arc (NaN, NaN) = Fp (Arc.toward c q) /\
    forall x, In x arc -> exists r, x = Fp r /\ Plane.dist r c = 0.05.
Proof.
  intros Hp Hq arc [ -> | [ -> | -> ] ].
  - destruct (arc_connection_inner_swept c p q) as (s & _ & H).
    exact (arc_from_to_ends _ c p q s Hp Hq H).
  - destruct (arc_connection_outer_swept c p q) as (s & _ & H).
    exact (arc_from_to_ends _ c p q s Hp Hq H).
  - destruct (arc_connection_low_swept c p q) as (s & _ & H).
    exact (arc_from_to_ends _ c p q s Hp Hq H).
Qed.

Lemma fillet_arcs_ends_witness :
  (1, 0) <> (0, 0) /\ (0, 1) <> (0, 0) /\
  length (arc_connection_inner (Fp (0, 0)) (Fp (1, 0)) (Fp (0, 1))) = 100%nat /\
  nth 0 (arc_connection_inner (Fp (0, 0)) (Fp (1, 0)) (Fp (0, 1))) (NaN, NaN)
  = Fp (Arc.toward (0, 0) (1, 0)).
Proof.
  assert (H1 : (1, 0) <> (0, 0)) by (intros E; injection E as E; lra).
  assert (H2 : (0, 1) <> (0, 0)) by (intros E; injection E as E; lra).
  split; [exact H1|]. split; [exact H2|].
  destruct (fillet_arcs_ends (0, 0) (1, 0) (0, 1) H1 H2 _ (or_introl eq_refl))
    as (Hl & H0 & _).
  split; [exact Hl | exact H0].
Defined.

(** ** The application *)

Lemma handle_parameters_agree (revolution_paths : list curve) (app : SpinPAKApp)
  (ev : slider_event) :
  parameters_agree revolution_paths app ->
  parameters_agree revolution_paths (handle app ev).
Proof.
  intros (HR & Hx & Hy & Hs & Hp).
  destruct ev; unfold parameters_agree; cbn; repeat split; assumption.
Qed.

Lemma fold_invariant {S E : Type} (step : S -> E -> S) (P : S -> Prop) (Q : E -> Prop) :
  (forall s e, P s -> Q e -> P (step s e)) ->
  forall events s, P s -> Forall Q events -> P (fold_left step events s).
Proof.
  intros Hstep events. induction events as [|e events IH]; intros s Hs Hall; [exact Hs|].
  cbn [fold_left]. inversion Hall as [|? ? He Hrest]; subst.
  apply IH; [now apply Hstep | exact Hrest].
Qed.

(** X27: whatever the sliders do, in any order and with any values, the two
    canvases hold the same airfoil parameters (R, centre, scale), and the
    emblem's paths computed at start-up are never replaced. *)
Theorem canvases_stay_in_step (revolution_paths : list curve) (events : list slider_event) :
  let app := run revolution_paths events in
  jc_R (joukowsky_canvas app) = rc_R (revolution_canvas app) /\
  jc_x_center (joukowsky_canvas app) = rc_x_center (revolution_canvas app) /\
  jc_y_center (joukowsky_canvas app) = rc_y_center (revolution_canvas app) /\
  jc_scale (joukowsky_canvas app) = rc_scale (revolution_canvas app) /\
  rc_revolution_paths (revolution_canvas app) = revolution_paths.
Proof.
  cbv zeta. unfold run.
  apply (fold_invariant handle (parameters_agree revolution_paths) (fun _ => True)).
  - intros s e Hs _. now apply handle_parameters_agree.
  - unfold parameters_agree. cbn. repeat split.
  - apply Forall_forall. intros; exact I.
Qed.

Lemma hundredth_between (lo hi : Z) (v : Z) :
  (lo <= v <= hi)%Z -> between (IZR lo / 100) (IZR hi / 100) (hundredth v).
Proof.
  intros [Hlo Hhi]. unfold hundredth. rewrite fdiv_Fin by lra. cbn [between].
  apply IZR_le in Hlo, Hhi. lra.
Qed.

Lemma between_weaken (lo hi lo' hi' : R) (x : float64) :
  lo' = lo -> hi' = hi -> between lo' hi' x -> between lo hi x.
Proof. now intros -> ->. Qed.

Lemma handle_within_slider_ranges (app : SpinPAKApp) (ev : slider_event) :
  within_slider_ranges app -> in_slider_range ev -> within_slider_ranges (handle app ev).
Proof.
  intros (HR & Hx & Hy & Hs & Ho & Hn) Hev.
  destruct ev as [v|v|v|v|v|v]; cbn [in_slider_range] in Hev;
    unfold within_slider_ranges; cbn [handle on_r_changed on_x_changed on_y_changed
      on_scale_changed on_offset_changed on_revolution_changed revolution_canvas
      update_joukowsky_parameters update_y_offset update_n_revolutions or_keep
      rc_R rc_x_center rc_y_center rc_scale rc_y_offset rc_n_revolutions].
  - split; [|tauto].
    apply (between_weaken _ _ (IZR 50 / 100) (IZR 120 / 100)); [lra | lra|].
    now apply hundredth_between.
  - split; [assumption|]. split; [|tauto].
    apply (between_weaken _ _ (IZR (-50) / 100) (IZR 50 / 100)); [lra | lra|].
    now apply hundredth_between.
  - split; [assumption|]. split; [assumption|]. split; [|tauto].
    apply (between_weaken _ _ (IZR 0 / 100) (IZR 50 / 100)); [lra | lra|].
    now apply hundredth_between.
  - do 3 (split; [assumption|]). split; [|tauto].
    apply (between_weaken _ _ (IZR 10 / 100) (IZR 300 / 100)); [lra | lra|].
    now apply hundredth_between.
  - do 4 (split; [assumption|]). split; [|tauto].
    apply (between_weaken _ _ (IZR (-100) / 100) (IZR 100 / 100)); [lra | lra|].
    now apply hundredth_between.
  - tauto.
Qed.

Lemma run_within_slider_ranges (revolution_paths : list curve) (events : list slider_event) :
  Forall in_slider_range events -> within_slider_ranges (run revolution_paths events).
Proof.
  intros Hall. unfold run.
  apply (fold_invariant handle within_slider_ranges in_slider_range).
  - intros s e. apply handle_within_slider_ranges.
  - unfold within_slider_ranges. cbn. repeat split; try lra; lia.
  - exact Hall.
Qed.

Lemma run_keeps_paths (revolution_paths : list curve) (events : list slider_event) :
  rc_revolution_paths (revolution_canvas (run revolution_paths events)) = revolution_paths.
Proof.
  unfold run.
  apply (fold_invariant handle
           (fun app => rc_revolution_paths (revolution_canvas app) = revolution_paths)
           (fun _ => True)).
  - intros s [v|v|v|v|v|v] Hs _; exact Hs.
  - reflexivity.
  - apply Forall_forall. intros; exact I.
Qed.

(** X28: as long as every slider stays within the range set for it, the
    parameters stay within R in [0.5, 1.2], x in [-0.5, 0.5], y in [0, 0.5],
    scale in [0.1, 3], offset in [-1, 1] and 1 to 12 revolutions, and
    computing the curves of the combined plot raises nothing: they are the
    emblem's paths and one airfoil per revolution. *)
Theorem sliders_keep_ranges (revolution_paths : list curve) (events : list slider_event) :
  Forall in_slider_range events ->
  let canvas := revolution_canvas (run revolution_paths events) in
  between 0.5 1.2 (rc_R canvas) /\
  between (-0.5) 0.5 (rc_x_center canvas) /\
  between 0 0.5 (rc_y_center canvas) /\
  between 0.1 3 (rc_scale canvas) /\
  between (-1) 1 (rc_y_offset canvas) /\
  (1 <= rc_n_revolutions canvas <= 12)%nat /\
  exists curves,
    plot_combined canvas = Returns curves /\
    length curves = (length revolution_paths + rc_n_revolutions canvas)%nat.
Proof.
  intros Hall. cbv zeta.
  pose proof (run_within_slider_ranges revolution_paths events Hall) as Hr.
  destruct Hr as (HR & Hx & Hy & Hs & Ho & Hn).
  pose proof (run_keeps_paths revolution_paths events) as Hp.
  do 5 (split; [assumption|]). split; [exact Hn|].
  set (canvas := revolution_canvas (run revolution_paths events)) in *.
  destruct (overlay_curves_shape (rc_n_revolutions canvas)
              (airfoil_points (rc_R canvas) (rc_x_center canvas) (rc_y_center canvas)
                 (rc_scale canvas) (rc_y_offset canvas)) (proj1 Hn))
    as (curves & Hc & Hlen & _).
  exists (rc_revolution_paths canvas ++ curves). split.
  - unfold plot_combined. cbv zeta. fold canvas. now rewrite Hc.
  - rewrite length_app, Hlen, Hp. reflexivity.
Qed.

Lemma sliders_keep_ranges_witness :
  Forall in_slider_range [r_changed 100; revolution_changed 3] /\
  let canvas := revolution_canvas (run [] [r_changed 100; revolution_changed 3]) in
  between 0.5 1.2 (rc_R canvas) /\
  between (-0.5) 0.5 (rc_x_center canvas) /\
  between 0 0.5 (rc_y_center canvas) /\
  between 0.1 3 (rc_scale canvas) /\
  between (-1) 1 (rc_y_offset canvas) /\
  (1 <= rc_n_revolutions canvas <= 12)%nat /\
  exists curves,
    plot_combined canvas = Returns curves /\
    length curves = (length (@nil curve) + rc_n_revolutions canvas)%nat.
Proof.
  assert (H : Forall in_slider_range [r_changed 100; revolution_changed 3]).
  { repeat constructor; cbn; lia. }
  split; [exact H|].
  exact (sliders_keep_ranges [] [r_changed 100; revolution_changed 3] H).
Defined.

Lemma endswith_app (s suffix : list Ascii.ascii) : endswith (s ++ suffix) suffix = true.
Proof.
  unfold endswith. rewrite length_app.
  replace (length s + length suffix - length suffix)%nat with (length s) by lia.
  rewrite skipn_app, skipn_all, Nat.sub_diag. cbn [skipn app].
  destruct (list_eq_dec Ascii.ascii_dec suffix suffix) as [_|N]; [|contradiction].
  rewrite andb_true_r. apply Nat.leb_le. lia.
Qed.

Lemma lower_dot_svg : lower dot_svg = dot_svg.
Proof. reflexivity. Qed.

Lemma ensure_svg_extension_ends (filename : list Ascii.ascii) :
  endswith (lower (ensure_svg_extension filename)) dot_svg = true.
Proof.
  unfold ensure_svg_extension.
  destruct (endswith (lower filename) dot_svg) eqn:E; cbn [negb]; [exact E|].
  unfold lower. rewrite map_app. fold (lower dot_svg). rewrite lower_dot_svg.
  apply endswith_app.
Qed.

(** X29: the name the export writes to always ends in [.svg], whatever the
    case of its letters; a name that already does is kept as it is, any other
    gets [.svg] appended, and applying the rule twice changes nothing more. *)
Theorem ensure_svg_extension_spec (filename : list Ascii.ascii) :
  endswith (lower (ensure_svg_extension filename)) dot_svg = true /\
  (ensure_svg_extension filename = filename \/
   ensure_svg_extension filename = filename ++ dot_svg) /\
  (endswith (lower filename) dot_svg = true <-> ensure_svg_extension filename = filename) /\
  ensure_svg_extension (ensure_svg_extension filename) = ensure_svg_extension filename.
Proof.
  split; [apply ensure_svg_extension_ends|]. split; [|split].
  - unfold ensure_svg_extension. destruct (endswith (lower filename) dot_svg); auto.
  - unfold ensure_svg_extension. split.
    + now intros ->.
    + destruct (endswith (lower filename) dot_svg); [reflexivity|]. cbn [negb].
      intros E. apply (f_equal (@length _)) in E. rewrite length_app in E.
      cbn [dot_svg map length] in E. lia.
  - unfold ensure_svg_extension at 1. now rewrite ensure_svg_extension_ends.
Qed.

(** X30: in every state the sliders can reach within their ranges, the
    application's own computation in the export raises nothing: when a name
    was chosen the button reports success under the name with its [.svg]
    extension, unless [svgwrite] itself fails; when the dialog was cancelled
    nothing is shown. With the revolutions at 0, which no slider position
    gives, the failure box shows ZeroDivisionError. *)
Theorem on_export_clicked_outcome (svgwrite : list Ascii.ascii -> drawing -> bool)
  (revolution_paths : list curve) (events : list slider_event)
  (filename : list Ascii.ascii) :
  Forall in_slider_range events ->
  let app := run revolution_paths events in
  on_export_clicked svgwrite app [] = no_message /\
  (filename <> [] ->
   (exists dwg,
      svgwrite (ensure_svg_extension filename) dwg = true /\
      on_export_clicked svgwrite app filename
      = information (ensure_svg_extension filename)) \/
   on_export_clicked svgwrite app filename = critical from_svgwrite) /\
  (filename <> [] ->
   on_export_clicked svgwrite (on_revolution_changed app 0) filename
   = critical (own ZeroDivisionError)).
Proof.
  intros Hall. cbv zeta. split; [reflexivity|].
  destruct (run_within_slider_ranges revolution_paths events Hall)
    as (_ & _ & _ & _ & _ & Hn & _).
  split; intros Hne; (destruct filename as [|c filename]; [congruence|]).
  - unfold on_export_clicked. cbv zeta.
    set (canvas := revolution_canvas (run revolution_paths events)) in *.
    destruct (export_to_svg_returns (rc_revolution_paths canvas) (rc_R canvas)
                (rc_x_center canvas) (rc_y_center canvas) (rc_scale canvas)
                (rc_y_offset canvas) (rc_n_revolutions canvas) Hn) as (doc & ->).
    destruct (svgwrite (ensure_svg_extension (c :: filename)) doc) eqn:E.
    + left. exists doc. split; [exact E | reflexivity].
    + right. reflexivity.
  - reflexivity.
Qed.

Lemma on_export_clicked_outcome_witness :
  Forall in_slider_range [offset_changed (-100); revolution_changed 12] /\
  let app := run [] [offset_changed (-100); revolution_changed 12] in
  on_export_clicked (fun (_ : list Ascii.ascii) (_ : drawing) => true) app [] = no_message /\
  (dot_svg <> [] ->
   (exists dwg,
      (fun (_ : list Ascii.ascii) (_ : drawing) => true) (ensure_svg_extension dot_svg) dwg = true /\
      on_export_clicked (fun (_ : list Ascii.ascii) (_ : drawing) => true) app dot_svg
      = information (ensure_svg_extension dot_svg)) \/
   on_export_clicked (fun (_ : list Ascii.ascii) (_ : drawing) => true) app dot_svg = critical from_svgwrite) /\
  (dot_svg <> [] ->
   on_export_clicked (fun (_ : list Ascii.ascii) (_ : drawing) => true) (on_revolution_changed app 0) dot_svg
   = critical (own ZeroDivisionError)).
Proof.
  assert (H : Forall in_slider_range [offset_changed (-100); revolution_changed 12]).
  { repeat constructor; cbn; lia. }
  split; [exact H|].
  exact (on_export_clicked_outcome (fun (_ : list Ascii.ascii) (_ : drawing) => true) []
           [offset_changed (-100); revolution_changed 12] dot_svg H).
Defined.
